(** * mfsck: the Minix file system checker of ELKS (elks/tools/mfsck/mfsck.c)

    A shallow embedding of the checker.  The C globals become one record
    [globals]; every C function becomes a function in a small state monad
    whose results distinguish a normal return, [leave(status)], an access
    outside an array (undefined in C) and exhaustion of the recursion fuel.
    Everything the program prints, asks or writes is appended to the event
    log [out], so that statements about "no write was issued" or "a
    diagnostic was printed" are statements about that log. *)

From Stdlib Require Import ZArith List Bool Lia String Ascii.
Import ListNotations.
Local Open Scope Z_scope.

(** ** C integers *)

(** An unsigned [w]-bit integer is a [Z] reduced modulo [2^w]. *)
Definition wrap (w x : Z) : Z := x mod 2 ^ w.
Definition u8 (x : Z) : Z := wrap 8 x.
Definition u16 (x : Z) : Z := wrap 16 x.
Definition u32 (x : Z) : Z := wrap 32 x.

(** Conversion of an [unsigned int] to [int] (two's complement). *)
Definition to_int (x : Z) : Z := if x <? 2 ^ 31 then x else x - 2 ^ 32.

(** Array access with a C index: [None] is an access outside the array. *)
Definition zget {A : Type} (l : list A) (i : Z) : option A :=
  if i <? 0 then None else nth_error l (Z.to_nat i).

Fixpoint replace_nth {A : Type} (l : list A) (n : nat) (x : A) : list A :=
  match l, n with
  | [], _ => []
  | _ :: t, O => x :: t
  | h :: t, S n' => h :: replace_nth t n' x
  end.

Definition zset {A : Type} (l : list A) (i : Z) (x : A) : option (list A) :=
  if i <? 0 then None
  else if Z.of_nat (List.length l) <=? i then None
  else Some (replace_nth l (Z.to_nat i) x).

(** ** Constants of mfsck.h, limits.h and sys/stat.h *)

(** Modelled from the spec: mfsck.h is not part of the sources at hand; the
    block size, the four magic numbers, the two state flags and the number
    of inodes per block are the ones the specification lists. *)
Definition BLOCK_SIZE : Z := 1024.
Definition MINIX_SUPER_MAGIC : Z := 0x137F.
Definition MINIX_SUPER_MAGIC2 : Z := 0x138F.
Definition MINIX2_SUPER_MAGIC : Z := 0x2468.
Definition MINIX2_SUPER_MAGIC2 : Z := 0x2478.
Definition MINIX_VALID_FS : Z := 1.
Definition MINIX_ERROR_FS : Z := 2.
Definition MINIX_INODES_PER_BLOCK : Z := 32.
Definition MINIX2_INODES_PER_BLOCK : Z := 16.

Definition NAME_MAX : Z := 255.
Definition MAX_DEPTH : Z := 50.
Definition ROOT_INO : Z := 1.
Definition BITS_PER_BLOCK : Z := Z.shiftl BLOCK_SIZE 3.

Definition S_IFMT : Z := 0xF000.
Definition S_ISDIR (m : Z) : bool := Z.land m S_IFMT =? 0x4000.
Definition S_ISREG (m : Z) : bool := Z.land m S_IFMT =? 0x8000.
Definition S_ISCHR (m : Z) : bool := Z.land m S_IFMT =? 0x2000.
Definition S_ISBLK (m : Z) : bool := Z.land m S_IFMT =? 0x6000.
Definition S_ISLNK (m : Z) : bool := Z.land m S_IFMT =? 0xA000.
Definition S_ISSOCK (m : Z) : bool := Z.land m S_IFMT =? 0xC000.
Definition S_ISFIFO (m : Z) : bool := Z.land m S_IFMT =? 0x1000.

(** ** Data *)

(** The super block, field by field (all fields are unsigned; [s_zones] is
    the 32-bit zone count of version 2). *)
Record minix_super_block : Type := {
  s_ninodes : Z;
  s_nzones : Z;
  s_imap_blocks : Z;
  s_zmap_blocks : Z;
  s_firstdatazone : Z;
  s_log_zone_size : Z;
  s_max_size : Z;
  s_magic : Z;
  s_state : Z;
  s_zones : Z
}.

(** The fields of [struct minix_inode] and [struct minix2_inode] that the
    checker reads or writes.  Version 1 has 9 zone slots, version 2 has 10. *)
Record minix_inode : Type := {
  i_mode : Z;
  i_nlinks : Z;
  i_size : Z;
  i_zone : list Z
}.

(** A block is its 1024 bytes. *)
Definition block : Type := list Z.
Definition zero_block : block := repeat 0 (Z.to_nat BLOCK_SIZE).

(** The device behind the descriptor [IN].  Blocks are addressed by number;
    [None] stands for a short or failed [read].  The bitmaps and the inode
    table, which follow the super block, are kept decoded. *)
Record device : Type := {
  dev_seek_ok : Z -> bool;
  dev_write_ok : Z -> bool;
  dev_super : option minix_super_block;
  dev_inode_map : option (list Z);
  dev_zone_map : option (list Z);
  dev_inodes : option (list minix_inode);
  dev_block : Z -> option block
}.

(** Command line switches (the statics of lines 128-129). *)
Record options : Type := {
  repair : bool;
  automatic : bool;
  verbose : bool;
  opt_list : bool;
  show : bool;
  warn_mode : bool;
  force : bool;
  device_name : option string
}.

(** What the program prints. *)
Inductive message : Type :=
| Zone_lt_FIRSTZONE (name : list Z)
| Zone_ge_ZONES (name : list Z)
| Read_error_seek (name : list Z)
| Read_error_bad_block (name : list Z)
| Write_request_ignored
| Write_error_bad_block (name : list Z)
| Firstzone_warning
| Inode_marked_unused (nr : Z) (name : list Z)
| File_has_mode (name : list Z) (mode : Z)
| Inode_count_too_big
| Block_used_before (name : list Z)
| Block_not_in_use (blk : Z) (name : list Z)
| Bad_inode_number (name : list Z)
| Dot_not_first (name : list Z)
| Dotdot_not_second (name : list Z)
| Dir_size_lt_32 (name : list Z)
| Mode_not_cleared (i : Z)
| Inode_not_used_marked (i : Z)
| Inode_used_unmarked (i : Z)
| Nlinks_mismatch (i : Z)
| Zone_marked_unused_by_files (i : Z)
| Zone_in_use_counted (i count : Z)
| Zone_not_in_use_counted (i count : Z)
| Listing (ino : Z) (name : list Z)
| Is_clean
| Forcing_check
| Is_dirty
| Super_info
| Statistics
| Changed_banner
| Version_banner
| Fatal_error
| Usage_banner.

(** What a [write] on the device carries. *)
Inductive written : Type :=
| W_block (nr : Z) (data : block)
| W_super (sb : minix_super_block)
| W_inode_map (m : list Z)
| W_zone_map (m : list Z)
| W_inodes (t : list minix_inode).

Inductive event : Type :=
| Printed (m : message)
| Asked (question : string) (def answer : bool)
| Write (w : written).

(** The global variables. *)
Record globals : Type := {
  opts : options;
  tty : bool;
  changed : bool;
  errors_uncorrected : bool;
  dirsize : Z;
  namelen : Z;
  version2 : bool;
  name_depth : Z;
  name_list : list (list Z);
  Super : minix_super_block;
  inode_map : list Z;
  zone_map : list Z;
  Inode : list minix_inode;
  inode_count : list Z;
  zone_count : list Z;
  IN : device;
  stdin : list Z;
  out : list event
}.

Definition set_changed (b : bool) (g : globals) : globals :=
  {| opts := opts g; tty := tty g; changed := b;
     errors_uncorrected := errors_uncorrected g; dirsize := dirsize g;
     namelen := namelen g; version2 := version2 g; name_depth := name_depth g;
     name_list := name_list g; Super := Super g; inode_map := inode_map g;
     zone_map := zone_map g; Inode := Inode g; inode_count := inode_count g;
     zone_count := zone_count g; IN := IN g; stdin := stdin g; out := out g |}.

Definition set_errors_uncorrected (b : bool) (g : globals) : globals :=
  {| opts := opts g; tty := tty g; changed := changed g;
     errors_uncorrected := b; dirsize := dirsize g;
     namelen := namelen g; version2 := version2 g; name_depth := name_depth g;
     name_list := name_list g; Super := Super g; inode_map := inode_map g;
     zone_map := zone_map g; Inode := Inode g; inode_count := inode_count g;
     zone_count := zone_count g; IN := IN g; stdin := stdin g; out := out g |}.

Definition set_dir (size len : Z) (v2 : bool) (g : globals) : globals :=
  {| opts := opts g; tty := tty g; changed := changed g;
     errors_uncorrected := errors_uncorrected g; dirsize := size;
     namelen := len; version2 := v2; name_depth := name_depth g;
     name_list := name_list g; Super := Super g; inode_map := inode_map g;
     zone_map := zone_map g; Inode := Inode g; inode_count := inode_count g;
     zone_count := zone_count g; IN := IN g; stdin := stdin g; out := out g |}.

Definition set_name_depth (d : Z) (g : globals) : globals :=
  {| opts := opts g; tty := tty g; changed := changed g;
     errors_uncorrected := errors_uncorrected g; dirsize := dirsize g;
     namelen := namelen g; version2 := version2 g; name_depth := d;
     name_list := name_list g; Super := Super g; inode_map := inode_map g;
     zone_map := zone_map g; Inode := Inode g; inode_count := inode_count g;
     zone_count := zone_count g; IN := IN g; stdin := stdin g; out := out g |}.

Definition set_name_list (l : list (list Z)) (g : globals) : globals :=
  {| opts := opts g; tty := tty g; changed := changed g;
     errors_uncorrected := errors_uncorrected g; dirsize := dirsize g;
     namelen := namelen g; version2 := version2 g; name_depth := name_depth g;
     name_list := l; Super := Super g; inode_map := inode_map g;
     zone_map := zone_map g; Inode := Inode g; inode_count := inode_count g;
     zone_count := zone_count g; IN := IN g; stdin := stdin g; out := out g |}.

Definition set_Super (sb : minix_super_block) (g : globals) : globals :=
  {| opts := opts g; tty := tty g; changed := changed g;
     errors_uncorrected := errors_uncorrected g; dirsize := dirsize g;
     namelen := namelen g; version2 := version2 g; name_depth := name_depth g;
     name_list := name_list g; Super := sb; inode_map := inode_map g;
     zone_map := zone_map g; Inode := Inode g; inode_count := inode_count g;
     zone_count := zone_count g; IN := IN g; stdin := stdin g; out := out g |}.

Definition set_inode_map (m : list Z) (g : globals) : globals :=
  {| opts := opts g; tty := tty g; changed := changed g;
     errors_uncorrected := errors_uncorrected g; dirsize := dirsize g;
     namelen := namelen g; version2 := version2 g; name_depth := name_depth g;
     name_list := name_list g; Super := Super g; inode_map := m;
     zone_map := zone_map g; Inode := Inode g; inode_count := inode_count g;
     zone_count := zone_count g; IN := IN g; stdin := stdin g; out := out g |}.

Definition set_zone_map (m : list Z) (g : globals) : globals :=
  {| opts := opts g; tty := tty g; changed := changed g;
     errors_uncorrected := errors_uncorrected g; dirsize := dirsize g;
     namelen := namelen g; version2 := version2 g; name_depth := name_depth g;
     name_list := name_list g; Super := Super g; inode_map := inode_map g;
     zone_map := m; Inode := Inode g; inode_count := inode_count g;
     zone_count := zone_count g; IN := IN g; stdin := stdin g; out := out g |}.

Definition set_Inode (t : list minix_inode) (g : globals) : globals :=
  {| opts := opts g; tty := tty g; changed := changed g;
     errors_uncorrected := errors_uncorrected g; dirsize := dirsize g;
     namelen := namelen g; version2 := version2 g; name_depth := name_depth g;
     name_list := name_list g; Super := Super g; inode_map := inode_map g;
     zone_map := zone_map g; Inode := t; inode_count := inode_count g;
     zone_count := zone_count g; IN := IN g; stdin := stdin g; out := out g |}.

Definition set_inode_count (c : list Z) (g : globals) : globals :=
  {| opts := opts g; tty := tty g; changed := changed g;
     errors_uncorrected := errors_uncorrected g; dirsize := dirsize g;
     namelen := namelen g; version2 := version2 g; name_depth := name_depth g;
     name_list := name_list g; Super := Super g; inode_map := inode_map g;
     zone_map := zone_map g; Inode := Inode g; inode_count := c;
     zone_count := zone_count g; IN := IN g; stdin := stdin g; out := out g |}.

Definition set_zone_count (c : list Z) (g : globals) : globals :=
  {| opts := opts g; tty := tty g; changed := changed g;
     errors_uncorrected := errors_uncorrected g; dirsize := dirsize g;
     namelen := namelen g; version2 := version2 g; name_depth := name_depth g;
     name_list := name_list g; Super := Super g; inode_map := inode_map g;
     zone_map := zone_map g; Inode := Inode g; inode_count := inode_count g;
     zone_count := c; IN := IN g; stdin := stdin g; out := out g |}.

Definition set_IN (d : device) (g : globals) : globals :=
  {| opts := opts g; tty := tty g; changed := changed g;
     errors_uncorrected := errors_uncorrected g; dirsize := dirsize g;
     namelen := namelen g; version2 := version2 g; name_depth := name_depth g;
     name_list := name_list g; Super := Super g; inode_map := inode_map g;
     zone_map := zone_map g; Inode := Inode g; inode_count := inode_count g;
     zone_count := zone_count g; IN := d; stdin := stdin g; out := out g |}.

Definition set_stdin (l : list Z) (g : globals) : globals :=
  {| opts := opts g; tty := tty g; changed := changed g;
     errors_uncorrected := errors_uncorrected g; dirsize := dirsize g;
     namelen := namelen g; version2 := version2 g; name_depth := name_depth g;
     name_list := name_list g; Super := Super g; inode_map := inode_map g;
     zone_map := zone_map g; Inode := Inode g; inode_count := inode_count g;
     zone_count := zone_count g; IN := IN g; stdin := l; out := out g |}.

Definition set_opts (o : options) (g : globals) : globals :=
  {| opts := o; tty := tty g; changed := changed g;
     errors_uncorrected := errors_uncorrected g; dirsize := dirsize g;
     namelen := namelen g; version2 := version2 g; name_depth := name_depth g;
     name_list := name_list g; Super := Super g; inode_map := inode_map g;
     zone_map := zone_map g; Inode := Inode g; inode_count := inode_count g;
     zone_count := zone_count g; IN := IN g; stdin := stdin g; out := out g |}.

Definition log (e : event) (g : globals) : globals :=
  {| opts := opts g; tty := tty g; changed := changed g;
     errors_uncorrected := errors_uncorrected g; dirsize := dirsize g;
     namelen := namelen g; version2 := version2 g; name_depth := name_depth g;
     name_list := name_list g; Super := Super g; inode_map := inode_map g;
     zone_map := zone_map g; Inode := Inode g; inode_count := inode_count g;
     zone_count := zone_count g; IN := IN g; stdin := stdin g;
     out := out g ++ [e] |}.

(** ** The monad *)

(** The arrays of the program, to name the one an access fell out of. *)
Inductive array_id : Type :=
| A_name_list | A_name_row | A_inode_map | A_zone_map | A_Inode | A_i_zone
| A_inode_count | A_zone_count | A_ind | A_blk.

(** Why a run stopped before its function returned. *)
Inductive stop : Type :=
| Stop_leave (status : Z)
| Out_of_bounds (a : array_id) (i : Z)
| Signed_overflow
| Division_by_zero
| Stop_timeout.

Inductive result (A : Type) : Type :=
| Ok (a : A) (g : globals)
| Stop (why : stop) (g : globals).
Arguments Ok {A} a g.
Arguments Stop {A} why g.

Definition M (A : Type) : Type := globals -> result A.

Definition ret {A : Type} (a : A) : M A := fun g => Ok a g.

Definition bind {A B : Type} (m : M A) (k : A -> M B) : M B :=
  fun g =>
    match m g with
    | Ok a g' => k a g'
    | Stop w g' => Stop w g'
    end.

Declare Scope fsck_scope.
Delimit Scope fsck_scope with fsck.
Notation "x <- m ;; k" := (bind m (fun x => k))
  (at level 100, m at next level, right associativity) : fsck_scope.
Notation "' p <- m ;; k" := (bind m (fun x => match x with p => k end))
  (at level 100, p pattern, m at next level, right associativity) : fsck_scope.
Notation "m ;; k" := (bind m (fun _ => k))
  (at level 100, right associativity) : fsck_scope.
Local Open Scope fsck_scope.

Definition gets {A : Type} (f : globals -> A) : M A := fun g => Ok (f g) g.
Definition modify (f : globals -> globals) : M unit := fun g => Ok tt (f g).
Definition stop_with {A : Type} (w : stop) : M A := fun g => Stop w g.
Definition leave {A : Type} (status : Z) : M A := stop_with (Stop_leave status).
Definition printf (m : message) : M unit := modify (log (Printed m)).
Definition die {A : Type} : M A := bind (printf Fatal_error) (fun _ => leave 8).
Definition usage {A : Type} : M A := bind (printf Usage_banner) (fun _ => leave 16).
Definition when (b : bool) (m : M unit) : M unit := if b then m else ret tt.

(** [a[i]]: undefined outside the array. *)
Definition index {A : Type} (a : array_id) (l : list A) (i : Z) : M A :=
  match zget l i with
  | Some x => ret x
  | None => stop_with (Out_of_bounds a i)
  end.

(** [a[i] = x]. *)
Definition assign {A : Type} (a : array_id) (l : list A) (i : Z) (x : A)
  : M (list A) :=
  match zset l i x with
  | Some l' => ret l'
  | None => stop_with (Out_of_bounds a i)
  end.

(** The final globals of a run, however it ended. *)
Definition final {A : Type} (r : result A) : globals :=
  match r with
  | Ok _ g | Stop _ g => g
  end.

(** A counted loop, [for (i = i0; ...; i++)], threading the locals [acc]. *)
Fixpoint iterate {S : Type} (n : nat) (i : Z) (body : Z -> S -> M S) (acc : S)
  : M S :=
  match n with
  | O => ret acc
  | Datatypes.S n' => acc' <- body i acc ;; iterate n' (i + 1) body acc'
  end.

(** A pointer to an [int] flag: either the global [changed] or a local. *)
Inductive intref : Type :=
| Ref_changed
| Ref_local (b : bool).

(** [*r = 1]. *)
Definition assign_one (r : intref) : M intref :=
  match r with
  | Ref_changed => modify (set_changed true) ;; ret Ref_changed
  | Ref_local _ => ret (Ref_local true)
  end.

(** [*r]. *)
Definition deref (r : intref) : M bool :=
  match r with
  | Ref_changed => gets changed
  | Ref_local b => ret b
  end.

(** ** The macros over the super block *)

(** [unsigned long] arithmetic.  The width is the host's; 64 bits here (with
    32 bits the comparisons of [read_superblock] come out the same, since a
    wrapped difference exceeds any product of two 16-bit fields by 8192). *)
Definition ulong (x : Z) : Z := wrap 64 x.

Definition INODES (g : globals) : Z := s_ninodes (Super g).
Definition ZONES (g : globals) : Z :=
  if version2 g then s_zones (Super g) else s_nzones (Super g).
Definition IMAPS (g : globals) : Z := s_imap_blocks (Super g).
Definition ZMAPS (g : globals) : Z := s_zmap_blocks (Super g).
Definition FIRSTZONE (g : globals) : Z := s_firstdatazone (Super g).
Definition ZONESIZE (g : globals) : Z := s_log_zone_size (Super g).
Definition MAGIC (g : globals) : Z := s_magic (Super g).

Definition UPPER (size n : Z) : Z := (size + (n - 1)) / n.
Definition INODE_BLOCKS (g : globals) : Z :=
  UPPER (INODES g)
    (if version2 g then MINIX2_INODES_PER_BLOCK else MINIX_INODES_PER_BLOCK).
Definition NORM_FIRSTZONE (g : globals) : Z :=
  2 + IMAPS g + ZMAPS g + INODE_BLOCKS g.

(** ** Bit operations *)

(** Modelled from the spec: bitops.h is not part of the sources at hand; the
    specification gives bit, setbit and clrbit on a byte array addressed by
    bit index, least significant bit first within each byte. *)
Definition bit (a : array_id) (buf : list Z) (i : Z) : M bool :=
  b <- index a buf (i / 8) ;;
  ret (Z.testbit b (i mod 8)).

Definition setbit (a : array_id) (buf : list Z) (i : Z) : M (list Z) :=
  b <- index a buf (i / 8) ;;
  assign a buf (i / 8) (Z.lor b (Z.shiftl 1 (i mod 8))).

Definition clrbit (a : array_id) (buf : list Z) (i : Z) : M (list Z) :=
  b <- index a buf (i / 8) ;;
  assign a buf (i / 8) (Z.ldiff b (Z.shiftl 1 (i mod 8))).

Definition inode_in_use (x : Z) : M bool :=
  m <- gets inode_map ;; bit A_inode_map m x.

Definition zone_in_use (x : Z) : M bool :=
  m <- gets zone_map ;; fz <- gets FIRSTZONE ;;
  bit A_zone_map m (ulong (x - fz + 1)).

Definition mark_inode (x : Z) : M unit :=
  m <- gets inode_map ;; m' <- setbit A_inode_map m x ;;
  modify (set_inode_map m') ;; modify (set_changed true).

Definition unmark_inode (x : Z) : M unit :=
  m <- gets inode_map ;; m' <- clrbit A_inode_map m x ;;
  modify (set_inode_map m') ;; modify (set_changed true).

Definition mark_zone (x : Z) : M unit :=
  m <- gets zone_map ;; fz <- gets FIRSTZONE ;;
  m' <- setbit A_zone_map m (ulong (x - fz + 1)) ;;
  modify (set_zone_map m') ;; modify (set_changed true).

Definition unmark_zone (x : Z) : M unit :=
  m <- gets zone_map ;; fz <- gets FIRSTZONE ;;
  m' <- clrbit A_zone_map m (ulong (x - fz + 1)) ;;
  modify (set_zone_map m') ;; modify (set_changed true).

(** ** get_current_name *)

(** The inner loop, [while (ct-- && *p) *q++ = *p++]: [p] is what is left
    of the row of [name_list]. *)
Fixpoint copy_name (ct : nat) (p : list Z) : option (list Z) :=
  match ct with
  | O => Some []
  | S ct' =>
      match p with
      | [] => None
      | c :: p' =>
          if c =? 0 then Some []
          else option_map (cons c) (copy_name ct' p')
      end
  end.

(** The outer loop, [while (i < name_depth)], with [todo = name_depth - i]
    rounds to go; the result is the array and index of a faulty access, or
    the text put into [current_name]. *)
Fixpoint render_names (names : list (list Z)) (len : nat) (i : Z) (todo : nat)
  : (array_id * Z) + list Z :=
  match todo with
  | O => inr []
  | S todo' =>
      match zget names i with
      | None => inl (A_name_list, i)
      | Some p =>
          match copy_name len p with
          | None => inl (A_name_row, i)
          | Some c =>
              match render_names names len (i + 1) todo' with
              | inl e => inl e
              | inr rest => inr (47 :: c ++ rest)
              end
          end
      end
  end.

(** [current_name] grows without a bound check of its own; its size,
    [MAX_DEPTH*(NAME_MAX+1)+1], is enough for 50 rows and is not modelled. *)
Definition get_current_name : M (list Z) :=
  depth <- gets name_depth ;;
  names <- gets name_list ;;
  len <- gets namelen ;;
  if depth <=? 0 then ret [47]
  else
    match render_names names (Z.to_nat len) 0 (Z.to_nat depth) with
    | inl (a, i) => stop_with (Out_of_bounds a i)
    | inr s => ret s
    end.

(** ** ask *)

Definition toupper (c : Z) : Z :=
  if (97 <=? c) && (c <=? 122) then c - 32 else c.

(** The [for (;;)] of [ask]: the answer and the input that is left.  End of
    input is the empty list, and stays so. *)
Fixpoint ask_loop (input : list Z) (def : bool) : bool * list Z :=
  match input with
  | [] => (def, [])
  | c :: rest =>
      let c := toupper c in
      if c =? 89 then (true, rest)
      else if c =? 78 then (false, rest)
      else if (c =? 32) || (c =? 10) then (def, rest)
      else ask_loop rest def
  end.

Definition ask (question : string) (def : bool) : M bool :=
  o <- gets opts ;;
  if negb (repair o) then
    modify (set_errors_uncorrected true) ;;
    modify (log (Asked question def false)) ;;
    ret false
  else if automatic o then
    when (negb def) (modify (set_errors_uncorrected true)) ;;
    modify (log (Asked question def def)) ;;
    ret def
  else
    input <- gets stdin ;;
    let (answer, rest) := ask_loop input def in
    modify (set_stdin rest) ;;
    when (negb answer) (modify (set_errors_uncorrected true)) ;;
    modify (log (Asked question def answer)) ;;
    ret answer.

(** ** check_zone_nr, check_zone_nr2 *)

(** The two versions of the file system: 16-bit and 32-bit zone numbers. *)
Inductive variant : Type := V1 | V2.

(** Number of zone numbers in a block: [BLOCK_SIZE>>1] and [BLOCK_SIZE>>2]. *)
Definition entries (v : variant) : Z :=
  match v with V1 => Z.shiftr BLOCK_SIZE 1 | V2 => Z.shiftr BLOCK_SIZE 2 end.

(** Number of zone slots of an inode. *)
Definition slots (v : variant) : Z :=
  match v with V1 => 9 | V2 => 10 end.

(** [return *nr] from a function returning [int]. *)
Definition as_int (v : variant) (nr : Z) : Z :=
  match v with V1 => nr | V2 => to_int nr end.

(** [check_zone_nr(nr, corrected)] and [check_zone_nr2]: the result is the
    returned zone, the value left in [*nr], and [corrected]. *)
Definition check_zone_nr_ (v : variant) (nr : Z) (corrected : intref)
  : M (Z * Z * intref) :=
  if nr =? 0 then ret (0, nr, corrected)
  else
    fz <- gets FIRSTZONE ;;
    z <- gets ZONES ;;
    bad <- (if nr <? fz then
              name <- get_current_name ;;
              printf (Zone_lt_FIRSTZONE name) ;; ret true
            else if nr >=? z then
              name <- get_current_name ;;
              printf (Zone_ge_ZONES name) ;; ret true
            else ret false) ;;
    if negb bad then ret (as_int v nr, nr, corrected)
    else
      a <- ask "Remove block" true ;;
      if a then
        corrected' <- assign_one corrected ;;
        ret (0, 0, corrected')
      else ret (0, nr, corrected).

Definition check_zone_nr := check_zone_nr_ V1.
Definition check_zone_nr2 := check_zone_nr_ V2.

(** ** read_block, write_block *)

Definition dev_with_block (d : device) (nr : Z) (b : block) : device :=
  {| dev_seek_ok := dev_seek_ok d; dev_write_ok := dev_write_ok d;
     dev_super := dev_super d; dev_inode_map := dev_inode_map d;
     dev_zone_map := dev_zone_map d; dev_inodes := dev_inodes d;
     dev_block := fun n => if n =? nr then Some b else dev_block d n |}.

(** [read_block(nr, addr)]: the result is what is left in [addr].  The
    position is [BLOCK_SIZE*nr] in [unsigned int]; a read of fewer than
    [BLOCK_SIZE] bytes is a bad block. *)
Definition read_block (nr : Z) : M block :=
  let nr := u32 nr in
  if nr =? 0 then ret zero_block
  else
    let pos := u32 (BLOCK_SIZE * nr) in
    d <- gets IN ;;
    if negb (dev_seek_ok d pos) then
      name <- get_current_name ;;
      printf (Read_error_seek name) ;;
      modify (set_errors_uncorrected true) ;;
      ret zero_block
    else
      match dev_block d (pos / BLOCK_SIZE) with
      | Some b =>
          if Z.of_nat (List.length b) =? BLOCK_SIZE then ret (map u8 b)
          else
            name <- get_current_name ;;
            printf (Read_error_bad_block name) ;;
            modify (set_errors_uncorrected true) ;;
            ret zero_block
      | None =>
          name <- get_current_name ;;
          printf (Read_error_bad_block name) ;;
          modify (set_errors_uncorrected true) ;;
          ret zero_block
      end.

Definition write_block (nr : Z) (addr : block) : M unit :=
  let nr := u32 nr in
  if nr =? 0 then ret tt
  else
    fz <- gets FIRSTZONE ;;
    z <- gets ZONES ;;
    if (nr <? fz) || (nr >=? z) then
      printf Write_request_ignored ;;
      modify (set_errors_uncorrected true)
    else
      let pos := u32 (BLOCK_SIZE * nr) in
      d <- gets IN ;;
      if negb (dev_seek_ok d pos) then die
      else
        modify (log (Write (W_block (pos / BLOCK_SIZE) addr))) ;;
        if dev_write_ok d pos then
          modify (set_IN (dev_with_block d (pos / BLOCK_SIZE) addr))
        else
          name <- get_current_name ;;
          printf (Write_error_bad_block name) ;;
          modify (set_errors_uncorrected true).

(** ** Zone numbers in blocks and inodes *)

Fixpoint le_value (bytes : list Z) : Z :=
  match bytes with
  | [] => 0
  | b :: t => b + 256 * le_value t
  end.

Fixpoint le_bytes (n : nat) (x : Z) : list Z :=
  match n with
  | O => []
  | S n' => x mod 256 :: le_bytes n' (x / 256)
  end.

(** An [n]-byte little-endian integer at byte offset [off] of a buffer. *)
Definition load (buf : list Z) (off n : Z) : M Z :=
  if (off <? 0) || (Z.of_nat (List.length buf) <? off + n) then
    stop_with (Out_of_bounds A_blk off)
  else ret (le_value (firstn (Z.to_nat n) (skipn (Z.to_nat off) buf))).

Definition store (buf : list Z) (off n x : Z) : M (list Z) :=
  if (off <? 0) || (Z.of_nat (List.length buf) <? off + n) then
    stop_with (Out_of_bounds A_blk off)
  else ret (firstn (Z.to_nat off) buf ++ le_bytes (Z.to_nat n) x
            ++ skipn (Z.to_nat (off + n)) buf).

Definition width (v : variant) : Z :=
  match v with V1 => 2 | V2 => 4 end.

(** [ind[i]] for [unsigned short ind[BLOCK_SIZE>>1]] or
    [unsigned int ind[BLOCK_SIZE>>2]] laid over a block. *)
Definition load_entry (v : variant) (buf : block) (i : Z) : M Z :=
  if (i <? 0) || (entries v <=? i) then stop_with (Out_of_bounds A_ind i)
  else load buf (width v * i) (width v).

Definition store_entry (v : variant) (buf : block) (i x : Z) : M block :=
  if (i <? 0) || (entries v <=? i) then stop_with (Out_of_bounds A_ind i)
  else store buf (width v * i) (width v) x.

(** [Inode[ino]] and [Inode2[ino]]: the table starts at inode 1. *)
Definition get_Inode (ino : Z) : M minix_inode :=
  t <- gets Inode ;; index A_Inode t (ino - 1).

Definition put_Inode (ino : Z) (x : minix_inode) : M unit :=
  t <- gets Inode ;;
  t' <- assign A_Inode t (ino - 1) x ;;
  modify (set_Inode t').

Definition with_i_zone (x : minix_inode) (z : list Z) : minix_inode :=
  {| i_mode := i_mode x; i_nlinks := i_nlinks x; i_size := i_size x;
     i_zone := z |}.

Definition with_i_mode (x : minix_inode) (m : Z) : minix_inode :=
  {| i_mode := m; i_nlinks := i_nlinks x; i_size := i_size x;
     i_zone := i_zone x |}.

Definition with_i_nlinks (x : minix_inode) (n : Z) : minix_inode :=
  {| i_mode := i_mode x; i_nlinks := n; i_size := i_size x;
     i_zone := i_zone x |}.

(** [inode->i_zone[k]]. *)
Definition get_slot (v : variant) (ino k : Z) : M Z :=
  x <- get_Inode ino ;;
  if (k <? 0) || (slots v <=? k) then stop_with (Out_of_bounds A_i_zone k)
  else index A_i_zone (i_zone x) k.

Definition put_slot (v : variant) (ino k nr : Z) : M unit :=
  x <- get_Inode ino ;;
  if (k <? 0) || (slots v <=? k) then stop_with (Out_of_bounds A_i_zone k)
  else
    z <- assign A_i_zone (i_zone x) k nr ;;
    put_Inode ino (with_i_zone x z).

(** ** map_block, map_block2 *)

(** [check_zone_nr(inode->i_zone + k, &changed)]. *)
Definition check_slot (v : variant) (ino k : Z) : M Z :=
  nr <- get_slot v ino k ;;
  '(result, nr', _) <- check_zone_nr_ v nr Ref_changed ;;
  put_slot v ino k nr' ;;
  ret result.

(** One level of indirection:
    [read_block(block, ind); blk_chg = 0;
     result = check_zone_nr(ind + i, &blk_chg);
     if (blk_chg) write_block(block, ind);]. *)
Definition check_entry (v : variant) (blk i : Z) : M Z :=
  ind <- read_block blk ;;
  nr <- load_entry v ind i ;;
  '(result, nr', blk_chg) <- check_zone_nr_ v nr (Ref_local false) ;;
  ind' <- store_entry v ind i nr' ;;
  chg <- deref blk_chg ;;
  when chg (write_block blk ind') ;;
  ret result.

(** The branch a logical block number takes, with the indices it uses. *)
Inductive route : Type :=
| Direct (n : Z)
| Single (i : Z)
| Double (i j : Z)
| Triple (i j k : Z).

(** The inode slot a route starts from. *)
Definition route_slot (r : route) : Z :=
  match r with
  | Direct n => n
  | Single _ => 7
  | Double _ _ => 8
  | Triple _ _ _ => 9
  end.

(** The branches of [map_block] (lines 451-476). *)
Definition map_block_route (blknr : Z) : route :=
  if blknr <? 7 then Direct blknr
  else
    let blknr := u32 (blknr - 7) in
    if blknr <? 512 then Single blknr
    else
      let blknr := u32 (blknr - 512) in
      Double (blknr / 512) (blknr mod 512).

(** The branches of [map_block2] (lines 486-533). *)
Definition map_block2_route (blknr : Z) : route :=
  if blknr <? 7 then Direct blknr
  else
    let blknr := u32 (blknr - 7) in
    if blknr <? 256 then Single blknr
    else
      let blknr := u32 (blknr - 256) in
      if blknr >=? 256 * 256 then Double (blknr / 256) (blknr mod 256)
      else
        let blknr := u32 (blknr - 256 * 256) in
        Triple (blknr / (256 * 256)) ((blknr / 256) mod 256) (blknr mod 256).

(** The body of each branch. *)
Definition follow (v : variant) (ino : Z) (r : route) : M Z :=
  match r with
  | Direct n => check_slot v ino n
  | Single i =>
      blk <- check_slot v ino 7 ;;
      check_entry v blk i
  | Double i j =>
      blk <- check_slot v ino 8 ;;
      blk <- check_entry v blk i ;;
      check_entry v blk j
  | Triple i j k =>
      blk <- check_slot v ino 9 ;;
      blk <- check_entry v blk i ;;
      blk <- check_entry v blk j ;;
      check_entry v blk k
  end.


Definition map_block2 (ino blknr : Z) : M Z :=
  follow V2 ino (map_block2_route blknr).

(** ** write_super_block, write_tables *)

Definition with_s_state (sb : minix_super_block) (st : Z)
  : minix_super_block :=
  {| s_ninodes := s_ninodes sb; s_nzones := s_nzones sb;
     s_imap_blocks := s_imap_blocks sb; s_zmap_blocks := s_zmap_blocks sb;
     s_firstdatazone := s_firstdatazone sb;
     s_log_zone_size := s_log_zone_size sb; s_max_size := s_max_size sb;
     s_magic := s_magic sb; s_state := st; s_zones := s_zones sb |}.

Definition dev_with_super (d : device) (sb : minix_super_block) : device :=
  {| dev_seek_ok := dev_seek_ok d; dev_write_ok := dev_write_ok d;
     dev_super := Some sb; dev_inode_map := dev_inode_map d;
     dev_zone_map := dev_zone_map d; dev_inodes := dev_inodes d;
     dev_block := dev_block d |}.

Definition dev_with_inode_map (d : device) (m : list Z) : device :=
  {| dev_seek_ok := dev_seek_ok d; dev_write_ok := dev_write_ok d;
     dev_super := dev_super d; dev_inode_map := Some m;
     dev_zone_map := dev_zone_map d; dev_inodes := dev_inodes d;
     dev_block := dev_block d |}.

Definition dev_with_zone_map (d : device) (m : list Z) : device :=
  {| dev_seek_ok := dev_seek_ok d; dev_write_ok := dev_write_ok d;
     dev_super := dev_super d; dev_inode_map := dev_inode_map d;
     dev_zone_map := Some m; dev_inodes := dev_inodes d;
     dev_block := dev_block d |}.

Definition dev_with_inodes (d : device) (t : list minix_inode) : device :=
  {| dev_seek_ok := dev_seek_ok d; dev_write_ok := dev_write_ok d;
     dev_super := dev_super d; dev_inode_map := dev_inode_map d;
     dev_zone_map := dev_zone_map d; dev_inodes := Some t;
     dev_block := dev_block d |}.

Definition write_super_block : M unit :=
  sb <- gets Super ;;
  e <- gets errors_uncorrected ;;
  let st := u16 (Z.lor (s_state sb) MINIX_VALID_FS) in
  let st := if e then u16 (Z.lor st MINIX_ERROR_FS)
            else u16 (Z.land st (Z.lnot MINIX_ERROR_FS)) in
  modify (set_Super (with_s_state sb st)) ;;
  d <- gets IN ;;
  if negb (dev_seek_ok d BLOCK_SIZE) then die
  else
    sb' <- gets Super ;;
    modify (log (Write (W_super sb'))) ;;
    if dev_write_ok d BLOCK_SIZE then modify (set_IN (dev_with_super d sb'))
    else die.

(** One of the three [write]s of [write_tables], at the position the
    previous one left. *)
Definition write_table (pos : Z) (w : written) (upd : device -> device)
  : M unit :=
  modify (log (Write w)) ;;
  d <- gets IN ;;
  if dev_write_ok d pos then modify (set_IN (upd d)) else die.

Definition write_tables : M unit :=
  write_super_block ;;
  imaps <- gets IMAPS ;;
  zmaps <- gets ZMAPS ;;
  im <- gets inode_map ;;
  write_table (2 * BLOCK_SIZE) (W_inode_map im)
    (fun d => dev_with_inode_map d im) ;;
  zm <- gets zone_map ;;
  write_table ((2 + imaps) * BLOCK_SIZE) (W_zone_map zm)
    (fun d => dev_with_zone_map d zm) ;;
  t <- gets Inode ;;
  write_table ((2 + imaps + zmaps) * BLOCK_SIZE) (W_inodes t)
    (fun d => dev_with_inodes d t).

(** ** Strings in buffers *)

(** [strcmp(mem, lit) == 0] for a literal [lit] (given without its NUL) and
    a string that starts at [mem] and runs to the end of its buffer. *)
Fixpoint strcmp_eq (mem lit : list Z) : bool :=
  match lit, mem with
  | [], c :: _ => c =? 0
  | l :: lit', c :: mem' => (c =? l) && strcmp_eq mem' lit'
  | _, [] => false
  end.

(** The [n] bytes [strncpy(dst, src, n)] writes: the string, then NULs;
    [None] when the string runs off the end of its buffer. *)
Fixpoint strncpy_bytes (n : nat) (src : list Z) : option (list Z) :=
  match n with
  | O => Some []
  | S n' =>
      match src with
      | [] => None
      | c :: src' =>
          if c =? 0 then Some (repeat 0 n)
          else option_map (cons c) (strncpy_bytes n' src')
      end
  end.

(** [strncpy(name_list[d], name, namelen)] on a row of [NAME_MAX+1] bytes. *)
Definition strncpy_name (d : Z) (name : list Z) : M unit :=
  names <- gets name_list ;;
  len <- gets namelen ;;
  row <- index A_name_list names d ;;
  if Z.of_nat (List.length row) <? len then
    stop_with (Out_of_bounds A_name_row (Z.of_nat (List.length row)))
  else
    match strncpy_bytes (Z.to_nat len) name with
    | None => stop_with (Out_of_bounds A_blk BLOCK_SIZE)
    | Some bytes =>
        names' <- assign A_name_list names d
                    (bytes ++ skipn (Z.to_nat len) row) ;;
        modify (set_name_list names')
    end.

(** ** get_dirsize, read_superblock, read_tables *)

(** The [for (size = 16; size < BLOCK_SIZE; size <<= 1)] of [get_dirsize]:
    the first [size] with [".."] at [blk + size + 2], if any. *)
Fixpoint get_dirsize_loop (fuel : nat) (blk : block) (size : Z) : option Z :=
  match fuel with
  | O => None
  | S fuel' =>
      if size <? BLOCK_SIZE then
        if strcmp_eq (skipn (Z.to_nat (size + 2)) blk) [46; 46] then Some size
        else get_dirsize_loop fuel' blk (Z.shiftl size 1)
      else None
  end.

(** Lines 575-579: the first block of the root directory, as read. *)
Definition root_dir_block : M block :=
  v2 <- gets version2 ;;
  zone0 <- get_slot (if v2 then V2 else V1) ROOT_INO 0 ;;
  read_block (as_int (if v2 then V2 else V1) zone0).

Definition get_dirsize : M unit :=
  blk <- root_dir_block ;;
  v2 <- gets version2 ;;
  match get_dirsize_loop 7 blk 16 with
  | Some size => modify (set_dir size (size - 2) v2)
  | None => ret tt
  end.

(** The super block as its C fields hold it. *)
Definition norm_super (sb : minix_super_block) : minix_super_block :=
  {| s_ninodes := u16 (s_ninodes sb); s_nzones := u16 (s_nzones sb);
     s_imap_blocks := u16 (s_imap_blocks sb);
     s_zmap_blocks := u16 (s_zmap_blocks sb);
     s_firstdatazone := u16 (s_firstdatazone sb);
     s_log_zone_size := u16 (s_log_zone_size sb);
     s_max_size := u32 (s_max_size sb); s_magic := u16 (s_magic sb);
     s_state := u16 (s_state sb); s_zones := u32 (s_zones sb) |}.

(** The three size checks that end [read_superblock] (lines 619-624). *)
Definition check_sizes : M unit :=
  zs <- gets ZONESIZE ;;
  (if negb (zs =? 0) || negb (BLOCK_SIZE =? 1024) then die else ret tt) ;;
  imaps <- gets IMAPS ;;
  inodes <- gets INODES ;;
  (if imaps * BLOCK_SIZE * 8 <? inodes + 1 then die else ret tt) ;;
  zmaps <- gets ZMAPS ;;
  zones <- gets ZONES ;;
  fz <- gets FIRSTZONE ;;
  if zmaps * BLOCK_SIZE * 8 <? ulong (zones - fz + 1) then die
  else ret tt.

Definition read_superblock : M unit :=
  d <- gets IN ;;
  if negb (dev_seek_ok d BLOCK_SIZE) then die
  else
    match dev_super d with
    | None => die
    | Some sb =>
        modify (set_Super (norm_super sb)) ;;
        magic <- gets MAGIC ;;
        (if magic =? MINIX_SUPER_MAGIC then modify (set_dir 16 14 false)
         else if magic =? MINIX_SUPER_MAGIC2 then modify (set_dir 32 30 false)
         else if magic =? MINIX2_SUPER_MAGIC then modify (set_dir 16 14 true)
         else if magic =? MINIX2_SUPER_MAGIC2 then modify (set_dir 32 30 true)
         else die) ;;
        check_sizes
    end.

(** An inode as its C fields hold it. *)
Definition norm_inode (v : variant) (x : minix_inode) : minix_inode :=
  {| i_mode := u16 (i_mode x);
     i_nlinks := match v with V1 => u8 (i_nlinks x) | V2 => u16 (i_nlinks x) end;
     i_size := u32 (i_size x);
     i_zone := map (match v with V1 => u16 | V2 => u32 end)
                 (firstn (Z.to_nat (slots v))
                    (i_zone x ++ repeat 0 (Z.to_nat (slots v)))) |}.

(** [malloc] is taken to succeed and to return zeroed memory ([check] and
    [check2] clear the counters before their first use). *)
Definition read_tables : M unit :=
  imaps <- gets IMAPS ;;
  zmaps <- gets ZMAPS ;;
  inodes <- gets INODES ;;
  zones <- gets ZONES ;;
  iblocks <- gets INODE_BLOCKS ;;
  v2 <- gets version2 ;;
  modify (set_inode_map (repeat 0 (Z.to_nat (imaps * BLOCK_SIZE)))) ;;
  modify (set_zone_map (repeat 0 (Z.to_nat (zmaps * BLOCK_SIZE)))) ;;
  modify (set_Inode []) ;;
  modify (set_inode_count (repeat 0 (Z.to_nat (inodes + 1)))) ;;
  modify (set_zone_count (repeat 0 (Z.to_nat zones))) ;;
  d <- gets IN ;;
  match dev_inode_map d with
  | None => die
  | Some im =>
      if negb (Z.of_nat (List.length im) =? imaps * BLOCK_SIZE) then die
      else
        modify (set_inode_map (map u8 im)) ;;
        match dev_zone_map d with
        | None => die
        | Some zm =>
            if negb (Z.of_nat (List.length zm) =? zmaps * BLOCK_SIZE) then die
            else
              modify (set_zone_map (map u8 zm)) ;;
              match dev_inodes d with
              | None => die
              | Some t =>
                  let per_block := if v2 then MINIX2_INODES_PER_BLOCK
                                   else MINIX_INODES_PER_BLOCK in
                  if negb (Z.of_nat (List.length t) =? iblocks * per_block)
                  then die
                  else
                    modify (set_Inode
                              (map (norm_inode (if v2 then V2 else V1)) t)) ;;
                    norm <- gets NORM_FIRSTZONE ;;
                    fz <- gets FIRSTZONE ;;
                    when (negb (norm =? fz))
                      (printf Firstzone_warning ;;
                       modify (set_errors_uncorrected true)) ;;
                    get_dirsize ;;
                    sh <- gets (fun g => show (opts g)) ;;
                    when sh (printf Super_info)
              end
        end
  end.

(** ** get_inode, get_inode2 *)

Definition known_mode (m : Z) : bool :=
  S_ISDIR m || S_ISREG m || S_ISCHR m || S_ISBLK m || S_ISLNK m
  || S_ISSOCK m || S_ISFIFO m.

(** [if (!++count[i]) { ...; count[i]--; }] on an [unsigned char]: the new
    value and whether the counter wrapped. *)
Definition incr_u8 (c : Z) : Z * bool :=
  let c1 := u8 (c + 1) in
  if c1 =? 0 then (u8 (c1 - 1), true) else (c1, false).

(** The result is whether the returned pointer is not [NULL]; the inode is
    [Inode[nr]].  The tallies of the final report are not modelled.  In
    [get_inode] the [else] that raises [errors_uncorrected] belongs to
    [if (repair)], in [get_inode2] to the [if (ask ...)] inside it. *)
Definition get_inode_ (v : variant) (nr : Z) : M bool :=
  inodes <- gets INODES ;;
  if (nr =? 0) || (nr >? inodes) then ret false
  else
    x <- get_Inode nr ;;
    ic <- gets inode_count ;;
    c <- index A_inode_count ic nr ;;
    (if c =? 0 then
       used <- inode_in_use nr ;;
       (if negb used then
          name <- get_current_name ;;
          printf (Inode_marked_unused nr name) ;;
          o <- gets opts ;;
          match v with
          | V1 =>
              if repair o then
                a <- ask "Mark in use" true ;;
                when a (mark_inode nr)
              else modify (set_errors_uncorrected true)
          | V2 =>
              if repair o then
                a <- ask "Mark in use" true ;;
                if a then mark_inode nr
                else modify (set_errors_uncorrected true)
              else ret tt
          end
        else ret tt) ;;
       if known_mode (i_mode x) then ret tt
       else
         name <- get_current_name ;;
         printf (File_has_mode name (i_mode x))
     else ret tt) ;;
    ic <- gets inode_count ;;
    c <- index A_inode_count ic nr ;;
    let (c', wrapped) := incr_u8 c in
    ic' <- assign A_inode_count ic nr c' ;;
    modify (set_inode_count ic') ;;
    when wrapped
      (printf Inode_count_too_big ;; modify (set_errors_uncorrected true)) ;;
    ret true.

Definition get_inode := get_inode_ V1.
Definition get_inode2 := get_inode_ V2.

Definition check_root_ (v : variant) : M unit :=
  x <- get_Inode ROOT_INO ;;
  if negb (S_ISDIR (i_mode x)) then die else ret tt.

Definition check_root := check_root_ V1.
Definition check_root2 := check_root_ V2.

(** ** add_zone and the indirect levels *)

(** [add_zone(znr, corrected)] and [add_zone2]: the result is the returned
    block, the value left in [*znr], and [corrected]. *)
Definition add_zone_ (v : variant) (znr : Z) (corrected : intref)
  : M (Z * Z * intref) :=
  '(blk, znr, corrected) <- check_zone_nr_ v znr corrected ;;
  if blk =? 0 then ret (0, znr, corrected)
  else
    zc <- gets zone_count ;;
    c <- index A_zone_count zc blk ;;
    '(blk, znr, corrected) <-
      (if negb (c =? 0) then
         name <- get_current_name ;;
         printf (Block_used_before name) ;;
         a <- ask "Clear" true ;;
         if a then
           corrected' <- assign_one corrected ;;
           ret (0, 0, corrected')
         else ret (blk, znr, corrected)
       else ret (blk, znr, corrected)) ;;
    if blk =? 0 then ret (0, znr, corrected)
    else
      used <- zone_in_use blk ;;
      (if negb used then
         name <- get_current_name ;;
         printf (Block_not_in_use blk name) ;;
         a <- ask "Correct" true ;;
         when a (mark_zone blk)
       else ret tt) ;;
      zc <- gets zone_count ;;
      c <- index A_zone_count zc blk ;;
      zc' <- assign A_zone_count zc blk (fst (incr_u8 c)) ;;
      modify (set_zone_count zc') ;;
      ret (blk, znr, corrected).

Definition add_zone := add_zone_ V1.
Definition add_zone2 := add_zone_ V2.

(** The callee of a level, as the levels use it: what it leaves in [*znr]
    and [corrected]. *)
Definition add_zone_0 (v : variant) (znr : Z) (corrected : intref)
  : M (Z * intref) :=
  '(_, znr', corrected') <- add_zone_ v znr corrected ;;
  ret (znr', corrected').

(** [each(i + blk, &chg_blk)], [blk] taken as an array of zone numbers:
    the body of the loop of a level, whose locals are the block and
    [chg_blk]. *)
Definition add_zone_entry (v : variant)
  (each : Z -> intref -> M (Z * intref)) (i : Z) (acc : block * intref)
  : M (block * intref) :=
  let '(blk, chg_blk) := acc in
  nr <- load_entry v blk i ;;
  '(nr', chg_blk') <- each nr chg_blk ;;
  blk' <- store_entry v blk i nr' ;;
  ret (blk', chg_blk').

(** The body shared by [add_zone_ind], [add_zone_dind], [add_zone_tind2]
    and their version 2 twins, which differ in the function [each] called
    on the entries of the block. *)
Definition add_zone_level (v : variant) (each : Z -> intref -> M (Z * intref))
  (znr : Z) (corrected : intref) : M (Z * intref) :=
  '(blk_nr, znr, corrected) <- add_zone_ v znr corrected ;;
  if blk_nr =? 0 then ret (znr, corrected)
  else
    blk <- read_block blk_nr ;;
    '(blk, chg_blk) <-
      iterate (Z.to_nat (entries v)) 0 (add_zone_entry v each)
        (blk, Ref_local false) ;;
    chg <- deref chg_blk ;;
    when chg (write_block blk_nr blk) ;;
    ret (znr, corrected).

Definition add_zone_ind_ (v : variant) := add_zone_level v (add_zone_0 v).
Definition add_zone_dind_ (v : variant) := add_zone_level v (add_zone_ind_ v).
Definition add_zone_tind_ (v : variant) := add_zone_level v (add_zone_dind_ v).

Definition add_zone_ind := add_zone_ind_ V1.
Definition add_zone_ind2 := add_zone_ind_ V2.
Definition add_zone_dind := add_zone_dind_ V1.
Definition add_zone_dind2 := add_zone_dind_ V2.
Definition add_zone_tind2 := add_zone_tind_ V2.

(** [f(k + inode->i_zone, &changed)]. *)
Definition on_slot (v : variant) (ino k : Z)
  (f : Z -> intref -> M (Z * intref)) : M unit :=
  nr <- get_slot v ino k ;;
  '(nr', _) <- f nr Ref_changed ;;
  put_slot v ino k nr'.

Definition wanted_mode (m : Z) : bool := S_ISDIR m || S_ISREG m || S_ISLNK m.

Definition check_zones_ (v : variant) (i : Z) : M unit :=
  inodes <- gets INODES ;;
  if (i =? 0) || (i >? inodes) then ret tt
  else
    ic <- gets inode_count ;;
    c <- index A_inode_count ic i ;;
    if c >? 1 then ret tt
    else
      x <- get_Inode i ;;
      if negb (wanted_mode (i_mode x)) then ret tt
      else
        iterate 7 0 (fun k _ => on_slot v i k (add_zone_0 v)) tt ;;
        on_slot v i 7 (add_zone_ind_ v) ;;
        on_slot v i 8 (add_zone_dind_ v) ;;
        match v with
        | V1 => ret tt
        | V2 => on_slot v i 9 (add_zone_tind_ v)
        end.

Definition check_zones := check_zones_ V1.
Definition check_zones2 := check_zones_ V2.

(** ** check_file, recursive_check *)

Definition incr_name_depth : M unit :=
  d <- gets name_depth ;; modify (set_name_depth (d + 1)).

Definition decr_name_depth : M unit :=
  d <- gets name_depth ;; modify (set_name_depth (d - 1)).

(** [if (name_depth < MAX_DEPTH) strncpy(name_list[name_depth], name, namelen)]. *)
Definition push_name (name : list Z) : M unit :=
  d <- gets name_depth ;;
  when (d <? MAX_DEPTH) (strncpy_name d name).

(** [check_file(dir, offset)] and [check_file2]; [dir] is passed as its
    inode number and [recurse] is [recursive_check] or [recursive_check2].
    [check_file2] lacks the second [strncpy] (line 1012-1013). *)
Definition check_file_ (v : variant) (recurse : Z -> M unit)
  (dir offset : Z) : M unit :=
  blk_nr <- follow v dir
              (match v with V1 => map_block_route | V2 => map_block2_route end
                 (offset / BLOCK_SIZE)) ;;
  blk <- read_block blk_nr ;;
  let at_ := offset mod BLOCK_SIZE in
  let name := skipn (Z.to_nat (at_ + 2)) blk in
  ino <- load blk at_ 2 ;;
  inodes <- gets INODES ;;
  ino <- (if ino >? inodes then
            cur <- get_current_name ;;
            printf (Bad_inode_number cur) ;;
            a <- ask " Remove" true ;;
            (if a then
               blk' <- store blk at_ 2 0 ;;
               write_block blk_nr blk'
             else ret tt) ;;
            ret 0
          else ret ino) ;;
  push_name name ;;
  incr_name_depth ;;
  inode <- get_inode_ v ino ;;
  decr_name_depth ;;
  ds <- gets dirsize ;;
  done <- (if offset =? 0 then
             if negb inode || negb (strcmp_eq name [46]) then
               cur <- get_current_name ;;
               printf (Dot_not_first cur) ;;
               modify (set_errors_uncorrected true) ;;
               ret false
             else ret true
           else ret false) ;;
  if done : bool then ret tt
  else
    done <- (if offset =? ds then
               if negb inode || negb (strcmp_eq name [46; 46]) then
                 cur <- get_current_name ;;
                 printf (Dotdot_not_second cur) ;;
                 modify (set_errors_uncorrected true) ;;
                 ret false
               else ret true
             else ret false) ;;
    if done : bool then ret tt
    else if negb inode then ret tt
    else
      match v with V1 => push_name name | V2 => ret tt end ;;
      incr_name_depth ;;
      l <- gets (fun g => opt_list (opts g)) ;;
      when l (cur <- get_current_name ;; printf (Listing ino cur)) ;;
      check_zones_ v ino ;;
      x <- get_Inode ino ;;
      when (S_ISDIR (i_mode x)) (recurse ino) ;;
      decr_name_depth.

(** The [for (offset = 0; offset < dir->i_size; offset += dirsize)] of
    [recursive_check]; [offset] is an [unsigned int]. *)
Fixpoint dir_loop (fuel : nat) (body : Z -> M unit) (ino offset : Z) : M unit :=
  match fuel with
  | O => stop_with Stop_timeout
  | S fuel' =>
      x <- get_Inode ino ;;
      if offset <? i_size x then
        body offset ;;
        ds <- gets dirsize ;;
        dir_loop fuel' body ino (u32 (offset + ds))
      else ret tt
  end.

Fixpoint recursive_check_ (v : variant) (fuel : nat) (ino : Z) : M unit :=
  match fuel with
  | O => stop_with Stop_timeout
  | S fuel' =>
      dir <- get_Inode ino ;;
      if negb (S_ISDIR (i_mode dir)) then die
      else
        ds <- gets dirsize ;;
        when (i_size dir <? u32 (2 * ds))
          (cur <- get_current_name ;;
           printf (Dir_size_lt_32 cur) ;;
           modify (set_errors_uncorrected true)) ;;
        dir_loop fuel' (check_file_ v (recursive_check_ v fuel') ino) ino 0
  end.

Definition check_file (fuel : nat) := check_file_ V1 (recursive_check_ V1 fuel).
Definition check_file2 (fuel : nat) := check_file_ V2 (recursive_check_ V2 fuel).
Definition recursive_check := recursive_check_ V1.
Definition recursive_check2 := recursive_check_ V2.

(** ** check_counts, check *)

(** [bad_zone(i)]: [BLOCK_SIZE*i] is an [int] product. *)
Definition bad_zone (i : Z) : M bool :=
  if 2 ^ 31 <=? BLOCK_SIZE * i then stop_with Signed_overflow
  else
    d <- gets IN ;;
    if negb (dev_seek_ok d (BLOCK_SIZE * i)) then die
    else
      match dev_block d i with
      | Some b => ret (negb (Z.of_nat (List.length b) =? BLOCK_SIZE))
      | None => ret true
      end.

(** The body of the first loop of [check_counts] and [check_counts2]. *)
Definition check_counts_inode (v : variant) (i : Z) : M unit :=
  used <- inode_in_use i ;;
  uncleared <- (if negb used then
                  x <- get_Inode i ;; ret (negb (i_mode x =? 0))
                else ret false) ;;
  o <- gets opts ;;
  when (uncleared && warn_mode o)
    (printf (Mode_not_cleared i) ;;
     a <- ask "Clear" true ;;
     when a (x <- get_Inode i ;;
             put_Inode i (with_i_mode x 0) ;;
             modify (set_changed true))) ;;
  ic <- gets inode_count ;;
  c <- index A_inode_count ic i ;;
  if c =? 0 then
    used <- inode_in_use i ;;
    if negb used then ret tt
    else
      printf (Inode_not_used_marked i) ;;
      a <- ask "Clear" true ;;
      when a (unmark_inode i)
  else
    used <- inode_in_use i ;;
    when (negb used)
      (printf (Inode_used_unmarked i) ;;
       a <- ask "Set" true ;;
       when a (mark_inode i)) ;;
    x <- get_Inode i ;;
    when (negb (i_nlinks x =? c))
      (printf (Nlinks_mismatch i) ;;
       a <- ask "Set i_nlinks to count" true ;;
       when a (put_Inode i (with_i_nlinks x c) ;;
               modify (set_changed true))).

(** The body of the second loop (lines 1180-1197 and 1234-1252).  The test
    compares the bit, 0 or 1, with the counter itself. *)
Definition check_counts_zone (v : variant) (i : Z) : M unit :=
  used <- zone_in_use i ;;
  zc <- gets zone_count ;;
  c <- index A_zone_count zc i ;;
  if Z.b2z used =? c then ret tt
  else if c =? 0 then
    bad <- bad_zone i ;;
    if bad then ret tt
    else
      printf (Zone_marked_unused_by_files i) ;;
      a <- ask "Unmark" true ;;
      when a (unmark_zone i)
  else if used then printf (Zone_in_use_counted i c)
  else printf (Zone_not_in_use_counted i c).

Definition check_counts_ (v : variant) : M unit :=
  inodes <- gets INODES ;;
  iterate (Z.to_nat inodes) 1 (fun i _ => check_counts_inode v i) tt ;;
  fz <- gets FIRSTZONE ;;
  zones <- gets ZONES ;;
  iterate (Z.to_nat (zones - fz)) fz (fun i _ => check_counts_zone v i) tt.

Definition check_counts := check_counts_ V1.
Definition check_counts2 := check_counts_ V2.

Definition check_ (v : variant) (fuel : nat) : M unit :=
  inodes <- gets INODES ;;
  zones <- gets ZONES ;;
  modify (set_inode_count (repeat 0 (Z.to_nat (inodes + 1)))) ;;
  modify (set_zone_count (repeat 0 (Z.to_nat zones))) ;;
  check_zones_ v ROOT_INO ;;
  recursive_check_ v fuel ROOT_INO ;;
  check_counts_ v.

Definition check := check_ V1.
Definition check2 := check_ V2.

(** ** main *)

Definition with_repair (o : options) (a r : bool) : options :=
  {| repair := r; automatic := a; verbose := verbose o;
     opt_list := opt_list o; show := show o; warn_mode := warn_mode o;
     force := force o; device_name := device_name o |}.

Definition with_verbose (o : options) (b : bool) : options :=
  {| repair := repair o; automatic := automatic o; verbose := b;
     opt_list := opt_list o; show := show o; warn_mode := warn_mode o;
     force := force o; device_name := device_name o |}.

Definition with_list (o : options) (b : bool) : options :=
  {| repair := repair o; automatic := automatic o; verbose := verbose o;
     opt_list := b; show := show o; warn_mode := warn_mode o;
     force := force o; device_name := device_name o |}.

Definition with_show (o : options) (b : bool) : options :=
  {| repair := repair o; automatic := automatic o; verbose := verbose o;
     opt_list := opt_list o; show := b; warn_mode := warn_mode o;
     force := force o; device_name := device_name o |}.

Definition with_warn_mode (o : options) (b : bool) : options :=
  {| repair := repair o; automatic := automatic o; verbose := verbose o;
     opt_list := opt_list o; show := show o; warn_mode := b;
     force := force o; device_name := device_name o |}.

Definition with_force (o : options) (b : bool) : options :=
  {| repair := repair o; automatic := automatic o; verbose := verbose o;
     opt_list := opt_list o; show := show o; warn_mode := warn_mode o;
     force := b; device_name := device_name o |}.

Definition with_device_name (o : options) (n : string) : options :=
  {| repair := repair o; automatic := automatic o; verbose := verbose o;
     opt_list := opt_list o; show := show o; warn_mode := warn_mode o;
     force := force o; device_name := Some n |}.

(** The initial values of lines 128-129: [verbose] and [force] start at 1. *)
Definition initial_options : options :=
  {| repair := false; automatic := false; verbose := true;
     opt_list := false; show := false; warn_mode := false;
     force := true; device_name := None |}.

(** The [switch] on one letter of a flag bundle; [None] is [usage()]. *)
Definition parse_flag (o : options) (c : ascii) : option options :=
  if Ascii.eqb c "l" then Some (with_list o true)
  else if Ascii.eqb c "a" then Some (with_repair o true true)
  else if Ascii.eqb c "r" then Some (with_repair o false true)
  else if Ascii.eqb c "v" then Some (with_verbose o true)
  else if Ascii.eqb c "s" then Some (with_show o true)
  else if Ascii.eqb c "m" then Some (with_warn_mode o true)
  else if Ascii.eqb c "f" then Some (with_force o true)
  else None.

Fixpoint parse_flags (o : options) (s : string) : option options :=
  match s with
  | EmptyString => Some o
  | String c s' =>
      match parse_flag o c with
      | Some o' => parse_flags o' s'
      | None => None
      end
  end.

(** The [while (argc-- > 1)] over the arguments after [argv[0]]. *)
Fixpoint parse_args (o : options) (args : list string) : option options :=
  match args with
  | [] => Some o
  | arg :: rest =>
      match arg with
      | String "-" flags =>
          match parse_flags o flags with
          | Some o' => parse_args o' rest
          | None => None
          end
      | _ =>
          match device_name o with
          | Some _ => None
          | None => parse_args (with_device_name o arg) rest
          end
      end
  end.

(** What the program finds outside itself. *)
Record world : Type := {
  w_device : option device;
  w_tty : bool;
  w_stdin : list Z
}.

Definition no_device : device :=
  {| dev_seek_ok := fun _ => false; dev_write_ok := fun _ => false;
     dev_super := None; dev_inode_map := None; dev_zone_map := None;
     dev_inodes := None; dev_block := fun _ => None |}.

Definition empty_super : minix_super_block :=
  {| s_ninodes := 0; s_nzones := 0; s_imap_blocks := 0; s_zmap_blocks := 0;
     s_firstdatazone := 0; s_log_zone_size := 0; s_max_size := 0;
     s_magic := 0; s_state := 0; s_zones := 0 |}.

(** The globals at program start (lines 125-169). *)
Definition initial (w : world) : globals :=
  {| opts := initial_options; tty := w_tty w; changed := false;
     errors_uncorrected := false; dirsize := 16; namelen := 14;
     version2 := false; name_depth := 0;
     name_list := repeat (repeat 0 (Z.to_nat (NAME_MAX + 1)))
                    (Z.to_nat MAX_DEPTH);
     Super := empty_super; inode_map := []; zone_map := []; Inode := [];
     inode_count := []; zone_count := []; IN := no_device;
     stdin := w_stdin w; out := [] |}.

(** The final report under [verbose]: two percentages are computed. *)
Definition report : M unit :=
  inodes <- gets INODES ;;
  zones <- gets ZONES ;;
  if (inodes =? 0) || (zones =? 0) then stop_with Division_by_zero
  else printf Statistics.

(** [argc == 2 && (!strcmp(argv[1], "-V") || !strcmp(argv[1], "--version"))]. *)
Definition version_request (argv : list string) : bool :=
  match argv with
  | [_; a] => String.eqb a "-V" || String.eqb a "--version"
  | _ => false
  end.

(** [main], from given initial values [o0] of the switches; [argv]
    includes [argv[0]], the result is the exit status.  The probe for a
    mounted file system ([#if LINUX]), the signal handlers and the terminal
    modes are left out. *)
Definition main_from (o0 : options) (fuel : nat) (argv : list string)
  (w : world) : M Z :=
  if version_request argv then printf Version_banner ;; leave 0
  else
      match parse_args o0 (tl argv) with
      | None => usage
      | Some o =>
          modify (set_opts o) ;;
          match device_name o with
          | None => usage
          | Some _ =>
              (if repair o && negb (automatic o) && negb (w_tty w) then die
               else ret tt) ;;
              match w_device w with
              | None => die
              | Some d =>
                  modify (set_IN d) ;;
                  read_superblock ;;
                  sb <- gets Super ;;
                  if (Z.land (s_state sb) MINIX_ERROR_FS =? 0)
                     && negb (Z.land (s_state sb) MINIX_VALID_FS =? 0)
                     && negb (force o) then
                    when (repair o) (printf Is_clean) ;;
                    ret 0
                  else
                    (if force o then printf Forcing_check
                     else when (repair o) (printf Is_dirty)) ;;
                    read_tables ;;
                    v2 <- gets version2 ;;
                    (if v2 then check_root2 ;; check2 fuel
                     else check_root ;; check fuel) ;;
                    when (verbose o) report ;;
                    chg <- gets changed ;;
                    (if chg then write_tables ;; printf Changed_banner
                     else when (repair o) write_super_block) ;;
                    chg <- gets changed ;;
                    err <- gets errors_uncorrected ;;
                    ret (0 + (if chg then 3 else 0) + (if err then 4 else 0))
              end
          end
      end.

(** [main] as compiled, with the initial values of lines 128-129. *)
Definition main : nat -> list string -> world -> M Z :=
  main_from initial_options.

(** A run of the program. *)
Definition run (fuel : nat) (argv : list string) (w : world) : result Z :=
  main fuel argv w (initial w).

(** ** Images for the examples *)

Module Fixture.

Definition pad (n : nat) (l : list Z) : list Z := firstn n (l ++ repeat 0 n).

(** A block from a list of leading bytes. *)
Definition blk (l : list Z) : block := pad (Z.to_nat BLOCK_SIZE) l.

(** A directory entry: inode number and name, on [stride] bytes. *)
Definition dirent (stride : nat) (ino : Z) (name : list Z) : list Z :=
  pad stride (le_bytes 2 ino ++ name).

(** An indirect block of version [v] from its leading entries. *)
Definition indirect (v : variant) (l : list Z) : block :=
  blk (flat_map (le_bytes (Z.to_nat (width v))) l).

Definition dir_mode : Z := 0x41ED.
Definition file_mode : Z := 0x81A4.

Definition free_inode (v : variant) : minix_inode :=
  {| i_mode := 0; i_nlinks := 0; i_size := 0;
     i_zone := repeat 0 (Z.to_nat (slots v)) |}.

Definition a_inode (v : variant) (mode nlinks size : Z) (zones : list Z)
  : minix_inode :=
  {| i_mode := mode; i_nlinks := nlinks; i_size := size;
     i_zone := pad (Z.to_nat (slots v)) zones |}.

(** A super block: 32 inodes and 16 zones for version 1, 16 and 16 for
    version 2, one block per bitmap, one block of inodes, first zone 5. *)
Definition super (magic state : Z) : minix_super_block :=
  {| s_ninodes := if magic <? 0x2000 then 32 else 16; s_nzones := 16;
     s_imap_blocks := 1; s_zmap_blocks := 1; s_firstdatazone := 5;
     s_log_zone_size := 0; s_max_size := 0x10081C00; s_magic := magic;
     s_state := state; s_zones := 16 |}.

(** A device whose seeks, reads and writes succeed. *)
Definition disk (sb : minix_super_block) (imap zmap : list Z)
  (inodes : list minix_inode) (blocks : list (Z * block)) : device :=
  {| dev_seek_ok := fun _ => true; dev_write_ok := fun _ => true;
     dev_super := Some sb; dev_inode_map := Some (blk imap);
     dev_zone_map := Some (blk zmap); dev_inodes := Some inodes;
     dev_block := fun n =>
       match find (fun p => fst p =? n) blocks with
       | Some p => Some (snd p)
       | None => Some zero_block
       end |}.

(** The globals after [read_superblock] and [read_tables] on a device. *)
Definition loaded (d : device) : globals :=
  final (bind read_superblock (fun _ => read_tables)
           (set_IN d (initial {| w_device := Some d; w_tty := false;
                                 w_stdin := [] |}))).

Definition world_of (d : device) : world :=
  {| w_device := Some d; w_tty := false; w_stdin := [] |}.

(** The root directory with its two entries, and nothing else. *)
Definition root_block : block := blk (dirent 16 1 [46] ++ dirent 16 1 [46; 46]).

(** Version 1, clean: root directory in zone 5. *)
Definition clean_v1 (state : Z) : device :=
  disk (super MINIX_SUPER_MAGIC state) [3] [3]
    (a_inode V1 dir_mode 2 32 [5] :: repeat (free_inode V1) 31)
    [(5, root_block)].

(** Version 2: the root directory has a double-indirect block in slot 8
    (zone 6, whose entry 0 is zone 7, whose entry 0 is zone 8). *)
Definition double_v2 : device :=
  disk (super MINIX2_SUPER_MAGIC 0) [3] [31]
    (a_inode V2 dir_mode 2 32 [5; 0; 0; 0; 0; 0; 0; 0; 6; 0]
       :: repeat (free_inode V2) 15)
    [(5, root_block); (6, indirect V2 [7]); (7, indirect V2 [8])].

(** Version 1 with 30-byte names: the first block of the root directory
    holds no name at all. *)
Definition blank_root_v1_30 : device :=
  disk (super MINIX_SUPER_MAGIC2 0) [3] [3]
    (a_inode V1 dir_mode 2 64 [5] :: repeat (free_inode V1) 31) [].

(** A chain of [n] nested directories, version 1: directory [k] is inode
    [k] in zone [5+k] and holds ".", ".." and, but for the last one, "d". *)
Definition chain_super (n : Z) : minix_super_block :=
  {| s_ninodes := 64; s_nzones := 6 + n; s_imap_blocks := 1;
     s_zmap_blocks := 1; s_firstdatazone := 6; s_log_zone_size := 0;
     s_max_size := 0x10081C00; s_magic := MINIX_SUPER_MAGIC; s_state := 0;
     s_zones := 0 |}.

Definition chain_inode (n k : Z) : minix_inode :=
  if k <=? n then
    a_inode V1 dir_mode (if k <? n then 3 else 2) (if k <? n then 48 else 32)
      [5 + k]
  else free_inode V1.

Definition chain_block (n k : Z) : block :=
  blk (dirent 16 k [46] ++ dirent 16 (if k =? 1 then 1 else k - 1) [46; 46]
       ++ (if k <? n then dirent 16 (k + 1) [100] else [])).

(** A bitmap with bits 0 to [n] set. *)
Definition bits_upto (n : Z) : list Z :=
  repeat 255 (Z.to_nat ((n + 1) / 8)) ++ [2 ^ ((n + 1) mod 8) - 1].

Definition chain (n : Z) : device :=
  disk (chain_super n) (bits_upto n) (bits_upto n)
    (map (fun k => chain_inode n (Z.of_nat k)) (seq 1 64))
    (map (fun k => (5 + Z.of_nat k, chain_block n (Z.of_nat k)))
       (seq 1 (Z.to_nat n))).


(** Version 1, marked valid: zone 6 is marked in use and no file uses it. *)
Definition stray_zone_v1 : device :=
  disk (super MINIX_SUPER_MAGIC MINIX_VALID_FS) [3] [7]
    (a_inode V1 dir_mode 2 32 [5] :: repeat (free_inode V1) 31)
    [(5, root_block)].



End Fixture.

(** * Vocabulary of the statements *)

(** The state left in the super block by [write_super_block]. *)
Definition new_state (g : globals) : Z :=
  let st := u16 (Z.lor (s_state (Super g)) MINIX_VALID_FS) in
  if errors_uncorrected g then u16 (Z.lor st MINIX_ERROR_FS)
  else u16 (Z.land st (Z.lnot MINIX_ERROR_FS)).

(** The stride and name length [read_superblock] takes from the magic
    number. *)
Definition magic_dir (magic : Z) : Z * Z :=
  if (magic =? MINIX_SUPER_MAGIC) || (magic =? MINIX2_SUPER_MAGIC)
  then (16, 14) else (32, 30).

(** The faults of [get_current_name] are about the name stack. *)
Definition name_fault (w : stop) : Prop :=
  exists i, w = Out_of_bounds A_name_list i \/ w = Out_of_bounds A_name_row i.

(** What the checks of [read_superblock] leave known about the geometry. *)
Definition checked_geometry (g : globals) : Prop :=
  0 <= FIRSTZONE g < 2 ^ 16 /\ 0 <= ZONES g < 2 ^ 31
  /\ ZONES g - FIRSTZONE g + 1 <= ZMAPS g * BLOCK_SIZE * 8
  /\ 0 <= INODES g < 2 ^ 16
  /\ INODES g + 1 <= IMAPS g * BLOCK_SIZE * 8.

(** [g'] differs from [g] at most in [errors_uncorrected], [stdin] and the
    log. *)
Record keeps (g g' : globals) : Prop := {
  k_opts : opts g' = opts g;
  k_tty : tty g' = tty g;
  k_changed : changed g' = changed g;
  k_dirsize : dirsize g' = dirsize g;
  k_namelen : namelen g' = namelen g;
  k_version2 : version2 g' = version2 g;
  k_name_depth : name_depth g' = name_depth g;
  k_name_list : name_list g' = name_list g;
  k_Super : Super g' = Super g;
  k_inode_map : inode_map g' = inode_map g;
  k_zone_map : zone_map g' = zone_map g;
  k_Inode : Inode g' = Inode g;
  k_inode_count : inode_count g' = inode_count g;
  k_zone_count : zone_count g' = zone_count g;
  k_IN : IN g' = IN g
}.

Definition not_zone_count_fault (w : stop) : Prop :=
  forall i, w <> Out_of_bounds A_zone_count i.

(** [zone_count] keeps its size and its entries outside [FIRSTZONE, ZONES). *)
Definition zone_count_kept (g g' : globals) : Prop :=
  List.length (zone_count g') = List.length (zone_count g)
  /\ forall i, i < FIRSTZONE g \/ ZONES g <= i ->
       zget (zone_count g') i = zget (zone_count g) i.

(** A log without writes and without a question answered yes. *)
Definition quiet_event (e : event) : Prop :=
  match e with
  | Write _ => False
  | Asked _ _ a => a = false
  | Printed _ => True
  end.

Definition quiet (l : list event) : Prop := Forall quiet_event l.

(** Read-only so far: no repair mode, nothing changed, a quiet log. *)
Definition Safe (g : globals) : Prop :=
  repair (opts g) = false /\ changed g = false /\ quiet (out g).

(** The messages that report an inconsistency of the file system.  The
    others inform: the mode of a file of unknown type, the listing, the
    banners, the final report, and the last words of a fatal stop. *)
Definition corruption (m : message) : bool :=
  match m with
  | File_has_mode _ _ | Listing _ _ | Is_clean | Forcing_check | Is_dirty
  | Super_info | Statistics | Changed_banner | Version_banner
  | Fatal_error | Usage_banner => false
  | _ => true
  end.

Definition harmless_event (e : event) : Prop :=
  match e with
  | Printed m => corruption m = false
  | _ => False
  end.

(** [g'] is [g] as far as the tables and the flags go, and its log is that
    of [g] with informing messages added. *)
Record same (g g' : globals) : Prop := {
  s_opts : opts g' = opts g;
  s_changed : changed g' = changed g;
  s_errors : errors_uncorrected g' = errors_uncorrected g;
  s_version2 : version2 g' = version2 g;
  s_Super : Super g' = Super g;
  s_inode_map : inode_map g' = inode_map g;
  s_zone_map : zone_map g' = zone_map g;
  s_inode_count : inode_count g' = inode_count g;
  s_zone_count : zone_count g' = zone_count g;
  s_out : exists l, out g' = out g ++ l /\ Forall harmless_event l
}.

(** From [g] to [g'] nothing happened, or an error was recorded. *)
Definition calmly (g g' : globals) : Prop :=
  Safe g' /\ (same g g' \/ errors_uncorrected g' = true).

(** The shape of most statements: from a [Safe] state, [m] returns calmly
    with a result in [Q], or stops in a [Safe] state. *)
Definition calm_spec {A : Type} (m : M A) (Q : A -> Prop) : Prop :=
  forall g, Safe g ->
    match m g with
    | Ok a g' => calmly g g' /\ Q a
    | Stop _ g' => Safe g'
    end.

(** The bit of a map, as [bit] reads it. *)
Definition bit_at (buf : list Z) (i : Z) : option bool :=
  option_map (fun b => Z.testbit b (i mod 8)) (zget buf (i / 8)).

Definition zone_bit (g : globals) (z : Z) : option bool :=
  bit_at (zone_map g) (ulong (z - FIRSTZONE g + 1)).

Definition inode_bit (g : globals) (i : Z) : option bool :=
  bit_at (inode_map g) i.

(** What the log may hold while no error is recorded: informing messages,
    and "inode marked unused" messages, which [get_inode2] prints without
    recording an error. *)
Definition calm_event (e : event) : Prop :=
  match e with
  | Printed m =>
      corruption m = false \/ exists nr name, m = Inode_marked_unused nr name
  | _ => False
  end.

(** What holds while no error is recorded: every counted zone is counted
    once and marked in the bitmap; every inode reported as marked unused is
    counted and still unmarked, so that [check_counts] will ask about
    it. *)
Definition Calm (g : globals) : Prop :=
  Forall calm_event (out g)
  /\ (forall z c, zget (zone_count g) z = Some c ->
        c = 0 \/ (c = 1 /\ zone_bit g z = Some true))
  /\ (forall nr name, In (Printed (Inode_marked_unused nr name)) (out g) ->
        1 <= nr <= INODES g /\ inode_bit g nr = Some false
        /\ exists c, zget (inode_count g) nr = Some c /\ 1 <= c).

Definition INV (g : globals) : Prop :=
  Safe g /\ (errors_uncorrected g = false -> Calm g).

(** From a state of the traversal, [m] returns in one with a result in
    [Q], or stops in a [Safe] state. *)
Definition inv_spec {A : Type} (m : M A) (Q : A -> Prop) : Prop :=
  forall g, INV g ->
    match m g with
    | Ok a g' => INV g' /\ Q a
    | Stop _ g' => Safe g'
    end.



(** What runs reach without repair mode when no error is recorded: a log
    of informing messages. *)
Definition Clean (g : globals) : Prop :=
  Safe g /\ (errors_uncorrected g = false -> Forall harmless_event (out g)).


(** Whether a flag bundle holds the letter a or r. *)
Fixpoint asks_repair (flags : string) : bool :=
  match flags with
  | EmptyString => false
  | String c s => Ascii.eqb c "a" || Ascii.eqb c "r" || asks_repair s
  end.

(** Whether the arguments ask for repair mode, with -a or -r. *)
Definition wants_repair (args : list string) : bool :=
  existsb (fun arg => match arg with
                      | String "-" flags => asks_repair flags
                      | _ => false
                      end) args.

(** * Vocabulary of the further properties *)

(** What the traversal may add to the log: messages, questions, and writes
    of blocks among the data zones (positions are 32-bit, so that the block
    written is the block asked for up to [2^22] zones). *)
Definition data_write (g : globals) (e : event) : Prop :=
  match e with
  | Write (W_block n _) => ZONES g <= 2 ^ 22 -> FIRSTZONE g <= n < ZONES g
  | Write _ => False
  | _ => True
  end.

(** A question of the log was answered no. *)
Definition declined (l : list event) : Prop :=
  exists q d, In (Asked q d false) l.

(** What [check] and [check2] keep of the globals: the switches, the
    geometry, the sizes of the tables, the file sizes, the flags once
    raised, and the device outside its data zones. *)
Record steady (g g' : globals) : Prop := {
  st_opts : opts g' = opts g;
  st_tty : tty g' = tty g;
  st_dirsize : dirsize g' = dirsize g;
  st_namelen : namelen g' = namelen g;
  st_version2 : version2 g' = version2 g;
  st_Super : Super g' = Super g;
  st_name_list : List.length (name_list g') = List.length (name_list g);
  st_inode_map : List.length (inode_map g') = List.length (inode_map g);
  st_zone_map : List.length (zone_map g') = List.length (zone_map g);
  st_Inode : List.length (Inode g') = List.length (Inode g);
  st_errors : errors_uncorrected g = true -> errors_uncorrected g' = true;
  st_changed : changed g = true -> changed g' = true;
  st_seek_ok : dev_seek_ok (IN g') = dev_seek_ok (IN g);
  st_write_ok : dev_write_ok (IN g') = dev_write_ok (IN g);
  st_dev_super : dev_super (IN g') = dev_super (IN g);
  st_dev_inode_map : dev_inode_map (IN g') = dev_inode_map (IN g);
  st_dev_zone_map : dev_zone_map (IN g') = dev_zone_map (IN g);
  st_dev_inodes : dev_inodes (IN g') = dev_inodes (IN g);
  st_dev_block : forall n, ZONES g <= 2 ^ 22 ->
                   n < FIRSTZONE g \/ ZONES g <= n ->
                   dev_block (IN g') n = dev_block (IN g) n;
  st_out : exists l, out g' = out g ++ l /\ Forall (data_write g) l
             /\ (declined l -> errors_uncorrected g' = true)
}.

(** [m] keeps all that, however it ends. *)
Definition steadily {A : Type} (m : M A) : Prop :=
  forall g, steady g (final (m g)).

(** A write of the log lands where it may: a block write among the data
    zones, the others on the tables they name. *)
Definition placed_write (g : globals) (e : event) : Prop :=
  match e with
  | Write (W_block n _) => ZONES g <= 2 ^ 22 -> FIRSTZONE g <= n < ZONES g
  | _ => True
  end.

(** What [main] keeps once the super block is read: the bounds of the data
    zones, [errors_uncorrected] once raised, block writes among the data
    zones, and a question answered no leaves [errors_uncorrected] raised. *)
Record tame (g g' : globals) : Prop := {
  tm_FIRSTZONE : FIRSTZONE g' = FIRSTZONE g;
  tm_ZONES : ZONES g' = ZONES g;
  tm_errors : errors_uncorrected g = true -> errors_uncorrected g' = true;
  tm_out : exists l, out g' = out g ++ l /\ Forall (placed_write g) l
             /\ (declined l -> errors_uncorrected g' = true)
}.

Definition tamely {A : Type} (m : M A) : Prop :=
  forall g, tame g (final (m g)).

(** The log so far: block writes among the data zones, and
    [errors_uncorrected] raised if a question was answered no. *)
Definition accounted (g : globals) : Prop :=
  Forall (placed_write g) (out g)
  /\ (declined (out g) -> errors_uncorrected g = true).

(** When [m] returns, [name_depth] has moved by [d]. *)
Definition shifts {A : Type} (d : Z) (m : M A) : Prop :=
  forall g a g', m g = Ok a g' -> name_depth g' = name_depth g + d.

(** The characters that end the wait of [ask]: y, n (either case), space
    and newline. *)
Definition decides (c : Z) : bool :=
  (toupper c =? 89) || (toupper c =? 78) || (toupper c =? 32)
  || (toupper c =? 10).

(** The answer a deciding character gives to a question of default [d]. *)
Definition verdict (c : Z) (d : bool) : bool :=
  if toupper c =? 89 then true else if toupper c =? 78 then false else d.

(** Input without a deciding character. *)
Definition undecided (l : list Z) : Prop :=
  Forall (fun c => decides c = false) l.

(** ** More images for the examples *)

Module Sample.

Import Fixture.

(** Version 1: the third entry of the root directory names inode 99 of
    32. *)
Definition bad_entry_v1 : device :=
  disk (super MINIX_SUPER_MAGIC 0) [3] [3]
    (a_inode V1 dir_mode 2 48 [5] :: repeat (free_inode V1) 31)
    [(5, blk (dirent 16 1 [46] ++ dirent 16 1 [46; 46]
              ++ dirent 16 99 [120]))].

(** A terminal with the given input. *)
Definition at_terminal (d : device) (input : list Z) : world :=
  {| w_device := Some d; w_tty := true; w_stdin := input |}.

(** Version 1 with a zone count of 0: no zone number is in range, and
    the root directory has no block. *)
Definition no_zones_v1 : device :=
  disk {| s_ninodes := 32; s_nzones := 0; s_imap_blocks := 1;
          s_zmap_blocks := 1; s_firstdatazone := 1; s_log_zone_size := 0;
          s_max_size := 0x10081C00; s_magic := MINIX_SUPER_MAGIC;
          s_state := 0; s_zones := 0 |}
    [3] [1]
    (a_inode V1 dir_mode 2 32 [] :: repeat (free_inode V1) 31) [].

End Sample.



(** A buffer of [BLOCK_SIZE] bytes. *)
Definition is_block (b : block) : Prop :=
  Z.of_nat (List.length b) = BLOCK_SIZE /\ Forall (fun x => 0 <= x < 256) b.

(** The strides [get_dirsize] tries, in its order. *)
Definition strides : list Z := [16; 32; 64; 128; 256; 512].

(** [strcmp(blk + size + 2, "..") == 0]. *)
Definition dotdot_at (blk : block) (size : Z) : bool :=
  strcmp_eq (skipn (Z.to_nat (size + 2)) blk) [46; 46].

(** [m] leaves the part [f] of the globals as it was, however it ends. *)
Definition preserves {A X : Type} (f : globals -> X) (m : M A) : Prop :=
  forall g, f (final (m g)) = f g.

(** When [m] stops, it is for a reason in [P]. *)
Definition stops_in {A : Type} (P : stop -> Prop) (m : M A) : Prop :=
  forall g w g', m g = Stop w g' -> P w.

(** A stop that is not an exit, or the exit of [die]. *)
Definition fault_or_die (w : stop) : Prop :=
  forall s, w = Stop_leave s -> s = 8.

(** Whether an argument names the device (it does not start with a dash). *)
Definition names_device (arg : string) : bool :=
  match arg with
  | String "-" _ => false
  | _ => true
  end.

(** Whether a flag bundle holds only letters of "larvsmf". *)
Fixpoint known_flags (s : string) : bool :=
  match s with
  | EmptyString => true
  | String c s' =>
      (Ascii.eqb c "l" || Ascii.eqb c "a" || Ascii.eqb c "r"
       || Ascii.eqb c "v" || Ascii.eqb c "s" || Ascii.eqb c "m"
       || Ascii.eqb c "f") && known_flags s'
  end.

(** The flag bundles of the arguments hold known letters only. *)
Definition all_known (args : list string) : bool :=
  forallb (fun a => match a with
                    | String "-" flags => known_flags flags
                    | _ => true
                    end) args.

(** Whether [main] calls [usage]: an unknown letter in a flag bundle, or
    a number of device names other than one. *)
Definition usage_error (args : list string) : bool :=
  negb (all_known args)
  || negb (Nat.eqb (List.length (filter names_device args)) 1).

(** Inode [i], counted [c] times, is settled: its bit in the map says
    whether it is counted at all, and if it is, its link count is [c]. *)
Definition inode_settled (g : globals) (i c : Z) : Prop :=
  inode_bit g i = Some (negb (c =? 0))
  /\ (c <> 0 ->
      exists x, zget (Inode g) (i - 1) = Some x /\ i_nlinks x = c).

(** The probe of [bad_zone]: a [read] of the block falls short. *)
Definition bad_block (d : device) (i : Z) : bool :=
  match dev_block d i with
  | Some b => negb (Z.of_nat (List.length b) =? BLOCK_SIZE)
  | None => true
  end.

(** Automatic repair, and every counted zone marked in the bitmap. *)
Definition counted_marked (g : globals) : Prop :=
  repair (opts g) = true /\ automatic (opts g) = true
  /\ forall z c, zget (zone_count g) z = Some c -> c <> 0 ->
       zone_bit g z = Some true.

(** When [m] returns it has kept [counted_marked]. *)
Definition marks {A : Type} (m : M A) : Prop :=
  forall g a g', counted_marked g -> m g = Ok a g' -> counted_marked g'.

(** From [g] to [g'] the bit of zone [z] has been settled by
    [check_counts]: cleared if no file uses the zone and its block can be
    read, left as it was otherwise. *)
Definition zone_settled (g g' : globals) (z : Z) : Prop :=
  exists used c,
    zone_bit g z = Some used /\ zget (zone_count g) z = Some c
    /\ zone_bit g' z
       = Some (if (c =? 0) && negb (bad_block (IN g) z) then false
               else used).

(** * Properties *)

(** ** Reasoning about runs *)

(** Unfolding of the monad's operations. *)
Ltac mred :=
  repeat (cbv beta iota delta
            [bind gets modify ret stop_with printf when leave die usage];
          cbn [orb andb negb fst snd]).

(** ** C1: the levels of map_block2 *)

Lemma u32_small x : 0 <= x < 2 ^ 32 -> u32 x = x.
Proof. intros H. unfold u32, wrap. apply Z.mod_small. exact H. Qed.

Lemma map_block2_route_direct n :
  0 <= n < 7 -> map_block2_route n = Direct n.
Proof.
  intros H. unfold map_block2_route.
  destruct (Z.ltb_spec n 7); [reflexivity | lia].
Qed.

Lemma map_block2_route_single n :
  7 <= n < 7 + 256 -> map_block2_route n = Single (n - 7).
Proof.
  intros H. unfold map_block2_route.
  destruct (Z.ltb_spec n 7); [lia|].
  rewrite (u32_small (n - 7)) by lia.
  destruct (Z.ltb_spec (n - 7) 256); [reflexivity | lia].
Qed.

(** In the range the double-indirect block should serve, the code takes
    the branch of the triple-indirect block, after a subtraction that wraps
    around: the first index is 65535. *)
Lemma map_block2_route_middle n :
  7 + 256 <= n < 7 + 256 + 65536 ->
  map_block2_route n
  = Triple 65535 ((n - 263) / 256) ((n - 263) mod 256).
Proof.
  intros H. unfold map_block2_route.
  destruct (Z.ltb_spec n 7); [lia|].
  rewrite (u32_small (n - 7)) by lia.
  destruct (Z.ltb_spec (n - 7) 256); [lia|].
  rewrite (u32_small (n - 7 - 256)) by lia.
  destruct (Z.geb_spec (n - 7 - 256) (256 * 256)); [lia|].
  assert (E : u32 (n - 7 - 256 - 256 * 256) = (n - 263) + 65535 * 65536).
  { unfold u32, wrap.
    replace (n - 7 - 256 - 256 * 256) with ((n - 263 + 65535 * 65536) + (-1) * 2 ^ 32) by lia.
    rewrite Z.mod_add by lia. apply Z.mod_small. lia. }
  rewrite E. f_equal.
  - change (256 * 256) with 65536. rewrite Z.div_add by lia.
    rewrite Z.div_small by lia. reflexivity.
  - replace (n - 263 + 65535 * 65536) with (n - 263 + (65535 * 256) * 256) by lia.
    rewrite Z.div_add by lia.
    replace ((n - 263) / 256 + 65535 * 256) with ((n - 263) / 256 + 65535 * 256) by lia.
    rewrite Z.mod_add by lia. apply Z.mod_small.
    split; [apply Z.div_pos; lia | apply Z.div_lt_upper_bound; lia].
  - replace (n - 263 + 65535 * 65536) with (n - 263 + (65535 * 256) * 256) by lia.
    apply Z.mod_add. lia.
Qed.

(** Beyond that range the code takes the branch of the double-indirect
    block, with a first index of 256 or more. *)
Lemma map_block2_route_high n :
  7 + 256 + 65536 <= n < 2 ^ 32 ->
  map_block2_route n = Double ((n - 263) / 256) ((n - 263) mod 256)
  /\ 256 <= (n - 263) / 256.
Proof.
  intros H. unfold map_block2_route.
  destruct (Z.ltb_spec n 7); [lia|].
  rewrite (u32_small (n - 7)) by lia.
  destruct (Z.ltb_spec (n - 7) 256); [lia|].
  rewrite (u32_small (n - 7 - 256)) by lia.
  destruct (Z.geb_spec (n - 7 - 256) (256 * 256)); [|lia].
  replace (n - 7 - 256) with (n - 263) by lia.
  split; [reflexivity | apply Z.div_le_lower_bound; lia].
Qed.

(** An index of 256 or more falls outside the block of zone numbers: the
    level stops there, whatever was read. *)
Lemma check_entry_out_of_range v blk i g :
  entries v <= i ->
  exists w g', check_entry v blk i g = Stop w g'.
Proof.
  intros Hi. unfold check_entry, bind.
  destruct (read_block blk g) as [ind g1|w g1]; [|eauto].
  unfold load_entry.
  destruct (Z.leb_spec (entries v) i) as [_|C]; [|lia].
  rewrite orb_true_r. unfold stop_with. eauto.
Qed.

(** So no logical block from 7+256 on is ever resolved by [map_block2]. *)
Lemma map_block2_never_resolves ino n g :
  7 + 256 <= n < 2 ^ 32 ->
  exists w g', map_block2 ino n g = Stop w g'.
Proof.
  intros H. unfold map_block2.
  destruct (Z.lt_ge_cases n (7 + 256 + 65536)) as [Hm|Hh].
  - rewrite map_block2_route_middle by lia. simpl. unfold bind at 1.
    destruct (check_slot V2 ino 9 g) as [b g1|w g1]; [|eauto].
    unfold bind at 1.
    destruct (check_entry_out_of_range V2 b 65535 g1) as (w & g2 & E);
      [cbv; discriminate|].
    rewrite E. eauto.
  - destruct (map_block2_route_high n) as [E Hi]; [lia|].
    rewrite E. simpl. unfold bind at 1.
    destruct (check_slot V2 ino 8 g) as [b g1|w g1]; [|eauto].
    unfold bind at 1.
    destruct (check_entry_out_of_range V2 b ((n - 263) / 256) g1)
      as (w & g2 & E'); [exact Hi|].
    rewrite E'. eauto.
Qed.

(** C1 (does not hold of the code): at the first logical block of the
    double-indirect range, n = 7+256, [map_block2] starts from slot 9, the
    triple-indirect block, with 65535 as its first index; at the first
    block of the triple-indirect range, n = 7+256+65536, it starts from
    slot 8 with 256 as its first index.  On a root directory whose slot 8
    leads to zone 8 through zones 6 and 7, block 263 is not resolved to
    zone 8: the run stops at the access to entry 65535 of a 256-entry
    block. *)
Theorem map_block2_levels_swapped :
  map_block2_route (7 + 256) = Triple 65535 0 0
  /\ route_slot (map_block2_route (7 + 256)) = 9
  /\ map_block2_route (7 + 256 + 65536) = Double 256 0
  /\ route_slot (map_block2_route (7 + 256 + 65536)) = 8
  /\ (exists g, map_block2 1 (7 + 256) (Fixture.loaded Fixture.double_v2)
                = Stop (Out_of_bounds A_ind 65535) g)
  /\ (exists g, follow V2 1 (Double 0 0) (Fixture.loaded Fixture.double_v2)
                = Ok 8 g).
Proof.
  repeat split; try reflexivity.
  - eexists. vm_compute. reflexivity.
  - eexists. vm_compute. reflexivity.
Qed.

(** ** C5: the state flags written by write_super_block *)

Lemma u16_bits_low x k : 0 <= k < 16 -> Z.testbit (u16 x) k = Z.testbit x k.
Proof. intros H. unfold u16, wrap. apply Z.mod_pow2_bits_low. lia. Qed.

Lemma u16_range x : 0 <= u16 x < 2 ^ 16.
Proof. unfold u16, wrap. apply Z.mod_pos_bound. lia. Qed.

Lemma write_super_block_state g :
  s_state (Super (final (write_super_block g))) = new_state g
  /\ errors_uncorrected (final (write_super_block g)) = errors_uncorrected g.
Proof.
  unfold write_super_block, bind, gets, modify, die, leave, stop_with, printf,
    bind, new_state.
  cbn.
  destruct (dev_seek_ok (IN g) BLOCK_SIZE); cbn; [|split; reflexivity].
  destruct (dev_write_ok (IN g) BLOCK_SIZE); cbn; split; reflexivity.
Qed.

Lemma testbit_1 k : 0 <= k -> Z.testbit 1 k = (k =? 0).
Proof.
  intros H. destruct (Z.eqb_spec k 0) as [->|N]; [reflexivity|].
  change 1 with (2 ^ 0). apply Z.pow2_bits_false. lia.
Qed.

Lemma testbit_2 k : 0 <= k -> Z.testbit 2 k = (k =? 1).
Proof.
  intros H. destruct (Z.eqb_spec k 1) as [->|N]; [reflexivity|].
  change 2 with (2 ^ 1). apply Z.pow2_bits_false. lia.
Qed.

Lemma new_state_bits g k :
  0 <= k < 16 ->
  Z.testbit (new_state g) k
  = if k =? 0 then true
    else if k =? 1 then errors_uncorrected g
    else Z.testbit (s_state (Super g)) k.
Proof.
  intros H. unfold new_state, MINIX_VALID_FS, MINIX_ERROR_FS.
  destruct (errors_uncorrected g).
  - rewrite u16_bits_low, Z.lor_spec, u16_bits_low, Z.lor_spec by lia.
    rewrite testbit_1, testbit_2 by lia.
    destruct (Z.eqb_spec k 0), (Z.eqb_spec k 1); subst;
      rewrite ?orb_true_r, ?orb_false_r; try reflexivity; lia.
  - rewrite u16_bits_low, Z.land_spec, u16_bits_low, Z.lor_spec by lia.
    rewrite Z.lnot_spec by lia.
    rewrite testbit_1, testbit_2 by lia.
    destruct (Z.eqb_spec k 0), (Z.eqb_spec k 1); subst; cbn;
      rewrite ?orb_true_r, ?orb_false_r, ?andb_true_r, ?andb_false_r;
      try reflexivity; lia.
Qed.

(** C5: after [write_super_block], however it ended, the state field of
    the in-memory super block has VALID_FS set, has ERROR_FS set exactly
    when [errors_uncorrected] is, and keeps its other fourteen bits. *)
Theorem write_super_block_flags g :
  let g' := final (write_super_block g) in
  Z.testbit (s_state (Super g')) 0 = true
  /\ Z.testbit (s_state (Super g')) 1 = errors_uncorrected g
  /\ (forall k, 2 <= k < 16 ->
        Z.testbit (s_state (Super g')) k = Z.testbit (s_state (Super g)) k)
  /\ 0 <= s_state (Super g') < 2 ^ 16.
Proof.
  cbv zeta. destruct (write_super_block_state g) as [E _]. rewrite E.
  split; [|split; [|split]].
  - rewrite new_state_bits by lia. reflexivity.
  - rewrite new_state_bits by lia. reflexivity.
  - intros k Hk. rewrite new_state_bits by lia.
    destruct (Z.eqb_spec k 0); [lia|]. destruct (Z.eqb_spec k 1); [lia|].
    reflexivity.
  - unfold new_state. destruct (errors_uncorrected g); apply u16_range.
Qed.

Lemma write_super_block_flags_witness :
  Z.testbit (s_state (Super (final (write_super_block
     (Fixture.loaded (Fixture.clean_v1 0x0012)))))) 4
  = Z.testbit (s_state (Super (Fixture.loaded (Fixture.clean_v1 0x0012)))) 4.
Proof.
  apply (proj1 (proj2 (proj2 (write_super_block_flags
           (Fixture.loaded (Fixture.clean_v1 0x0012)))))).
  lia.
Defined.

(** ** C6: write_block *)

Lemma get_current_name_globals g :
  final (get_current_name g) = g.
Proof.
  unfold get_current_name, bind, gets, ret, stop_with.
  destruct (name_depth g <=? 0); [reflexivity|].
  destruct (render_names _ _ _ _) as [[a i]|s]; reflexivity.
Qed.

Lemma get_current_name_cases g :
  (exists name, get_current_name g = Ok name g)
  \/ (exists w, get_current_name g = Stop w g).
Proof.
  pose proof (get_current_name_globals g) as E.
  destruct (get_current_name g) as [name g'|w g']; simpl in E; subst;
    [left | right]; eauto.
Qed.

(** C6 (as stated it fails for block 0): on a checked image without any
    recorded error, [write_block(0, buf)] writes nothing and leaves
    [errors_uncorrected] clear. *)
Lemma write_block_zero_keeps_flag :
  let g := Fixture.loaded (Fixture.clean_v1 1) in
  errors_uncorrected g = false
  /\ write_block 0 zero_block g = Ok tt g
  /\ errors_uncorrected (final (write_block 0 zero_block g)) = false.
Proof. cbv zeta. repeat split. Qed.

(** C6, amended: [write_block(0, buf)] returns at once, leaving the
    globals as they are; a nonzero block number outside [FIRSTZONE, ZONES)
    is not written, and the request is reported and raises
    [errors_uncorrected]; a failed seek is fatal, nothing being written; a
    failed [write] is issued once, the device keeps its contents, and when
    the function returns the failure has been reported and
    [errors_uncorrected] is raised. *)
Theorem write_block_cases g nr buf :
  let n := u32 nr in
  let pos := u32 (BLOCK_SIZE * n) in
  let w := Write (W_block (pos / BLOCK_SIZE) buf) in
  (n = 0 -> write_block nr buf g = Ok tt g)
  /\ (n <> 0 -> n < FIRSTZONE g \/ ZONES g <= n ->
      write_block nr buf g
      = Ok tt (set_errors_uncorrected true
                 (log (Printed Write_request_ignored) g)))
  /\ (n <> 0 -> FIRSTZONE g <= n < ZONES g ->
      dev_seek_ok (IN g) pos = false ->
      write_block nr buf g = Stop (Stop_leave 8) (log (Printed Fatal_error) g))
  /\ (n <> 0 -> FIRSTZONE g <= n < ZONES g ->
      dev_seek_ok (IN g) pos = true ->
      dev_write_ok (IN g) pos = false ->
      match write_block nr buf g with
      | Ok _ g' =>
          errors_uncorrected g' = true /\ IN g' = IN g
          /\ exists name,
               out g' = out g ++ [w; Printed (Write_error_bad_block name)]
      | Stop _ g' => IN g' = IN g /\ out g' = out g ++ [w]
      end).
Proof.
  cbv zeta. unfold write_block.
  split; [|split; [|split]].
  - intros E. rewrite E. reflexivity.
  - intros N H. destruct (Z.eqb_spec (u32 nr) 0); [contradiction|].
    unfold bind, gets, printf, modify.
    destruct (Z.ltb_spec (u32 nr) (FIRSTZONE g)),
      (Z.geb_spec (u32 nr) (ZONES g)); try reflexivity; lia.
  - intros N H Hs. destruct (Z.eqb_spec (u32 nr) 0); [contradiction|].
    unfold bind, gets, printf, modify, die, leave, stop_with, bind.
    destruct (Z.ltb_spec (u32 nr) (FIRSTZONE g)); [lia|].
    destruct (Z.geb_spec (u32 nr) (ZONES g)); [lia|].
    cbv beta iota. cbn [orb]. cbv beta iota. rewrite Hs. reflexivity.
  - intros N H Hs Hw. destruct (Z.eqb_spec (u32 nr) 0); [contradiction|].
    mred.
    destruct (Z.ltb_spec (u32 nr) (FIRSTZONE g)); [lia|].
    destruct (Z.geb_spec (u32 nr) (ZONES g)); [lia|].
    mred. rewrite Hs. mred. rewrite Hw.
    destruct (get_current_name_cases
                (log (Write (W_block (u32 (BLOCK_SIZE * u32 nr) / BLOCK_SIZE)
                               buf)) g)) as [[name E]|[w E]];
      rewrite E.
    + mred. cbn. repeat split. exists name. rewrite <- app_assoc.
      reflexivity.
    + cbn. split; reflexivity.
Qed.

Lemma write_block_cases_witness :
  let g := Fixture.loaded (Fixture.clean_v1 1) in
  write_block 0 zero_block g = Ok tt g
  /\ write_block 3 zero_block g
     = Ok tt (set_errors_uncorrected true
                (log (Printed Write_request_ignored) g))
  /\ write_block 16 zero_block g
     = Ok tt (set_errors_uncorrected true
                (log (Printed Write_request_ignored) g)).
Proof.
  cbv zeta.
  pose proof (write_block_cases (Fixture.loaded (Fixture.clean_v1 1)) 0
                zero_block) as H0.
  pose proof (write_block_cases (Fixture.loaded (Fixture.clean_v1 1)) 3
                zero_block) as H3.
  pose proof (write_block_cases (Fixture.loaded (Fixture.clean_v1 1)) 16
                zero_block) as H16.
  cbv zeta in H0, H3, H16.
  split; [|split].
  - apply (proj1 H0). reflexivity.
  - apply (proj1 (proj2 H3)); [discriminate | left; vm_compute; reflexivity].
  - apply (proj1 (proj2 H16));
      [discriminate | right; vm_compute; discriminate].
Defined.

(** ** C7: the directory stride when no ".." is found *)

Lemma check_sizes_globals g g' :
  check_sizes g = Ok tt g' -> g' = g.
Proof.
  unfold check_sizes. mred.
  destruct (negb (ZONESIZE g =? 0) || negb (BLOCK_SIZE =? 1024)); mred;
    [discriminate|].
  destruct (IMAPS g * BLOCK_SIZE * 8 <? INODES g + 1); mred; [discriminate|].
  destruct (ZMAPS g * BLOCK_SIZE * 8 <? ulong (ZONES g - FIRSTZONE g + 1));
    mred; [discriminate|].
  intros H. injection H as <-. reflexivity.
Qed.

(** What [read_superblock] leaves when it returns. *)
Lemma read_superblock_inv g0 g1 :
  read_superblock g0 = Ok tt g1 ->
  exists sb s n v2,
    g1 = set_dir s n v2 (set_Super (norm_super sb) g0)
    /\ (s, n) = magic_dir (u16 (s_magic sb))
    /\ check_sizes g1 = Ok tt g1.
Proof.
  unfold read_superblock. mred.
  destruct (dev_seek_ok (IN g0) BLOCK_SIZE); mred; [|discriminate].
  destruct (dev_super (IN g0)) as [sb|]; mred; [|discriminate].
  unfold MAGIC. cbn [Super set_Super norm_super s_magic].
  destruct (Z.eqb_spec (u16 (s_magic sb)) MINIX_SUPER_MAGIC) as [E1|N1]; mred.
  2: destruct (Z.eqb_spec (u16 (s_magic sb)) MINIX_SUPER_MAGIC2) as [E2|N2];
       mred.
  3: destruct (Z.eqb_spec (u16 (s_magic sb)) MINIX2_SUPER_MAGIC) as [E3|N3];
       mred.
  4: destruct (Z.eqb_spec (u16 (s_magic sb)) MINIX2_SUPER_MAGIC2) as [E4|N4];
       mred.
  5: discriminate.
  all: intros H; pose proof (check_sizes_globals _ _ H) as ->;
    do 4 eexists; (split; [reflexivity|]); (split; [|exact H]).
  - rewrite E1. reflexivity.
  - rewrite E2. reflexivity.
  - rewrite E3. reflexivity.
  - rewrite E4. reflexivity.
Qed.

Lemma read_superblock_dirsize g0 g1 :
  read_superblock g0 = Ok tt g1 ->
  (dirsize g1, namelen g1) = magic_dir (MAGIC g1).
Proof.
  intros H. destruct (read_superblock_inv g0 g1 H) as (sb & s & n & v2 & -> & E & _).
  exact E.
Qed.

Lemma read_block_dir nr g :
  dirsize (final (read_block nr g)) = dirsize g
  /\ namelen (final (read_block nr g)) = namelen g.
Proof.
  unfold read_block. destruct (u32 nr =? 0); [split; reflexivity|]. mred.
  destruct (dev_seek_ok (IN g) _); mred.
  - destruct (dev_block (IN g) _) as [b|]; mred.
    + destruct (Z.of_nat (List.length b) =? BLOCK_SIZE); mred;
        [split; reflexivity|].
      destruct (get_current_name_cases g) as [[n E]|[w E]]; rewrite E;
        split; reflexivity.
    + destruct (get_current_name_cases g) as [[n E]|[w E]]; rewrite E;
        split; reflexivity.
  - destruct (get_current_name_cases g) as [[n E]|[w E]]; rewrite E;
      split; reflexivity.
Qed.

Lemma root_dir_block_dir g blk g' :
  root_dir_block g = Ok blk g' ->
  dirsize g' = dirsize g /\ namelen g' = namelen g /\ version2 g' = version2 g.
Proof.
  unfold root_dir_block, get_slot, get_Inode, index. mred.
  destruct (zget (Inode g) (ROOT_INO - 1)) as [x|]; mred; [|discriminate].
  destruct ((0 <? 0) || (slots (if version2 g then V2 else V1) <=? 0)); mred;
    [discriminate|].
  destruct (zget (i_zone x) 0) as [z|]; mred; [|discriminate].
  intros H.
  pose proof (read_block_dir (as_int (if version2 g then V2 else V1) z) g)
    as [Hd Hn].
  rewrite H in Hd, Hn. cbn in Hd, Hn. repeat split; try assumption.
  clear Hd Hn. revert H. unfold read_block.
  destruct (u32 _ =? 0); mred; [intros H; injection H as <- <-; reflexivity|].
  destruct (dev_seek_ok (IN g) _); mred.
  - destruct (dev_block (IN g) _) as [b|]; mred.
    + destruct (Z.of_nat (List.length b) =? BLOCK_SIZE); mred;
        [intros H; injection H as <- <-; reflexivity|].
      destruct (get_current_name_cases g) as [[n E]|[w E]]; rewrite E;
        intros H; [injection H as <- <-; reflexivity | discriminate].
    + destruct (get_current_name_cases g) as [[n E]|[w E]]; rewrite E;
        intros H; [injection H as <- <-; reflexivity | discriminate].
  - destruct (get_current_name_cases g) as [[n E]|[w E]]; rewrite E;
      intros H; [injection H as <- <-; reflexivity | discriminate].
Qed.

(** The scan finds nothing exactly when none of the six offsets holds
    "..". *)
Lemma get_dirsize_loop_none blk :
  get_dirsize_loop 7 blk 16 = None <->
  forall size, In size [16; 32; 64; 128; 256; 512] ->
    strcmp_eq (skipn (Z.to_nat (size + 2)) blk) [46; 46] = false.
Proof.
  cbn [get_dirsize_loop]. change (16 <? BLOCK_SIZE) with true.
  change (Z.shiftl 16 1) with 32. change (32 <? BLOCK_SIZE) with true.
  change (Z.shiftl 32 1) with 64. change (64 <? BLOCK_SIZE) with true.
  change (Z.shiftl 64 1) with 128. change (128 <? BLOCK_SIZE) with true.
  change (Z.shiftl 128 1) with 256. change (256 <? BLOCK_SIZE) with true.
  change (Z.shiftl 256 1) with 512. change (512 <? BLOCK_SIZE) with true.
  change (Z.shiftl 512 1) with 1024. change (1024 <? BLOCK_SIZE) with false.
  cbv iota.
  split.
  - intros H size Hin.
    destruct (strcmp_eq (skipn (Z.to_nat (16 + 2)) blk) [46; 46]) eqn:E1;
      [discriminate|].
    destruct (strcmp_eq (skipn (Z.to_nat (32 + 2)) blk) [46; 46]) eqn:E2;
      [discriminate|].
    destruct (strcmp_eq (skipn (Z.to_nat (64 + 2)) blk) [46; 46]) eqn:E3;
      [discriminate|].
    destruct (strcmp_eq (skipn (Z.to_nat (128 + 2)) blk) [46; 46]) eqn:E4;
      [discriminate|].
    destruct (strcmp_eq (skipn (Z.to_nat (256 + 2)) blk) [46; 46]) eqn:E5;
      [discriminate|].
    destruct (strcmp_eq (skipn (Z.to_nat (512 + 2)) blk) [46; 46]) eqn:E6;
      [discriminate|].
    cbn in Hin. intuition (subst; assumption).
  - intros H.
    rewrite (H 16), (H 32), (H 64), (H 128), (H 256), (H 512);
      cbn; intuition.
Qed.

(** C7 (as stated it fails for the magic numbers of 30-byte names): on a
    version 1 image with magic 0x138F whose root block holds no "..", the
    scan finds nothing and the stride and name length stay 32 and 30. *)
Lemma get_dirsize_default_not_16 :
  let g := Fixture.loaded Fixture.blank_root_v1_30 in
  MAGIC g = MINIX_SUPER_MAGIC2
  /\ (exists g', root_dir_block g = Ok zero_block g')
  /\ get_dirsize_loop 7 zero_block 16 = None
  /\ dirsize (final (get_dirsize g)) = 32
  /\ namelen (final (get_dirsize g)) = 30.
Proof.
  cbv zeta. repeat split; try (vm_compute; reflexivity).
  eexists. vm_compute. reflexivity.
Qed.

(** C7, amended: once [read_superblock] has returned, the stride and name
    length are 16 and 14 for the magic numbers 0x137F and 0x2468, 32 and
    30 for 0x138F and 0x2478; and when the scan of the root directory's
    first block finds no "..", [get_dirsize] returns leaving them so. *)
Theorem get_dirsize_keeps_magic_defaults g0 g1 g blk g' :
  read_superblock g0 = Ok tt g1 ->
  dirsize g = dirsize g1 -> namelen g = namelen g1 ->
  root_dir_block g = Ok blk g' ->
  get_dirsize_loop 7 blk 16 = None ->
  get_dirsize g = Ok tt g'
  /\ (dirsize g', namelen g') = magic_dir (MAGIC g1).
Proof.
  intros Hsb Hd Hn Hblk Hscan.
  destruct (root_dir_block_dir g blk g' Hblk) as (Hd' & Hn' & _).
  split.
  - unfold get_dirsize. unfold bind at 1. rewrite Hblk. mred.
    rewrite Hscan. reflexivity.
  - rewrite Hd', Hn', Hd, Hn. exact (read_superblock_dirsize g0 g1 Hsb).
Qed.

Lemma get_dirsize_keeps_magic_defaults_witness :
  exists g',
    get_dirsize (Fixture.loaded Fixture.blank_root_v1_30) = Ok tt g'
    /\ (dirsize g', namelen g') = (32, 30).
Proof.
  eexists.
  refine (get_dirsize_keeps_magic_defaults
            (set_IN Fixture.blank_root_v1_30
               (initial (Fixture.world_of Fixture.blank_root_v1_30)))
            (final (read_superblock
               (set_IN Fixture.blank_root_v1_30
                  (initial (Fixture.world_of Fixture.blank_root_v1_30)))))
            (Fixture.loaded Fixture.blank_root_v1_30) zero_block _
            _ _ _ _ _).
  - vm_compute. reflexivity.
  - vm_compute. reflexivity.
  - vm_compute. reflexivity.
  - vm_compute. reflexivity.
  - vm_compute. reflexivity.
Defined.

(** ** C9: the name stack beyond MAX_DEPTH *)

Lemma copy_name_defined len : forall row,
  (len <= List.length row)%nat -> copy_name len row <> None.
Proof.
  induction len as [|len IH]; intros row H; simpl; [discriminate|].
  destruct row as [|c row]; [simpl in H; lia|].
  destruct (c =? 0); [discriminate|].
  specialize (IH row ltac:(simpl in H; lia)).
  destruct (copy_name len row); [discriminate | contradiction].
Qed.

Lemma render_names_overflow names len :
  (forall row, In row names -> (len <= List.length row)%nat) ->
  forall todo i,
    0 <= i <= Z.of_nat (List.length names) ->
    Z.of_nat (List.length names) < i + Z.of_nat todo ->
    render_names names len i todo
    = inl (A_name_list, Z.of_nat (List.length names)).
Proof.
  intros Hrows todo. induction todo as [|todo IH]; intros i Hi Hlt.
  - simpl in Hlt. lia.
  - cbn [render_names]. unfold zget.
    destruct (Z.ltb_spec i 0); [lia|].
    destruct (nth_error names (Z.to_nat i)) as [p|] eqn:E.
    + assert (Hp : In p names) by (eapply nth_error_In; exact E).
      pose proof (copy_name_defined len p (Hrows p Hp)) as Hc.
      destruct (copy_name len p) as [c|]; [|contradiction].
      assert (Hlen : (Z.to_nat i < List.length names)%nat)
        by (apply nth_error_Some; rewrite E; discriminate).
      rewrite IH by lia. reflexivity.
    + apply nth_error_None in E.
      replace i with (Z.of_nat (List.length names)) by lia. reflexivity.
Qed.

(** With more than [MAX_DEPTH] names pushed, [get_current_name] reads the
    row after the last one of [name_list]. *)
Lemma get_current_name_overflow g :
  Z.of_nat (List.length (name_list g)) = MAX_DEPTH ->
  (forall row, In row (name_list g) ->
     (Z.to_nat (namelen g) <= List.length row)%nat) ->
  MAX_DEPTH < name_depth g ->
  get_current_name g = Stop (Out_of_bounds A_name_list MAX_DEPTH) g.
Proof.
  intros Hlen Hrows Hd. unfold get_current_name. mred.
  destruct (Z.leb_spec (name_depth g) 0); [unfold MAX_DEPTH in Hd; lia|].
  rewrite (render_names_overflow (name_list g) (Z.to_nat (namelen g)) Hrows)
    by lia.
  rewrite Hlen. reflexivity.
Qed.

(** C9 (does not hold of the code): on a consistent image with 52 nested
    directories the traversal runs to its end and exits with 0; with -l,
    which prints the path of every entry, the run stops at depth 51 on the
    read of [name_list[50]], outside the 50 rows of the name stack. *)
Theorem name_stack_overflow_run :
  (exists g, run 100 ["mfsck"; "img"]%string
               (Fixture.world_of (Fixture.chain 52)) = Ok 0 g)
  /\ (exists g, run 100 ["mfsck"; "-l"; "img"]%string
                  (Fixture.world_of (Fixture.chain 52))
                = Stop (Out_of_bounds A_name_list 50) g
                /\ name_depth g = 51).
Proof.
  split.
  - eexists. vm_compute. reflexivity.
  - eexists. split; vm_compute; reflexivity.
Qed.

(** ** C10: zone numbers that reach zone_count *)

Lemma render_names_fault names len : forall todo i a j,
  render_names names len i todo = inl (a, j) ->
  a = A_name_list \/ a = A_name_row.
Proof.
  induction todo as [|todo IH]; intros i a j; cbn [render_names];
    [discriminate|].
  destruct (zget names i) as [p|]; [|intros H; injection H; auto].
  destruct (copy_name len p) as [c|]; [|intros H; injection H; auto].
  destruct (render_names names len (i + 1) todo) as [[a' j']|rest] eqn:E;
    [|discriminate].
  intros H. injection H as <- <-. exact (IH _ _ _ E).
Qed.

Lemma get_current_name_stop g w g' :
  get_current_name g = Stop w g' -> name_fault w /\ g' = g.
Proof.
  unfold get_current_name. mred.
  destruct (name_depth g <=? 0); [discriminate|].
  destruct (render_names _ _ _ _) as [[a i]|s] eqn:E; [|discriminate].
  intros H. injection H as <- <-. split; [|reflexivity].
  exists i. destruct (render_names_fault _ _ _ _ _ _ E); subst; auto.
Qed.

Lemma get_current_name_ok g name g' :
  get_current_name g = Ok name g' -> g' = g.
Proof.
  intros H. pose proof (get_current_name_globals g) as E.
  rewrite H in E. exact E.
Qed.

Lemma ulong_le_bound x b :
  - 2 ^ 63 <= x < 2 ^ 63 -> b < 2 ^ 63 -> ulong x <= b -> 0 <= x <= b.
Proof.
  unfold ulong, wrap. intros Hx Hb H.
  destruct (Z.neg_nonneg_cases x) as [N|P].
  - replace x with (x + 2 ^ 64 + (-1) * 2 ^ 64) in H by lia.
    rewrite Z.mod_add in H by lia. rewrite Z.mod_small in H by lia. lia.
  - rewrite Z.mod_small in H by lia. lia.
Qed.

Lemma wrap_range w x : 0 <= w -> 0 <= wrap w x < 2 ^ w.
Proof. intros H. unfold wrap. apply Z.mod_pos_bound. lia. Qed.

Lemma read_superblock_geometry g0 g1 :
  read_superblock g0 = Ok tt g1 -> checked_geometry g1.
Proof.
  intros H.
  destruct (read_superblock_inv g0 g1 H) as (sb & s & n & v2 & E & _ & Hc).
  revert Hc. unfold check_sizes. mred.
  destruct (negb (ZONESIZE g1 =? 0) || negb (BLOCK_SIZE =? 1024)); mred;
    [discriminate|].
  destruct (Z.ltb_spec (IMAPS g1 * BLOCK_SIZE * 8) (INODES g1 + 1)); mred;
    [discriminate|].
  destruct (Z.ltb_spec (ZMAPS g1 * BLOCK_SIZE * 8)
              (ulong (ZONES g1 - FIRSTZONE g1 + 1))); mred; [discriminate|].
  intros _.
  assert (Hf : 0 <= FIRSTZONE g1 < 2 ^ 16)
    by (subst g1; apply (wrap_range 16); lia).
  assert (Hm : 0 <= ZMAPS g1 < 2 ^ 16)
    by (subst g1; apply (wrap_range 16); lia).
  assert (Hi : 0 <= INODES g1 < 2 ^ 16)
    by (subst g1; apply (wrap_range 16); lia).
  assert (Hz : 0 <= ZONES g1 < 2 ^ 32).
  { subst g1. unfold ZONES.
    cbn [version2 set_dir Super set_Super norm_super s_zones s_nzones].
    destruct v2; [apply (wrap_range 32); lia|].
    pose proof (wrap_range 16 (s_nzones sb)). unfold u16. lia. }
  unfold BLOCK_SIZE in *.
  pose proof (ulong_le_bound (ZONES g1 - FIRSTZONE g1 + 1)
                (ZMAPS g1 * 1024 * 8)) as Hb.
  unfold checked_geometry, BLOCK_SIZE. lia.
Qed.

Lemma keeps_refl g : keeps g g.
Proof. constructor; reflexivity. Qed.

Lemma keeps_trans g1 g2 g3 : keeps g1 g2 -> keeps g2 g3 -> keeps g1 g3.
Proof.
  intros [] []. constructor; etransitivity; eassumption.
Qed.

Lemma keeps_log e g : keeps g (log e g).
Proof. constructor; reflexivity. Qed.

Lemma keeps_set_errors b g : keeps g (set_errors_uncorrected b g).
Proof. constructor; reflexivity. Qed.

Lemma keeps_set_stdin l g : keeps g (set_stdin l g).
Proof. constructor; reflexivity. Qed.

(** [ask] always returns; it touches the flag, the input and the log. *)
Lemma ask_effect q d g :
  exists a g',
    ask q d g = Ok a g' /\ keeps g g'
    /\ out g' = out g ++ [Asked q d a]
    /\ errors_uncorrected g' = errors_uncorrected g || negb a
    /\ (repair (opts g) = false -> a = false).
Proof.
  unfold ask. mred.
  destruct (repair (opts g)) eqn:Er; mred.
  - destruct (automatic (opts g)); mred.
    + exists d. destruct d; mred; (eexists; split; [reflexivity|]);
        cbn; repeat split; try reflexivity; try discriminate;
        rewrite ?orb_false_r, ?orb_true_r; reflexivity.
    + destruct (ask_loop (stdin g) d) as [a rest]. mred.
      exists a. destruct a; mred; (eexists; split; [reflexivity|]);
        cbn; repeat split; try reflexivity; try discriminate;
        rewrite ?orb_false_r, ?orb_true_r; reflexivity.
  - exists false. eexists. split; [reflexivity|].
    cbn. repeat split; try reflexivity. rewrite orb_true_r. reflexivity.
Qed.

Lemma name_fault_not_zone_count w : name_fault w -> not_zone_count_fault w.
Proof. intros [i [-> | ->]] j; discriminate. Qed.

Lemma as_int_small v nr : 0 <= nr < 2 ^ 31 -> as_int v nr = nr.
Proof.
  intros H. destruct v; [reflexivity|]. unfold as_int, to_int.
  destruct (Z.ltb_spec nr (2 ^ 31)); [reflexivity | lia].
Qed.

(** The value [check_zone_nr] returns, and what it leaves alone. *)
Lemma check_zone_nr_range v nr c g :
  0 <= FIRSTZONE g -> ZONES g < 2 ^ 31 ->
  match check_zone_nr_ v nr c g with
  | Ok (r, nr', c') g' =>
      (r = 0 \/ FIRSTZONE g <= r < ZONES g)
      /\ Super g' = Super g /\ version2 g' = version2 g
      /\ zone_count g' = zone_count g /\ zone_map g' = zone_map g
  | Stop w g' => name_fault w
  end.
Proof.
  intros Hf Hz. unfold check_zone_nr_.
  destruct (Z.eqb_spec nr 0); [cbn; auto|]. mred.
  assert (A : forall g1, keeps g g1 ->
    match
      (a <- ask "Remove block" true ;;
       if a then corrected' <- assign_one c ;; ret (0, 0, corrected')
       else ret (0, nr, c)) g1
    with
    | Ok (r, nr', c') g' =>
        (r = 0 \/ FIRSTZONE g <= r < ZONES g)
        /\ Super g' = Super g /\ version2 g' = version2 g
        /\ zone_count g' = zone_count g /\ zone_map g' = zone_map g
    | Stop w g' => name_fault w
    end).
  { intros g1 K. unfold bind at 1.
    destruct (ask_effect "Remove block" true g1) as (a & g2 & E & K2 & _).
    rewrite E. pose proof (keeps_trans _ _ _ K K2) as [].
    destruct a; [destruct c|]; cbn; auto. }
  destruct (Z.ltb_spec nr (FIRSTZONE g)).
  - destruct (get_current_name_cases g) as [[name E]|[w E]]; rewrite E.
    + mred. apply A. apply keeps_log.
    + apply (get_current_name_stop _ _ _ E).
  - destruct (Z.geb_spec nr (ZONES g)).
    + destruct (get_current_name_cases g) as [[name E]|[w E]]; rewrite E.
      * mred. apply A. apply keeps_log.
      * apply (get_current_name_stop _ _ _ E).
    + mred. rewrite as_int_small by lia. auto.
Qed.


Lemma replace_nth_length {A : Type} (l : list A) : forall n x,
  List.length (replace_nth l n x) = List.length l.
Proof.
  induction l as [|h t IH]; intros [|n] x; simpl; auto.
Qed.

Lemma zset_in_range {A : Type} (l : list A) i x :
  0 <= i < Z.of_nat (List.length l) ->
  zset l i x = Some (replace_nth l (Z.to_nat i) x).
Proof.
  intros H. unfold zset. destruct (Z.ltb_spec i 0); [lia|].
  destruct (Z.leb_spec (Z.of_nat (List.length l)) i); [lia | reflexivity].
Qed.

Lemma bit_stop a buf i g w g' :
  bit a buf i g = Stop w g' -> w = Out_of_bounds a (i / 8).
Proof.
  unfold bit, index. mred. destruct (zget buf (i / 8)); mred;
    [discriminate | intros H; injection H as <- _; reflexivity].
Qed.

Lemma bit_ok a buf i g b g' :
  bit a buf i g = Ok b g' -> g' = g.
Proof.
  unfold bit, index. mred. destruct (zget buf (i / 8)); mred;
    [intros H; injection H as _ <-; reflexivity | discriminate].
Qed.

(** *** Running a function symbolically

    [mred] unfolds the monad; what is left to decide is a test, an array
    access or a call.  [sx_test] splits the outermost test, [sx_access] the
    outermost array access, [sx_name] and [sx_ask] replace a call of
    [get_current_name] or [ask] by its effect. *)

Ltac sx_test :=
  match goal with
  | |- context [if ?x =? ?y then _ else _] => destruct (Z.eqb_spec x y)
  | |- context [if ?x <? ?y then _ else _] => destruct (Z.ltb_spec x y)
  | |- context [if ?x <=? ?y then _ else _] => destruct (Z.leb_spec x y)
  | |- context [if ?x >? ?y then _ else _] =>
      rewrite (Z.gtb_ltb x y); destruct (Z.ltb_spec y x)
  | |- context [if ?x >=? ?y then _ else _] =>
      rewrite (Z.geb_leb x y); destruct (Z.leb_spec y x)
  | |- context [if negb (?x =? ?y) then _ else _] => destruct (Z.eqb_spec x y)
  | |- context [if negb (?x <? ?y) then _ else _] => destruct (Z.ltb_spec x y)
  | |- context [if negb ?b then _ else _] =>
      let E := fresh "E" in destruct b eqn:E
  | |- context [if ?b then _ else _] => let E := fresh "E" in destruct b eqn:E
  end; cbn [negb orb andb].

Ltac sx_access :=
  match goal with
  | |- context [match zget ?l ?i with Some _ => _ | None => _ end] =>
      let E := fresh "E" in destruct (zget l i) eqn:E
  | |- context [match zset ?l ?i ?x with Some _ => _ | None => _ end] =>
      let E := fresh "E" in destruct (zset l i x) eqn:E
  | |- context [match ?o with Some _ => _ | None => _ end] =>
      let E := fresh "E" in destruct o eqn:E
  end.

Ltac sx_name :=
  match goal with
  | |- context [get_current_name ?g] =>
      let E := fresh "E" in
      destruct (get_current_name_cases g) as [[? E]|[? E]]; rewrite E;
      [|apply get_current_name_stop in E; destruct E as [E _]]
  end.

Ltac sx_ask :=
  match goal with
  | |- context [ask ?q ?d ?g] =>
      let a := fresh "a" in
      let g' := fresh "g" in
      let E := fresh "E" in
      let K := fresh "K" in
      let Ho := fresh "Ho" in
      let He := fresh "He" in
      let Hr := fresh "Hr" in
      destruct (ask_effect q d g) as (a & g' & E & K & Ho & He & Hr);
      rewrite E; clear E
  end.

Ltac unfold_access :=
  cbv beta iota delta
    [index assign bit setbit clrbit inode_in_use zone_in_use mark_inode
     unmark_inode mark_zone unmark_zone get_Inode put_Inode get_slot put_slot
     assign_one deref].

Ltac sx :=
  repeat first
    [ progress mred
    | progress unfold_access
    | sx_name
    | sx_ask
    | sx_access
    | sx_test ].

Lemma zget_defined {A : Type} (l : list A) i :
  zget l i = None -> i < 0 \/ Z.of_nat (List.length l) <= i.
Proof.
  unfold zget. destruct (Z.ltb_spec i 0); [auto|].
  intros E. apply nth_error_None in E. lia.
Qed.

Lemma zset_defined {A : Type} (l : list A) i x :
  zset l i x = None -> i < 0 \/ Z.of_nat (List.length l) <= i.
Proof.
  unfold zset. destruct (Z.ltb_spec i 0); [auto|].
  destruct (Z.leb_spec (Z.of_nat (List.length l)) i); [auto | discriminate].
Qed.

Lemma zset_length {A : Type} (l l' : list A) i x :
  zset l i x = Some l' -> List.length l' = List.length l.
Proof.
  unfold zset. destruct (i <? 0); [discriminate|].
  destruct (Z.of_nat (List.length l) <=? i); [discriminate|].
  intros H. injection H as <-. apply replace_nth_length.
Qed.

Lemma replace_nth_other {A : Type} (l : list A) : forall n m x,
  n <> m -> nth_error (replace_nth l n x) m = nth_error l m.
Proof.
  induction l as [|h t IH]; intros [|n] [|m] x H; simpl; auto;
    try contradiction.
Qed.

Lemma zset_other {A : Type} (l l' : list A) i j x :
  zset l j x = Some l' -> i <> j -> zget l' i = zget l i.
Proof.
  unfold zset, zget. destruct (Z.ltb_spec j 0); [discriminate|].
  destruct (Z.of_nat (List.length l) <=? j); [discriminate|].
  intros E N. injection E as <-. destruct (Z.ltb_spec i 0); [reflexivity|].
  apply replace_nth_other. lia.
Qed.

(** [add_zone] reads and writes [zone_count] at the zone [check_zone_nr]
    returned, and nowhere else. *)
Lemma add_zone_range v nr c g :
  0 <= FIRSTZONE g -> ZONES g < 2 ^ 31 ->
  Z.of_nat (List.length (zone_count g)) = ZONES g ->
  match add_zone_ v nr c g with
  | Ok (r, nr', c') g' =>
      (r = 0 \/ FIRSTZONE g <= r < ZONES g)
      /\ Super g' = Super g /\ version2 g' = version2 g
      /\ zone_count_kept g g'
  | Stop w g' => not_zone_count_fault w
  end.
Proof.
  intros Hf Hz Hlen. unfold add_zone_. unfold bind at 1.
  pose proof (check_zone_nr_range v nr c g Hf Hz) as H1.
  destruct (check_zone_nr_ v nr c g) as [[[blk nr1] c1] g1|w g1];
    [|apply name_fault_not_zone_count; exact H1].
  destruct H1 as (Hr & HS & Hv & Hzc & Hzm).
  sx.
  all: unfold zone_count_kept.
  all: repeat match goal with
         | K : keeps _ _ |- _ => destruct K
         | H : zset _ _ _ = Some _ |- _ =>
             pose proof (zset_length _ _ _ _ H);
             pose proof (fun i => zset_other _ _ i _ _ H); clear H
         | H : zget (zone_count _) _ = None |- _ => apply zget_defined in H
         | H : zset (zone_count _) _ _ = None |- _ => apply zset_defined in H
         end.
  all: cbn [Super version2 zone_count zone_map set_zone_count set_zone_map
            set_changed log set_errors_uncorrected] in *.
  all: try (apply name_fault_not_zone_count; assumption).
  all: try (intros ?; discriminate).
  all: try (exfalso; destruct Hr as [?|Hr]; [contradiction|];
            repeat match goal with
              | H : zone_count ?a = zone_count ?b |- _ =>
                  rewrite H in *; clear H
              end; lia).
  all: repeat match goal with
         | H : zone_count ?a = zone_count ?b |- _ => rewrite H in *; clear H
         end.
  all: try (repeat split; try congruence; auto; try lia;
            intros i Hi;
            match goal with
            | H : forall i, i <> ?b -> zget ?l i = _ |- zget ?l _ = _ =>
                apply H; destruct Hr as [?|Hr]; [contradiction | lia]
            end).
Qed.

(** C10: once [read_superblock] has accepted the super block, and as long
    as the super block and the size of [zone_count] are what
    [read_superblock] and [read_tables] left, every value returned by
    [check_zone_nr], [check_zone_nr2], [add_zone] and [add_zone2] is 0 or
    lies in [FIRSTZONE, ZONES); [add_zone] and [add_zone2] never index
    [zone_count] outside its [ZONES] entries, and leave its entries outside
    [FIRSTZONE, ZONES) as they were. *)
Theorem zone_numbers_in_range g0 g1 g v nr c :
  read_superblock g0 = Ok tt g1 ->
  Super g = Super g1 -> version2 g = version2 g1 ->
  Z.of_nat (List.length (zone_count g)) = ZONES g ->
  match check_zone_nr_ v nr c g with
  | Ok (r, _, _) _ => r = 0 \/ FIRSTZONE g <= r < ZONES g
  | Stop _ _ => True
  end
  /\ match add_zone_ v nr c g with
     | Ok (r, _, _) g' =>
         (r = 0 \/ FIRSTZONE g <= r < ZONES g) /\ zone_count_kept g g'
     | Stop w _ => forall i, w <> Out_of_bounds A_zone_count i
     end.
Proof.
  intros Hsb HS Hv Hlen.
  destruct (read_superblock_geometry g0 g1 Hsb) as (Hf & Hz & _).
  assert (Hf' : 0 <= FIRSTZONE g) by (unfold FIRSTZONE in *; rewrite HS; lia).
  assert (Hz' : ZONES g < 2 ^ 31)
    by (unfold ZONES in *; rewrite HS, Hv; lia).
  split.
  - pose proof (check_zone_nr_range v nr c g Hf' Hz') as H.
    destruct (check_zone_nr_ v nr c g) as [[[r nr'] c'] g'|w g'];
      [apply H | exact I].
  - pose proof (add_zone_range v nr c g Hf' Hz' Hlen) as H.
    destruct (add_zone_ v nr c g) as [[[r nr'] c'] g'|w g'];
      [split; apply H | exact H].
Qed.

Lemma zone_numbers_in_range_witness :
  let g := Fixture.loaded (Fixture.clean_v1 1) in
  match check_zone_nr 5 Ref_changed g with
  | Ok (r, _, _) _ => r = 0 \/ FIRSTZONE g <= r < ZONES g
  | Stop _ _ => True
  end
  /\ match add_zone 5 Ref_changed g with
     | Ok (r, _, _) g' =>
         (r = 0 \/ FIRSTZONE g <= r < ZONES g) /\ zone_count_kept g g'
     | Stop w _ => forall i, w <> Out_of_bounds A_zone_count i
     end.
Proof.
  cbv zeta.
  apply (zone_numbers_in_range
           (set_IN (Fixture.clean_v1 1)
              (initial (Fixture.world_of (Fixture.clean_v1 1))))
           (final (read_superblock
              (set_IN (Fixture.clean_v1 1)
                 (initial (Fixture.world_of (Fixture.clean_v1 1))))))
           (Fixture.loaded (Fixture.clean_v1 1)) V1 5 Ref_changed);
    vm_compute; reflexivity.
Defined.

(** ** C3: the zones check_counts passes over *)





(** ** Runs without repair mode *)

Lemma same_refl g : same g g.
Proof.
  constructor; try reflexivity.
  exists []. split; [symmetry; apply app_nil_r | constructor].
Qed.

Lemma same_trans g1 g2 g3 : same g1 g2 -> same g2 g3 -> same g1 g3.
Proof.
  intros [? ? ? ? ? ? ? ? ? (l1 & E1 & F1)] [? ? ? ? ? ? ? ? ? (l2 & E2 & F2)].
  constructor; try (etransitivity; eassumption).
  exists (l1 ++ l2). split.
  - rewrite E2, E1, app_assoc. reflexivity.
  - apply Forall_app. split; assumption.
Qed.

Lemma calmly_refl g : Safe g -> calmly g g.
Proof. intros H. split; [exact H | left; apply same_refl]. Qed.

Lemma calmly_trans g1 g2 g3 : calmly g1 g2 -> calmly g2 g3 -> calmly g1 g3.
Proof.
  intros [_ H12] [S3 H23]. split; [exact S3|].
  destruct H23 as [H23|F]; [|auto].
  destruct H12 as [H12|F]; [left; eapply same_trans; eassumption|].
  right. rewrite (s_errors _ _ H23). exact F.
Qed.

Lemma calmly_Safe g g' : calmly g g' -> Safe g'.
Proof. intros [H _]. exact H. Qed.

Lemma quiet_app l l' : quiet l -> quiet l' -> quiet (l ++ l').
Proof. intros H H'. apply Forall_app. split; assumption. Qed.

(** The base of a stack of field updates. *)
Ltac base_of X :=
  lazymatch X with
  | set_changed _ ?Y => base_of Y
  | set_errors_uncorrected _ ?Y => base_of Y
  | set_dir _ _ _ ?Y => base_of Y
  | set_name_depth _ ?Y => base_of Y
  | set_name_list _ ?Y => base_of Y
  | set_Super _ ?Y => base_of Y
  | set_inode_map _ ?Y => base_of Y
  | set_zone_map _ ?Y => base_of Y
  | set_Inode _ ?Y => base_of Y
  | set_inode_count _ ?Y => base_of Y
  | set_zone_count _ ?Y => base_of Y
  | set_IN _ ?Y => base_of Y
  | set_stdin _ ?Y => base_of Y
  | set_opts _ ?Y => base_of Y
  | log _ ?Y => base_of Y
  | _ => X
  end.

Ltac proj_red :=
  cbn [opts tty changed errors_uncorrected dirsize namelen version2 name_depth
       name_list Super inode_map zone_map Inode inode_count zone_count IN
       stdin out
       set_changed set_errors_uncorrected set_dir set_name_depth set_name_list
       set_Super set_inode_map set_zone_map set_Inode set_inode_count
       set_zone_count set_IN set_stdin set_opts log].

Ltac proj_red_in H :=
  cbn [opts tty changed errors_uncorrected dirsize namelen version2 name_depth
       name_list Super inode_map zone_map Inode inode_count zone_count IN
       stdin out
       set_changed set_errors_uncorrected set_dir set_name_depth set_name_list
       set_Super set_inode_map set_zone_map set_Inode set_inode_count
       set_zone_count set_IN set_stdin set_opts log] in H.

(** [quiet] of a log extended by messages and declined questions. *)
Ltac quiet_tac :=
  repeat first
    [ assumption
    | apply quiet_app
    | apply Forall_cons
    | apply Forall_nil
    | exact I
    | reflexivity ].

(** [Safe b] from the hypotheses. *)
Ltac safe_base := first [assumption | eapply calmly_Safe; eassumption].

(** [Safe X] for a stack [X] over a state known to be [Safe]. *)
Ltac safe_tac :=
  lazymatch goal with
  | |- Safe ?X =>
      let b := base_of X in
      let HS := fresh "HS" in
      assert (HS : Safe b) by safe_base;
      destruct HS as (? & ? & ?);
      unfold Safe; proj_red;
      split; [assumption | split; [assumption | quiet_tac]]
  end.

(** [calmly b X] for a stack [X] over [b]. *)
Ltac calm_stack :=
  lazymatch goal with
  | |- calmly ?b ?X =>
      split;
      [ safe_tac
      | first [ right; reflexivity
              | left; constructor; proj_red;
                first
                  [ reflexivity
                  | eexists; split;
                    [ first [ symmetry; apply app_nil_r
                            | rewrite <- ?app_assoc; reflexivity ]
                    | repeat constructor ] ] ] ]
  end.

(** [calmly g X] along the hypotheses. *)
Ltac calm :=
  lazymatch goal with
  | |- calmly ?g ?g => apply calmly_refl; first [assumption | safe_tac]
  | |- calmly ?g ?X =>
      first
        [ assumption
        | let b := base_of X in
          first
            [ constr_eq b X;
              match goal with
              | H : calmly ?Y X |- _ =>
                  apply (calmly_trans g Y X); [calm | exact H]
              end
            | apply (calmly_trans g b X); [calm | calm_stack] ] ]
  end.

Lemma ask_ro q d g :
  repair (opts g) = false ->
  ask q d g
  = Ok false (log (Asked q d false) (set_errors_uncorrected true g)).
Proof. intros H. unfold ask. mred. rewrite H. reflexivity. Qed.

(** [repair (opts X) = false] from what is known of the base of [X]. *)
Ltac repair_off :=
  lazymatch goal with
  | |- repair (opts ?X) = false =>
      let b := base_of X in
      let HS := fresh "HS" in
      assert (HS : Safe b) by safe_base;
      proj_red; exact (proj1 HS)
  end.

Ltac sx_ask_ro :=
  match goal with
  | |- context [ask ?q ?d ?g] => rewrite (ask_ro q d g) by repair_off
  end.

(** Symbolic execution without repair mode. *)
Ltac rx :=
  repeat first
    [ progress mred
    | progress unfold_access
    | sx_name
    | sx_ask_ro
    | sx_access
    | sx_test ].

Lemma read_block_calm nr : calm_spec (read_block nr) (fun _ => True).
Proof.
  intros g HS. unfold read_block. rx.
  all: first [safe_tac | split; [calm | exact I]].
Qed.

Lemma check_zone_nr_calm v nr c :
  calm_spec (check_zone_nr_ v nr c) (fun '(_, nr', c') => nr' = nr /\ c' = c).
Proof.
  intros g HS. unfold check_zone_nr_. rx.
  all: first [safe_tac | split; [calm | auto]].
Qed.

Ltac unfold_more :=
  cbv beta iota delta
    [load store load_entry store_entry strncpy_name push_name
     incr_name_depth decr_name_depth].

Ltac sx_pair :=
  match goal with
  | |- context [match ?p with pair _ _ => _ end] =>
      first [ is_var p; destruct p
            | let E := fresh "E" in destruct p eqn:E ]
  end.

Ltac safe_here := first [ safe_base | safe_tac ].

(** Replace the call [m g] by its two outcomes, with what [L] says. *)
Ltac on_call m g L :=
  let H := fresh "H" in
  let HS := fresh "HS" in
  assert (HS : Safe g) by safe_here;
  pose proof (L g HS) as H; clear HS;
  destruct (m g) as [? ?|? ?]; [destruct H as [? ?]|].

Ltac rx_call :=
  match goal with
  | |- context [read_block ?nr ?g] =>
      on_call (read_block nr) g (read_block_calm nr)
  | |- context [check_zone_nr_ ?v ?nr ?c ?g] =>
      on_call (check_zone_nr_ v nr c) g (check_zone_nr_calm v nr c)
  end.

Ltac tidy :=
  repeat match goal with
    | H : _ /\ _ |- _ => destruct H
    | H : True |- _ => clear H
    | H : ?x = ?y |- _ => first [is_var x; subst x | is_var y; subst y]
    end.

Ltac rx1 :=
  first
    [ progress tidy
    | progress mred
    | progress unfold_access
    | progress unfold_more
    | sx_name
    | sx_ask_ro
    | rx_call
    | sx_pair
    | sx_access
    | sx_test ].

Ltac rxx := repeat rx1.

(** The usual end of a path. *)
Ltac calm_done :=
  first
    [ safe_here
    | split; [calm | first [exact I | auto; fail | intuition congruence]] ].

Lemma check_slot_calm v ino k : calm_spec (check_slot v ino k) (fun _ => True).
Proof.
  intros g HS. unfold check_slot. rxx.
  all: calm_done.
Qed.

Lemma check_entry_calm v blk i : calm_spec (check_entry v blk i) (fun _ => True).
Proof.
  intros g HS. unfold check_entry. rxx.
  all: calm_done.
Qed.

Ltac rx_call ::=
  match goal with
  | |- context [read_block ?nr ?g] =>
      on_call (read_block nr) g (read_block_calm nr)
  | |- context [check_zone_nr_ ?v ?nr ?c ?g] =>
      on_call (check_zone_nr_ v nr c) g (check_zone_nr_calm v nr c)
  | |- context [check_slot ?v ?ino ?k ?g] =>
      on_call (check_slot v ino k) g (check_slot_calm v ino k)
  | |- context [check_entry ?v ?b ?i ?g] =>
      on_call (check_entry v b i) g (check_entry_calm v b i)
  end.

Lemma follow_calm v ino r : calm_spec (follow v ino r) (fun _ => True).
Proof.
  intros g HS. destruct r; cbn [follow]; rxx.
  all: calm_done.
Qed.

Lemma bad_zone_calm i : calm_spec (bad_zone i) (fun _ => True).
Proof.
  intros g HS. unfold bad_zone. rxx.
  all: calm_done.
Qed.

Lemma report_calm : calm_spec report (fun _ => True).
Proof.
  intros g HS. unfold report. rxx.
  all: calm_done.
Qed.

Lemma check_root_calm v : calm_spec (check_root_ v) (fun _ => True).
Proof.
  intros g HS. unfold check_root_. rxx.
  all: calm_done.
Qed.

(** *** The invariant of the traversal *)

Lemma INV_Safe g : INV g -> Safe g.
Proof. intros [H _]. exact H. Qed.

Lemma INV_flag g : Safe g -> errors_uncorrected g = true -> INV g.
Proof. intros HS E. split; [exact HS|]. rewrite E. discriminate. Qed.

Lemma harmless_calm e : harmless_event e -> calm_event e.
Proof. destruct e; cbn; auto. Qed.

Lemma harmless_not_pending l nr name :
  Forall harmless_event l -> ~ In (Printed (Inode_marked_unused nr name)) l.
Proof.
  intros F Hin. rewrite Forall_forall in F. specialize (F _ Hin).
  cbn in F. discriminate.
Qed.

Lemma Calm_same g g' : Calm g -> same g g' -> Calm g'.
Proof.
  intros (Hout & Hz & Hi) [So Sc Se Sv SS Sim Szm Sic Szc (l & El & Fl)].
  split; [|split].
  - rewrite El. apply Forall_app. split; [exact Hout|].
    eapply Forall_impl; [|exact Fl]. apply harmless_calm.
  - intros z c. unfold zone_bit, FIRSTZONE. rewrite Szc, Szm, SS. apply Hz.
  - intros nr name Hin. rewrite El in Hin. apply in_app_or in Hin.
    destruct Hin as [Hin|Hin];
      [|exfalso; exact (harmless_not_pending _ _ _ Fl Hin)].
    unfold inode_bit, INODES. rewrite Sic, Sim, SS. exact (Hi nr name Hin).
Qed.

Lemma INV_calmly g g' : INV g -> calmly g g' -> INV g'.
Proof.
  intros [_ HC] [HS [Hs|F]]; [|apply INV_flag; assumption].
  split; [exact HS|]. intros E. apply (Calm_same g); [|exact Hs].
  apply HC. rewrite <- (s_errors _ _ Hs). exact E.
Qed.

Lemma calm_inv {A : Type} (m : M A) (Q : A -> Prop) :
  calm_spec m Q -> inv_spec m Q.
Proof.
  intros H g HI. specialize (H g (INV_Safe g HI)).
  destruct (m g) as [a g'|w g']; [|exact H].
  destruct H as [Hc HQ]. split; [eapply INV_calmly; eassumption | exact HQ].
Qed.

Lemma inv_iterate {S : Type} (P : S -> Prop) (body : Z -> S -> M S) :
  (forall i acc, P acc -> inv_spec (body i acc) P) ->
  forall n i acc, P acc -> inv_spec (iterate n i body acc) P.
Proof.
  intros Hb n. induction n as [|n IH]; intros i acc HP g HI; cbn [iterate].
  - split; assumption.
  - unfold bind. pose proof (Hb i acc HP g HI) as H.
    destruct (body i acc g) as [acc' g'|w g']; [|exact H].
    destruct H as [HI' HP']. apply IH; assumption.
Qed.

Ltac safe_base ::=
  first [ assumption
        | eapply calmly_Safe; eassumption
        | apply INV_Safe; assumption ].

(** [INV X] along the hypotheses, for a stack [X] that leaves the tables
    alone. *)
Ltac inv_tac :=
  lazymatch goal with
  | |- INV ?X =>
      first
        [ assumption
        | let b := base_of X in
          first
            [ constr_eq b X;
              match goal with
              | H : calmly ?Y X |- _ =>
                  apply (INV_calmly Y X); [inv_tac | exact H]
              end
            | apply (INV_calmly b X); [inv_tac | calm_stack] ] ]
  end.

Ltac on_call_inv m g L :=
  let H := fresh "H" in
  let HI := fresh "HI" in
  assert (HI : INV g) by inv_tac;
  pose proof (L g HI) as H; clear HI;
  destruct (m g) as [? ?|? ?]; [destruct H as [? ?]|].

Ltac inv_done :=
  first
    [ safe_here
    | split; [inv_tac | first [exact I | auto; fail | intuition congruence]] ].

Lemma zset_same {A : Type} (l l' : list A) i x :
  zset l i x = Some l' -> zget l' i = Some x.
Proof.
  unfold zset, zget. destruct (Z.ltb_spec i 0); [discriminate|].
  destruct (Z.leb_spec (Z.of_nat (List.length l)) i); [discriminate|].
  intros E. injection E as <-.
  assert (H' : (Z.to_nat i < List.length l)%nat) by lia.
  revert H'. generalize (Z.to_nat i). clear.
  induction l as [|h t IH]; intros [|n] Hn; simpl in *; try lia; auto.
  apply IH. lia.
Qed.

Lemma incr_u8_pos c : 1 <= fst (incr_u8 c).
Proof.
  unfold incr_u8. destruct (Z.eqb_spec (u8 (c + 1)) 0) as [E|N]; cbn [fst].
  - rewrite E. vm_compute. discriminate.
  - pose proof (wrap_range 8 (c + 1)). unfold u8 in *. lia.
Qed.

(** Counting a reference to inode [nr], with messages that are informing
    or report [nr] as marked unused. *)
Lemma INV_count_inode g X nr c ic l :
  INV g -> Safe X ->
  version2 X = version2 g -> Super X = Super g ->
  inode_map X = inode_map g -> zone_map X = zone_map g ->
  zone_count X = zone_count g ->
  zset (inode_count g) nr c = Some ic -> inode_count X = ic -> 1 <= c ->
  out X = out g ++ l ->
  (errors_uncorrected X = false ->
   errors_uncorrected g = false
   /\ Forall (fun e =>
                harmless_event e
                \/ ((exists name, e = Printed (Inode_marked_unused nr name))
                    /\ 1 <= nr <= INODES g /\ inode_bit g nr = Some false))
        l) ->
  INV X.
Proof.
  intros [_ HC] HS Hv HSu Him Hzm Hzc Hset Hic Hc Hout Hl.
  split; [exact HS|]. intros E. destruct (Hl E) as [Eg Fl].
  destruct (HC Eg) as (Co & Cz & Ci). split; [|split].
  - rewrite Hout. apply Forall_app. split; [exact Co|].
    eapply Forall_impl; [|exact Fl].
    intros e [He|[(name & ->) _]]; [apply harmless_calm; exact He|].
    cbn. right. eauto.
  - intros z c0. unfold zone_bit, FIRSTZONE. rewrite Hzc, Hzm, HSu. apply Cz.
  - intros nr' name' Hin. unfold inode_bit, INODES. rewrite Hic, Him, HSu.
    assert (Hcount : forall c0, zget (inode_count g) nr' = Some c0 ->
              1 <= c0 -> exists c1, zget ic nr' = Some c1 /\ 1 <= c1).
    { intros c0 E0 P0. destruct (Z.eq_dec nr' nr) as [->|N].
      - exists c. split; [eapply zset_same; exact Hset | exact Hc].
      - exists c0. split; [|exact P0].
        rewrite (zset_other _ _ nr' _ _ Hset N). exact E0. }
    rewrite Hout in Hin. apply in_app_or in Hin. destruct Hin as [Hin|Hin].
    + destruct (Ci nr' name' Hin) as (R & B & c0 & E0 & P0).
      repeat split; try apply R; try exact B. exact (Hcount c0 E0 P0).
    + rewrite Forall_forall in Fl. destruct (Fl _ Hin) as [He|[(name & En) (R & B)]].
      * cbn in He. discriminate.
      * injection En as -> _. repeat split; try apply R; try exact B.
        exists c. split; [eapply zset_same; exact Hset | exact Hc].
Qed.

Lemma get_inode_inv v nr : inv_spec (get_inode_ v nr) (fun _ => True).
Proof.
  intros g HI. unfold get_inode_. rxx.
  all: try inv_done.
  all: repeat match goal with
         | H : context [inode_count (log _ _)] |- _ => proj_red_in H
         | H : context [opts (log _ _)] |- _ => proj_red_in H
         end.
  all: split; [|exact I].
  all: match goal with
       | Hi : incr_u8 ?c = (?c', _),
         HI : INV ?g, E : (?nr =? 0) || _ = false,
         Hs : zset (inode_count ?g) ?nr ?c' = Some ?ic |- INV ?X =>
           assert (Hpos : 1 <= c')
             by (pose proof (incr_u8_pos c) as P; rewrite Hi in P; exact P);
           assert (Hnr : 1 <= nr <= INODES g)
             by (apply orb_false_elim in E; destruct E as [Ea Eb];
                 apply Z.eqb_neq in Ea; rewrite Z.gtb_ltb in Eb;
                 apply Z.ltb_ge in Eb;
                 pose proof (zset_defined (inode_count g) nr c') as D;
                 destruct (Z.ltb_spec nr 0) as [Hneg|Hnn];
                 [unfold zset in Hs;
                  destruct (Z.ltb_spec nr 0); [discriminate | lia]
                 | lia]);
           eapply (INV_count_inode g X nr c' ic);
           [ exact HI | safe_tac | reflexivity | reflexivity | reflexivity
           | reflexivity | reflexivity | exact Hs | reflexivity | exact Hpos
           | proj_red; rewrite <- ?app_assoc;
             first [reflexivity | symmetry; apply app_nil_r]
           | proj_red; intros Eerr; split; [exact Eerr|] ]
       end.
  all: repeat first
         [ apply Forall_nil
         | apply Forall_cons;
           [ first
               [ left; reflexivity
               | right; split; [eexists; reflexivity|];
                 split; [exact Hnr|];
                 unfold inode_bit, bit_at;
                 match goal with
                 | H : zget (inode_map _) _ = Some _ |- _ => rewrite H
                 end; cbn [option_map]; congruence ]
           | ] ].
Qed.

(** Counting a zone for the first time, its bit being set. *)
Lemma INV_count_zone g X blk zc :
  INV g -> Safe X -> errors_uncorrected X = errors_uncorrected g ->
  version2 X = version2 g -> Super X = Super g ->
  inode_map X = inode_map g -> zone_map X = zone_map g ->
  inode_count X = inode_count g -> out X = out g ->
  zget (zone_count g) blk = Some 0 ->
  zset (zone_count g) blk 1 = Some zc -> zone_count X = zc ->
  zone_bit g blk = Some true ->
  INV X.
Proof.
  intros [_ HC] HS He Hv HSu Him Hzm Hic Hout H0 Hset Hzc Hbit.
  split; [exact HS|]. rewrite He. intros E.
  destruct (HC E) as (Co & Cz & Ci). split; [|split].
  - rewrite Hout. exact Co.
  - intros z c. unfold zone_bit, FIRSTZONE. rewrite Hzc, Hzm, HSu.
    destruct (Z.eq_dec z blk) as [->|N].
    + rewrite (zset_same _ _ _ _ Hset). intros Ec. injection Ec as <-.
      right. split; [reflexivity | exact Hbit].
    + rewrite (zset_other _ _ z _ _ Hset N). apply Cz.
  - intros nr name. unfold inode_bit, INODES. rewrite Hout, Hic, Him, HSu.
    apply Ci.
Qed.

Lemma add_zone_inv v nr c :
  inv_spec (add_zone_ v nr c) (fun '(_, nr', c') => nr' = nr /\ c' = c).
Proof.
  intros g HI. unfold add_zone_. rxx.
  all: try inv_done.
  injection E as ->. split; [|auto].
  eapply (INV_count_zone g0 _ z l);
    [ inv_tac | safe_tac | reflexivity | reflexivity | reflexivity
    | reflexivity | reflexivity | reflexivity | reflexivity | exact E2
    | exact E3 | reflexivity | ].
  unfold zone_bit, bit_at. rewrite E0. cbn [option_map]. rewrite E1.
  reflexivity.
Qed.

Lemma add_zone_0_inv v nr c :
  inv_spec (add_zone_0 v nr c) (fun '(nr', c') => nr' = nr /\ c' = c).
Proof.
  intros g HI. unfold add_zone_0. unfold bind.
  pose proof (add_zone_inv v nr c g HI) as H.
  destruct (add_zone_ v nr c g) as [[[r nr'] c'] g'|w g']; [|exact H].
  exact H.
Qed.

Lemma add_zone_entry_inv v each :
  (forall nr c,
     inv_spec (each nr c) (fun '(nr', c') => nr' = nr /\ c' = c)) ->
  forall i acc, snd acc = Ref_local false ->
    inv_spec (add_zone_entry v each i acc)
      (fun acc' => snd acc' = Ref_local false).
Proof.
  intros Heach i [b ch] Hch g HI. cbn [snd] in Hch. subst ch.
  unfold add_zone_entry, load_entry, store_entry, load, store. mred.
  destruct ((i <? 0) || (entries v <=? i)); [apply INV_Safe; exact HI|].
  destruct ((width v * i <? 0)
            || (Z.of_nat (List.length b) <? width v * i + width v));
    [apply INV_Safe; exact HI|].
  pose proof (Heach (le_value (firstn (Z.to_nat (width v))
                                 (skipn (Z.to_nat (width v * i)) b)))
                (Ref_local false) g HI) as H.
  destruct (each _ _ g) as [[nr1 c1] g4|w g4]; [|exact H].
  destruct H as [HI4 [-> ->]]. split; [exact HI4 | reflexivity].
Qed.

(** One level of indirection preserves the invariant if its callee does. *)
Lemma add_zone_level_inv v each :
  (forall nr c,
     inv_spec (each nr c) (fun '(nr', c') => nr' = nr /\ c' = c)) ->
  forall nr c,
    inv_spec (add_zone_level v each nr c)
      (fun '(nr', c') => nr' = nr /\ c' = c).
Proof.
  intros Heach nr c g HI. unfold add_zone_level. unfold bind at 1.
  pose proof (add_zone_inv v nr c g HI) as H.
  destruct (add_zone_ v nr c g) as [[[r nr'] c'] g1|w g1]; [|exact H].
  destruct H as [HI1 [-> ->]].
  destruct (Z.eqb_spec r 0); [split; auto|].
  unfold bind at 1.
  pose proof (read_block_calm r g1 (INV_Safe _ HI1)) as H.
  destruct (read_block r g1) as [blk g2|w g2]; [|exact H].
  destruct H as [Hc _].
  assert (HI2 : INV g2) by (eapply INV_calmly; eassumption).
  unfold bind at 1.
  pose proof (inv_iterate (fun acc : block * intref => snd acc = Ref_local false)
                (add_zone_entry v each) (add_zone_entry_inv v each Heach)
                (Z.to_nat (entries v)) 0 (blk, Ref_local false) eq_refl g2 HI2)
    as Hloop.
  destruct (iterate _ _ _ _ g2) as [[blk' chg] g3|w g3]; [|exact Hloop].
  destruct Hloop as [HI3 Hchg]. cbn [snd] in Hchg. subst chg.
  cbn [deref]. mred. split; auto.
Qed.

Lemma add_zone_ind_inv v nr c :
  inv_spec (add_zone_ind_ v nr c) (fun '(nr', c') => nr' = nr /\ c' = c).
Proof. apply add_zone_level_inv. apply add_zone_0_inv. Qed.

Lemma add_zone_dind_inv v nr c :
  inv_spec (add_zone_dind_ v nr c) (fun '(nr', c') => nr' = nr /\ c' = c).
Proof. apply add_zone_level_inv. intros; apply add_zone_ind_inv. Qed.

Lemma add_zone_tind_inv v nr c :
  inv_spec (add_zone_tind_ v nr c) (fun '(nr', c') => nr' = nr /\ c' = c).
Proof. apply add_zone_level_inv. intros; apply add_zone_dind_inv. Qed.

(** The call of a function given with its statement [Hf]. *)
Ltac call_zone_fun f Hf :=
  match goal with
  | HI : INV ?g |- context [f ?nr ?c ?g] =>
      let H := fresh "H" in
      pose proof (Hf nr c g HI) as H;
      destruct (f nr c g) as [[? ?] ?|? ?]; [|exact H];
      destruct H as [? [? ?]]
  end.

Lemma on_slot_inv v ino k f :
  (forall nr c, inv_spec (f nr c) (fun '(nr', c') => nr' = nr /\ c' = c)) ->
  inv_spec (on_slot v ino k f) (fun _ => True).
Proof.
  intros Hf g HI. unfold on_slot. rxx.
  all: try inv_done.
  all: call_zone_fun f Hf.
  all: rxx.
  all: inv_done.
Qed.

Ltac ix_call :=
  match goal with
  | |- context [get_inode_ ?v ?nr ?g] =>
      on_call_inv (get_inode_ v nr) g (get_inode_inv v nr)
  | |- context [on_slot ?v ?i ?k (add_zone_ind_ ?v) ?g] =>
      on_call_inv (on_slot v i k (add_zone_ind_ v)) g
        (on_slot_inv v i k (add_zone_ind_ v) (add_zone_ind_inv v))
  | |- context [on_slot ?v ?i ?k (add_zone_dind_ ?v) ?g] =>
      on_call_inv (on_slot v i k (add_zone_dind_ v)) g
        (on_slot_inv v i k (add_zone_dind_ v) (add_zone_dind_inv v))
  | |- context [on_slot ?v ?i ?k (add_zone_tind_ ?v) ?g] =>
      on_call_inv (on_slot v i k (add_zone_tind_ v)) g
        (on_slot_inv v i k (add_zone_tind_ v) (add_zone_tind_inv v))
  | |- context [iterate ?n ?k0
                  (fun (k : Z) (_ : unit) => on_slot ?v ?i k (add_zone_0 ?v))
                  tt ?g] =>
      on_call_inv
        (iterate n k0 (fun (k : Z) (_ : unit) => on_slot v i k (add_zone_0 v))
           tt) g
        (inv_iterate (fun _ : unit => True)
           (fun (k : Z) (_ : unit) => on_slot v i k (add_zone_0 v))
           (fun k _ _ => on_slot_inv v i k (add_zone_0 v) (add_zone_0_inv v))
           n k0 tt I)
  end.

Ltac ixx := repeat first [rx1 | ix_call].

Lemma check_zones_inv v i : inv_spec (check_zones_ v i) (fun _ => True).
Proof.
  intros g HI. unfold check_zones_. ixx.
  all: inv_done.
Qed.

Ltac rx_call ::=
  match goal with
  | |- context [read_block ?nr ?g] =>
      on_call (read_block nr) g (read_block_calm nr)
  | |- context [check_zone_nr_ ?v ?nr ?c ?g] =>
      on_call (check_zone_nr_ v nr c) g (check_zone_nr_calm v nr c)
  | |- context [check_slot ?v ?ino ?k ?g] =>
      on_call (check_slot v ino k) g (check_slot_calm v ino k)
  | |- context [check_entry ?v ?b ?i ?g] =>
      on_call (check_entry v b i) g (check_entry_calm v b i)
  | |- context [follow ?v ?ino ?r ?g] =>
      on_call (follow v ino r) g (follow_calm v ino r)
  | |- context [bad_zone ?i ?g] =>
      on_call (bad_zone i) g (bad_zone_calm i)
  | |- context [report ?g] => on_call report g report_calm
  | |- context [check_root_ ?v ?g] =>
      on_call (check_root_ v) g (check_root_calm v)
  end.

Ltac ix_call ::=
  match goal with
  | |- context [get_inode_ ?v ?nr ?g] =>
      on_call_inv (get_inode_ v nr) g (get_inode_inv v nr)
  | |- context [check_zones_ ?v ?i ?g] =>
      on_call_inv (check_zones_ v i) g (check_zones_inv v i)
  end.





(** *** check_counts without repair mode *)

Lemma bad_zone_cases i g :
  Safe g ->
  match bad_zone i g with
  | Ok _ g' => g' = g
  | Stop _ g' => Safe g'
  end.
Proof.
  intros HS. unfold bad_zone. rxx.
  all: first [reflexivity | safe_here].
Qed.

Ltac on_call_pure m g L :=
  let H := fresh "H" in
  let HS := fresh "HS" in
  assert (HS : Safe g) by safe_here;
  pose proof (L g HS) as H; clear HS;
  destruct (m g) as [? ?|? ?]; [subst|].

Ltac rx_call ::=
  match goal with
  | |- context [read_block ?nr ?g] =>
      on_call (read_block nr) g (read_block_calm nr)
  | |- context [check_zone_nr_ ?v ?nr ?c ?g] =>
      on_call (check_zone_nr_ v nr c) g (check_zone_nr_calm v nr c)
  | |- context [check_slot ?v ?ino ?k ?g] =>
      on_call (check_slot v ino k) g (check_slot_calm v ino k)
  | |- context [check_entry ?v ?b ?i ?g] =>
      on_call (check_entry v b i) g (check_entry_calm v b i)
  | |- context [follow ?v ?ino ?r ?g] =>
      on_call (follow v ino r) g (follow_calm v ino r)
  | |- context [bad_zone ?i ?g] =>
      on_call_pure (bad_zone i) g (bad_zone_cases i)
  | |- context [report ?g] => on_call report g report_calm
  | |- context [check_root_ ?v ?g] =>
      on_call (check_root_ v) g (check_root_calm v)
  end.







(** *** The whole run without repair mode *)

Lemma Clean_Safe g : Clean g -> Safe g.
Proof. intros [H _]. exact H. Qed.

Ltac safe_base ::=
  first [ assumption
        | eapply calmly_Safe; eassumption
        | apply INV_Safe; assumption
        | apply Clean_Safe; assumption ].





Lemma zget_repeat {A : Type} (x : A) n i y :
  zget (repeat x n) i = Some y -> y = x.
Proof.
  unfold zget. destruct (i <? 0); [discriminate|]. intros H.
  apply nth_error_In in H. apply repeat_spec in H. exact H.
Qed.








Lemma parse_flag_spec o c o' :
  parse_flag o c = Some o' ->
  repair o' = repair o || (Ascii.eqb c "a" || Ascii.eqb c "r")
  /\ (force o = true -> force o' = true)
  /\ device_name o' = device_name o.
Proof.
  unfold parse_flag.
  destruct (Ascii.eqb_spec c "l"); [intros H; injection H as <-; subst; cbn;
    rewrite orb_false_r; auto|].
  destruct (Ascii.eqb_spec c "a"); [intros H; injection H as <-; subst; cbn;
    rewrite orb_true_r; auto|].
  destruct (Ascii.eqb_spec c "r"); [intros H; injection H as <-; subst; cbn;
    rewrite orb_true_r; auto|].
  destruct (Ascii.eqb_spec c "v"); [intros H; injection H as <-; subst; cbn;
    rewrite orb_false_r; auto|].
  destruct (Ascii.eqb_spec c "s"); [intros H; injection H as <-; subst; cbn;
    rewrite orb_false_r; auto|].
  destruct (Ascii.eqb_spec c "m"); [intros H; injection H as <-; subst; cbn;
    rewrite orb_false_r; auto|].
  destruct (Ascii.eqb_spec c "f"); [intros H; injection H as <-; subst; cbn;
    rewrite orb_false_r; auto|].
  discriminate.
Qed.

Lemma parse_flags_spec : forall s o o',
  parse_flags o s = Some o' ->
  repair o' = repair o || asks_repair s
  /\ (force o = true -> force o' = true)
  /\ device_name o' = device_name o.
Proof.
  induction s as [|c s IH]; intros o o'; cbn [parse_flags asks_repair].
  - intros H. injection H as <-. rewrite orb_false_r. auto.
  - destruct (parse_flag o c) as [o1|] eqn:E; [|discriminate].
    intros H. destruct (parse_flag_spec o c o1 E) as (R1 & F1 & D1).
    destruct (IH o1 o' H) as (R2 & F2 & D2).
    split; [|split; [auto | congruence]].
    rewrite R2, R1, <- orb_assoc. reflexivity.
Qed.

Lemma parse_args_spec : forall args o o',
  parse_args o args = Some o' ->
  repair o' = repair o || wants_repair args
  /\ (force o = true -> force o' = true).
Proof.
  induction args as [|arg args IH]; intros o o';
    cbn [parse_args wants_repair existsb].
  - intros H. injection H as <-. rewrite orb_false_r. auto.
  - assert (Hname : forall o1,
              device_name o = None ->
              parse_args (with_device_name o arg) args = Some o1 ->
              repair o1 = repair o || existsb
                (fun arg0 => match arg0 with
                             | String "-" flags => asks_repair flags
                             | _ => false
                             end) args
              /\ (force o = true -> force o1 = true)).
    { intros o1 _ H. destruct (IH _ _ H) as (R & F). split; [exact R|].
      exact F. }
    destruct arg as [|c flags].
    + destruct (device_name o); [discriminate|]. intros H.
      exact (Hname o' eq_refl H).
    + destruct (Ascii.eqb_spec c "-") as [->|N].
      * destruct (parse_flags o flags) as [o1|] eqn:E; [|discriminate].
        intros H. destruct (parse_flags_spec flags o o1 E) as (R1 & F1 & _).
        destruct (IH o1 o' H) as (R2 & F2).
        split; [|auto]. fold (wants_repair args) in *.
        rewrite R2, R1, <- orb_assoc. reflexivity.
      * assert (Hm : match String c flags with
                     | String "-" fl => asks_repair fl
                     | _ => false
                     end = false).
        { destruct c as [[] [] [] [] [] [] [] []]; try reflexivity.
          contradiction N. reflexivity. }
        assert (Hp : parse_args o (String c flags :: args)
                     = match device_name o with
                       | Some _ => None
                       | None =>
                           parse_args (with_device_name o (String c flags)) args
                       end).
        { destruct c as [[] [] [] [] [] [] [] []]; try reflexivity.
          contradiction N. reflexivity. }
        cbn [parse_args] in Hp. rewrite Hp. rewrite Hm. cbn [orb].
        destruct (device_name o); [discriminate|]. intros H.
        destruct (IH _ _ H) as (R & F). split; [exact R | exact F].
Qed.

(** Without -f on the command line, [force] is still 1: no option clears
    the initial value of line 129. *)
Lemma parse_args_force args o :
  parse_args initial_options args = Some o -> force o = true.
Proof.
  intros H. destruct (parse_args_spec args _ _ H) as (_ & F).
  apply F. reflexivity.
Qed.

Lemma parse_args_repair args o :
  parse_args initial_options args = Some o -> repair o = wants_repair args.
Proof.
  intros H. destruct (parse_args_spec args _ _ H) as (R & _). exact R.
Qed.









(** ** C8: the exit status *)

Lemma bind_ok {A B : Type} (m : M A) (k : A -> M B) g b g' :
  bind m k g = Ok b g' -> exists a g1, m g = Ok a g1 /\ k a g1 = Ok b g'.
Proof.
  unfold bind. destruct (m g) as [a g1|w g1]; [eauto | discriminate].
Qed.



(** ** C2: the gate on the state flags *)

(** The gate itself is as its comment describes: were [force] to start at
    0, the run on this image would print that the file system is clean,
    write nothing and return 0, and -f would force the check. *)
Lemma gate_taken_when_force_starts_clear :
  let w := Fixture.world_of Fixture.stray_zone_v1 in
  let o := with_force initial_options false in
  (exists g,
     main_from o 10 ["mfsck"; "-a"; "img"]%string w (initial w) = Ok 0 g
     /\ out g = [Printed Is_clean])
  /\ (exists g,
        main_from o 10 ["mfsck"; "-a"; "-f"; "img"]%string w (initial w)
        = Ok 3 g
        /\ In (Printed Forcing_check) (out g)).
Proof.
  split; eexists; (split; [vm_compute; reflexivity|]);
    [reflexivity | vm_compute; tauto].
Qed.

(** C2 (does not hold of the code): the super block of this image has
    VALID_FS set and ERROR_FS clear, and -f is not on the command line.
    The run is nevertheless forced: with -a it unmarks zone 6, writes the
    tables back and exits with 3; without -a it declines the repair and
    exits with 4. *)
Theorem gate_not_taken_without_f :
  option_map s_state (dev_super Fixture.stray_zone_v1) = Some MINIX_VALID_FS
  /\ (exists g,
        run 10 ["mfsck"; "-a"; "img"]%string
          (Fixture.world_of Fixture.stray_zone_v1) = Ok 3 g
        /\ In (Printed Forcing_check) (out g)
        /\ (exists m, In (Write (W_zone_map m)) (out g))
        /\ option_map (firstn 1) (dev_zone_map (IN g)) = Some [3]
        /\ option_map (firstn 1) (dev_zone_map Fixture.stray_zone_v1)
           = Some [7])
  /\ (exists g,
        run 10 ["mfsck"; "img"]%string
          (Fixture.world_of Fixture.stray_zone_v1) = Ok 4 g
        /\ In (Printed Forcing_check) (out g)).
Proof.
  split; [reflexivity|]. split.
  - eexists. split; [vm_compute; reflexivity|].
    split; [vm_compute; tauto|]. split; [|split; vm_compute; reflexivity].
    eexists. vm_compute. do 6 right. left. reflexivity.
  - eexists. split; [vm_compute; reflexivity|]. vm_compute. tauto.
Qed.

(** * Further properties *)

(** ** What check keeps *)

Lemma steady_refl g : steady g g.
Proof.
  constructor; try reflexivity; auto.
  exists []. split; [symmetry; apply app_nil_r|].
  split; [constructor | intros (q & d & [])].
Qed.

Lemma data_write_eq g g' e :
  Super g' = Super g -> version2 g' = version2 g ->
  data_write g' e -> data_write g e.
Proof.
  intros HS Hv. unfold data_write, ZONES, FIRSTZONE. rewrite HS, Hv. auto.
Qed.

Lemma steady_trans g1 g2 g3 : steady g1 g2 -> steady g2 g3 -> steady g1 g3.
Proof.
  intros A B.
  assert (Z2 : ZONES g2 = ZONES g1)
    by (unfold ZONES; rewrite (st_Super _ _ A), (st_version2 _ _ A);
        reflexivity).
  assert (F2 : FIRSTZONE g2 = FIRSTZONE g1)
    by (unfold FIRSTZONE; rewrite (st_Super _ _ A); reflexivity).
  destruct A as [? ? ? ? ? ? ? ? ? ? He1 ? ? ? ? ? ? ? Hb1 (l1 & E1 & F1 & D1)].
  destruct B as [? ? ? ? ? ? ? ? ? ? He2 ? ? ? ? ? ? ? Hb2 (l2 & E2 & F2' & D2)].
  constructor; try (etransitivity; eassumption); auto.
  - intros n Hz Hn. rewrite Hb2, Hb1; auto; lia.
  - exists (l1 ++ l2). split; [|split].
    + rewrite E2, E1, app_assoc. reflexivity.
    + apply Forall_app. split; [assumption|].
      eapply Forall_impl; [|exact F2'].
      intros e. apply data_write_eq; assumption.
    + intros (q & d & Hin). apply in_app_or in Hin.
      destruct Hin as [Hin|Hin]; [apply He2, D1 | apply D2]; exists q, d;
        exact Hin.
Qed.

Lemma keeps_steady g g' q d a :
  keeps g g' -> out g' = out g ++ [Asked q d a] ->
  errors_uncorrected g' = errors_uncorrected g || negb a ->
  steady g g'.
Proof.
  intros K Ho He. destruct K.
  constructor; try congruence.
  - intros E. rewrite He, E. reflexivity.
  - eexists. split; [exact Ho|]. split; [repeat constructor|].
    intros (q' & d' & [Hin|[]]). injection Hin as _ _ ->.
    rewrite He. apply orb_true_r.
Qed.

Lemma steadily_ret {A : Type} (a : A) : steadily (ret a).
Proof. intros g. apply steady_refl. Qed.

Lemma steadily_gets {A : Type} (f : globals -> A) : steadily (gets f).
Proof. intros g. apply steady_refl. Qed.

Lemma steadily_stop {A : Type} (w : stop) : steadily (@stop_with A w).
Proof. intros g. apply steady_refl. Qed.

Lemma steadily_bind {A B : Type} (m : M A) (k : A -> M B) :
  steadily m -> (forall a, steadily (k a)) -> steadily (bind m k).
Proof.
  intros Hm Hk g. unfold bind. specialize (Hm g).
  destruct (m g) as [a g1|w g1]; cbn [final] in *; [|exact Hm].
  eapply steady_trans; [exact Hm | apply Hk].
Qed.

Lemma steadily_when b (m : M unit) : steadily m -> steadily (when b m).
Proof. intros H. destruct b; [exact H | apply steadily_ret]. Qed.

Lemma steadily_iterate {S : Type} (body : Z -> S -> M S) :
  (forall i acc, steadily (body i acc)) ->
  forall n i acc, steadily (iterate n i body acc).
Proof.
  intros Hb. induction n as [|n IH]; intros i acc; cbn [iterate].
  - apply steadily_ret.
  - apply steadily_bind; [apply Hb | intros a; apply IH].
Qed.

(** [steady b X] for a stack [X] of updates over [b]. *)
Ltac steady_stack :=
  repeat match goal with
    | H : zset _ _ _ = Some _ |- _ =>
        pose proof (zset_length _ _ _ _ H); clear H
    end;
  constructor; proj_red;
  lazymatch goal with
  | |- exists _, _ =>
      eexists; split;
      [ first [ symmetry; apply app_nil_r
              | rewrite <- ?app_assoc; reflexivity ]
      | split;
        [ repeat constructor
        | let H := fresh in
          intros (? & ? & H); cbn [In app] in H; intuition discriminate ] ]
  | |- _ => intros; first [reflexivity | assumption | congruence]
  end.

(** [steady g X] along the hypotheses left by [ask]. *)
Ltac steady_tac :=
  lazymatch goal with
  | |- steady ?g ?X =>
      let b := base_of X in
      tryif constr_eq g X then apply steady_refl
      else tryif constr_eq b X then
        match goal with
        | K : keeps ?Y X |- _ =>
            apply (steady_trans g Y X);
            [ steady_tac | eapply keeps_steady; eassumption ]
        end
      else (apply (steady_trans g b X); [steady_tac | steady_stack])
  end.

Ltac steady_leaf := intro; sx; cbn [final]; steady_tac.

Lemma steadily_printf m : steadily (printf m).
Proof. steady_leaf. Qed.

Lemma steadily_die {A : Type} : steadily (@die A).
Proof. steady_leaf. Qed.

Lemma steadily_raise : steadily (modify (set_errors_uncorrected true)).
Proof. steady_leaf. Qed.

Lemma steadily_ask q d : steadily (ask q d).
Proof.
  intros g. destruct (ask_effect q d g) as (a & g' & E & K & Ho & He & _).
  rewrite E. cbn [final]. eapply keeps_steady; eassumption.
Qed.

Lemma steadily_get_current_name : steadily get_current_name.
Proof. intros g. rewrite get_current_name_globals. apply steady_refl. Qed.

Lemma steadily_read_block nr : steadily (read_block nr).
Proof. intro. unfold read_block. sx. all: cbn [final]; steady_tac. Qed.

Lemma block_of_position nr fz z :
  (u32 nr <? fz) || (u32 nr >=? z) = false -> z <= 2 ^ 22 ->
  u32 (BLOCK_SIZE * u32 nr) / BLOCK_SIZE = u32 nr /\ fz <= u32 nr < z.
Proof.
  intros E Hz. apply orb_false_iff in E. destruct E as [E1 E2].
  apply Z.ltb_ge in E1. rewrite Z.geb_leb in E2. apply Z.leb_gt in E2.
  assert (0 <= u32 nr) by (unfold u32, wrap; apply Z.mod_pos_bound; lia).
  split; [|lia]. rewrite u32_small; [|unfold BLOCK_SIZE; lia].
  unfold BLOCK_SIZE. rewrite Z.mul_comm. apply Z.div_mul. lia.
Qed.

Lemma steadily_write_block nr buf : steadily (write_block nr buf).
Proof.
  intro g. unfold write_block. sx. all: cbn [final]; try solve [steady_tac].
  all: pose proof (block_of_position nr _ _ E) as Hnr.
  all: match goal with
       | |- steady ?g ?X =>
           let b := base_of X in apply (steady_trans g b X); [steady_tac|]
       end.
  all: constructor; proj_red; cbn [dev_with_block dev_seek_ok dev_write_ok
         dev_super dev_inode_map dev_zone_map dev_inodes dev_block];
       try reflexivity; auto.
  all: try (intros m Hz Hm; destruct (Hnr Hz) as [-> Hr];
            destruct (Z.eqb_spec m (u32 nr)); [lia | reflexivity]).
  all: eexists; split; [rewrite <- ?app_assoc; reflexivity|].
  all: split;
         [|let H := fresh in
           intros (? & ? & H); cbn [In app] in H; intuition discriminate].
  all: repeat constructor.
  all: match goal with
       | Hz : ZONES _ <= _ |- _ => destruct (Hnr Hz) as [-> Hr]; lia
       end.
Qed.

Lemma steadily_modify (f : globals -> globals) :
  (forall g, steady g (f g)) -> steadily (modify f).
Proof. intros H g. apply H. Qed.

Lemma steadily_mark_inode x : steadily (mark_inode x).
Proof. intro g. unfold mark_inode. sx. all: cbn [final]; steady_tac. Qed.

Lemma steadily_unmark_inode x : steadily (unmark_inode x).
Proof. intro g. unfold unmark_inode. sx. all: cbn [final]; steady_tac. Qed.

Lemma steadily_mark_zone x : steadily (mark_zone x).
Proof. intro g. unfold mark_zone. sx. all: cbn [final]; steady_tac. Qed.

Lemma steadily_unmark_zone x : steadily (unmark_zone x).
Proof. intro g. unfold unmark_zone. sx. all: cbn [final]; steady_tac. Qed.

Lemma steadily_put_Inode ino x : steadily (put_Inode ino x).
Proof. intro g. unfold put_Inode. sx. all: cbn [final]; steady_tac. Qed.

Lemma steadily_strncpy_name d name : steadily (strncpy_name d name).
Proof. intro g. unfold strncpy_name. sx. all: cbn [final]; steady_tac. Qed.

Create HintDb steady.
#[local] Hint Resolve steadily_ret steadily_gets steadily_stop steadily_printf
  steadily_die steadily_raise steadily_ask steadily_get_current_name
  steadily_read_block steadily_write_block steadily_mark_inode
  steadily_unmark_inode steadily_mark_zone steadily_unmark_zone
  steadily_put_Inode steadily_strncpy_name : steady.

(** [steadily m] by the structure of [m]. *)
Ltac steady_go :=
  repeat first
    [ solve [auto with steady]
    | apply steadily_bind; [|intro]
    | apply steadily_when
    | apply steadily_iterate; intros
    | apply steadily_modify; intro; solve [steady_tac]
    | match goal with
      | |- steadily (if ?b then _ else _) => destruct b
      | |- steadily (match ?x with _ => _ end) => destruct x
      end
    | progress cbv beta iota delta
        [index assign load store load_entry store_entry deref assign_one
         leave usage get_Inode get_slot put_slot bit setbit clrbit
         inode_in_use zone_in_use incr_name_depth decr_name_depth push_name] ].

Lemma steadily_check_zone_nr v nr c : steadily (check_zone_nr_ v nr c).
Proof. unfold check_zone_nr_. steady_go. Qed.
#[local] Hint Resolve steadily_check_zone_nr : steady.

Lemma steadily_check_slot v ino k : steadily (check_slot v ino k).
Proof. unfold check_slot. steady_go. Qed.

Lemma steadily_check_entry v blk i : steadily (check_entry v blk i).
Proof. unfold check_entry. steady_go. Qed.
#[local] Hint Resolve steadily_check_slot steadily_check_entry : steady.

Lemma steadily_follow v ino r : steadily (follow v ino r).
Proof. destruct r; cbn [follow]; steady_go. Qed.

Lemma steadily_get_inode v nr : steadily (get_inode_ v nr).
Proof. unfold get_inode_. steady_go. Qed.

Lemma steadily_add_zone v nr c : steadily (add_zone_ v nr c).
Proof. unfold add_zone_. steady_go. Qed.
#[local] Hint Resolve steadily_follow steadily_get_inode steadily_add_zone
  : steady.

Lemma steadily_add_zone_0 v nr c : steadily (add_zone_0 v nr c).
Proof. unfold add_zone_0. steady_go. Qed.
#[local] Hint Resolve steadily_add_zone_0 : steady.

Lemma steadily_add_zone_entry v each i acc :
  (forall nr c, steadily (each nr c)) ->
  steadily (add_zone_entry v each i acc).
Proof. intros H. unfold add_zone_entry. steady_go. Qed.

Lemma steadily_add_zone_level v each nr c :
  (forall nr c, steadily (each nr c)) ->
  steadily (add_zone_level v each nr c).
Proof.
  intros H. unfold add_zone_level.
  pose proof (fun i acc => steadily_add_zone_entry v each i acc H).
  steady_go.
Qed.

Lemma steadily_add_zone_ind v nr c : steadily (add_zone_ind_ v nr c).
Proof. apply steadily_add_zone_level. apply steadily_add_zone_0. Qed.

Lemma steadily_add_zone_dind v nr c : steadily (add_zone_dind_ v nr c).
Proof. apply steadily_add_zone_level. apply steadily_add_zone_ind. Qed.

Lemma steadily_add_zone_tind v nr c : steadily (add_zone_tind_ v nr c).
Proof. apply steadily_add_zone_level. apply steadily_add_zone_dind. Qed.
#[local] Hint Resolve steadily_add_zone_ind steadily_add_zone_dind
  steadily_add_zone_tind : steady.

Lemma steadily_on_slot v ino k f :
  (forall nr c, steadily (f nr c)) -> steadily (on_slot v ino k f).
Proof. intros H. unfold on_slot. steady_go. Qed.

Lemma steadily_check_zones v i : steadily (check_zones_ v i).
Proof.
  unfold check_zones_.
  pose proof (fun k f H => steadily_on_slot v i k f H).
  steady_go.
Qed.
#[local] Hint Resolve steadily_check_zones : steady.

Lemma steadily_check_file v recurse dir offset :
  (forall ino, steadily (recurse ino)) ->
  steadily (check_file_ v recurse dir offset).
Proof. intros H. unfold check_file_. steady_go. Qed.

Lemma steadily_dir_loop body ino :
  (forall offset, steadily (body offset)) ->
  forall fuel offset, steadily (dir_loop fuel body ino offset).
Proof.
  intros H. induction fuel as [|fuel IH]; intros offset; cbn [dir_loop];
    steady_go.
Qed.

Lemma steadily_recursive_check v :
  forall fuel ino, steadily (recursive_check_ v fuel ino).
Proof.
  induction fuel as [|fuel IH]; intros ino; cbn [recursive_check_].
  - steady_go.
  - pose proof (fun body ino H fuel offset =>
                  steadily_dir_loop body ino H fuel offset).
    pose proof (fun dir offset =>
                  steadily_check_file v (recursive_check_ v fuel) dir offset IH).
    steady_go.
Qed.
#[local] Hint Resolve steadily_recursive_check : steady.

Lemma steadily_bad_zone i : steadily (bad_zone i).
Proof. unfold bad_zone. steady_go. Qed.
#[local] Hint Resolve steadily_bad_zone : steady.

Lemma steadily_check_counts_inode v i : steadily (check_counts_inode v i).
Proof. unfold check_counts_inode. steady_go. Qed.

Lemma steadily_check_counts_zone v i : steadily (check_counts_zone v i).
Proof. unfold check_counts_zone. steady_go. Qed.
#[local] Hint Resolve steadily_check_counts_inode steadily_check_counts_zone
  : steady.

Lemma steadily_check_counts v : steadily (check_counts_ v).
Proof. unfold check_counts_. steady_go. Qed.
#[local] Hint Resolve steadily_check_counts : steady.

Lemma steadily_check v fuel : steadily (check_ v fuel).
Proof. unfold check_. steady_go. Qed.

(** ** What main keeps once the super block is read *)

Lemma tame_refl g : tame g g.
Proof.
  constructor; try reflexivity; auto.
  exists []. split; [symmetry; apply app_nil_r|].
  split; [constructor | intros (q & d & [])].
Qed.

Lemma tame_trans g1 g2 g3 : tame g1 g2 -> tame g2 g3 -> tame g1 g3.
Proof.
  intros [F1 Z1 He1 (l1 & E1 & P1 & D1)] [F2 Z2 He2 (l2 & E2 & P2 & D2)].
  constructor; try congruence; auto.
  exists (l1 ++ l2). split; [|split].
  - rewrite E2, E1, app_assoc. reflexivity.
  - apply Forall_app. split; [assumption|].
    eapply Forall_impl; [|exact P2].
    intros e. unfold placed_write. rewrite F1, Z1. auto.
  - intros (q & d & Hin). apply in_app_or in Hin.
    destruct Hin as [Hin|Hin]; [apply He2, D1 | apply D2]; exists q, d;
      exact Hin.
Qed.

Lemma steady_tame g g' : steady g g' -> tame g g'.
Proof.
  intros H. destruct H as [? ? ? ? Hv HS ? ? ? ? ? ? ? ? ? ? ? ? ? (l & E & P & D)].
  constructor; auto.
  - unfold FIRSTZONE. rewrite HS. reflexivity.
  - unfold ZONES. rewrite HS, Hv. reflexivity.
  - exists l. split; [exact E|]. split; [|exact D].
    eapply Forall_impl; [|exact P].
    intros [m|q d a|[]]; cbn; auto; contradiction.
Qed.

Lemma steadily_tamely {A : Type} (m : M A) : steadily m -> tamely m.
Proof. intros H g. apply steady_tame, H. Qed.

Lemma tamely_bind {A B : Type} (m : M A) (k : A -> M B) :
  tamely m -> (forall a, tamely (k a)) -> tamely (bind m k).
Proof.
  intros Hm Hk g. unfold bind. specialize (Hm g).
  destruct (m g) as [a g1|w g1]; cbn [final] in *; [|exact Hm].
  eapply tame_trans; [exact Hm | apply Hk].
Qed.

Lemma tamely_when b (m : M unit) : tamely m -> tamely (when b m).
Proof. intros H. destruct b; [exact H | intro g; apply tame_refl]. Qed.

Lemma tamely_modify (f : globals -> globals) :
  (forall g, tame g (f g)) -> tamely (modify f).
Proof. intros H g. apply H. Qed.

(** [tame b X] for a stack [X] of updates over [b] that leaves the super
    block and [version2] alone and logs no question. *)
Ltac tame_stack :=
  constructor; unfold FIRSTZONE, ZONES; proj_red;
  lazymatch goal with
  | |- exists _, _ =>
      eexists; split;
      [ first [ symmetry; apply app_nil_r
              | rewrite <- ?app_assoc; reflexivity ]
      | split;
        [ repeat constructor
        | let H := fresh in
          intros (? & ? & H); cbn [In app] in H; intuition discriminate ] ]
  | |- _ => intros; first [reflexivity | assumption | congruence]
  end.

Lemma accounted_tame g g' : accounted g -> tame g g' -> accounted g'.
Proof.
  intros [P D] [F Z He (l & E & P' & D')]. unfold accounted. rewrite E. split.
  - apply Forall_app. split; (eapply Forall_impl; [|eassumption]);
      intros e; unfold placed_write; rewrite F, Z; auto.
  - intros (q & d & Hin). apply in_app_or in Hin.
    destruct Hin as [Hin|Hin]; [apply He, D | apply D']; exists q, d;
      exact Hin.
Qed.

Lemma tamely_write_super_block : tamely write_super_block.
Proof.
  intro g. unfold write_super_block. sx.
  all: cbn [final]; tame_stack.
Qed.

Lemma tamely_write_tables : tamely write_tables.
Proof.
  unfold write_tables. apply tamely_bind; [apply tamely_write_super_block|].
  intros _ g. unfold write_table. sx.
  all: cbn [final]; tame_stack.
Qed.

Lemma tamely_get_dirsize : tamely get_dirsize.
Proof.
  unfold get_dirsize. apply tamely_bind.
  - apply steadily_tamely. unfold root_dir_block. steady_go.
  - intros blk g. sx. all: cbn [final]; tame_stack.
Qed.

Lemma tamely_read_tables : tamely read_tables.
Proof.
  unfold read_tables.
  repeat first
    [ apply tamely_get_dirsize
    | apply steadily_tamely; solve [steady_go]
    | apply tamely_bind; [|intro]
    | apply tamely_when
    | apply tamely_modify; intro; solve [tame_stack]
    | match goal with
      | |- tamely (if ?b then _ else _) => destruct b
      | |- tamely (match ?x with _ => _ end) => destruct x
      end ].
Qed.

(** [tamely m] by the structure of [m]. *)
Ltac tame_go :=
  repeat first
    [ apply tamely_get_dirsize
    | apply tamely_read_tables
    | apply tamely_write_tables
    | apply tamely_write_super_block
    | apply steadily_tamely; first [apply steadily_check | solve [steady_go]]
    | apply tamely_bind; [|intro]
    | apply tamely_when
    | apply tamely_modify; intro; solve [tame_stack]
    | match goal with
      | |- tamely (if ?b then _ else _) => destruct b
      | |- tamely (match ?x with _ => _ end) => destruct x
      end ].

Lemma printed_accounted g :
  Forall (fun e => exists m, e = Printed m) (out g) -> accounted g.
Proof.
  intros H. split.
  - eapply Forall_impl; [|exact H]. intros e [m ->]. exact I.
  - intros (q & d & Hin). rewrite Forall_forall in H.
    destruct (H _ Hin) as [m Hm]. discriminate.
Qed.

Lemma read_superblock_out g :
  out (final (read_superblock g)) = out g
  \/ out (final (read_superblock g)) = out g ++ [Printed Fatal_error].
Proof.
  unfold read_superblock, check_sizes. sx. all: cbn [final]; proj_red; auto.
Qed.

Lemma accounted_final {A : Type} (m : M A) g :
  tamely m -> accounted g -> accounted (final (m g)).
Proof. intros H Hg. eapply accounted_tame; [exact Hg | apply H]. Qed.

Lemma run_accounted fuel argv w : accounted (final (run fuel argv w)).
Proof.
  unfold run, main, main_from.
  destruct (version_request argv).
  { apply printed_accounted. repeat constructor. eexists. reflexivity. }
  destruct (parse_args initial_options (tl argv)) as [o|].
  2: { apply printed_accounted. repeat constructor. eexists. reflexivity. }
  unfold bind at 1. unfold modify at 1.
  destruct (device_name o).
  2: { apply printed_accounted. repeat constructor. eexists. reflexivity. }
  unfold bind at 1.
  destruct (repair o && negb (automatic o) && negb (w_tty w)).
  { apply printed_accounted. repeat constructor. eexists. reflexivity. }
  unfold ret at 1.
  destruct (w_device w) as [d|].
  2: { apply printed_accounted. repeat constructor. eexists. reflexivity. }
  unfold bind at 1. unfold modify at 1. unfold bind at 1.
  pose proof (read_superblock_out (set_IN d (set_opts o (initial w)))) as Ho.
  assert (Ha : accounted
                 (final (read_superblock
                           (set_IN d (set_opts o (initial w)))))).
  { apply printed_accounted. destruct Ho as [-> | ->]; repeat constructor.
    eexists. reflexivity. }
  destruct (read_superblock (set_IN d (set_opts o (initial w))))
    as [[] g1|? g1]; cbn [final] in *; [|exact Ha].
  match goal with
  | |- accounted (final (?m g1)) => apply (accounted_final m g1); [|exact Ha]
  end.
  tame_go.
Qed.

(** ** The depth of the name stack *)

Lemma shifts_ret {A : Type} (a : A) : shifts 0 (ret a).
Proof. intros g a' g' H. injection H as _ <-. lia. Qed.

Lemma shifts_gets {A : Type} (f : globals -> A) : shifts 0 (gets f).
Proof. intros g a' g' H. injection H as _ <-. lia. Qed.

Lemma shifts_stop {A : Type} (w : stop) d : shifts d (@stop_with A w).
Proof. intros g a' g' H. discriminate. Qed.

Lemma shifts_bind {A B : Type} d1 d2 d (m : M A) (k : A -> M B) :
  shifts d1 m -> (forall a, shifts d2 (k a)) -> d = d1 + d2 ->
  shifts d (bind m k).
Proof.
  intros Hm Hk -> g b g' H. apply bind_ok in H.
  destruct H as (a & g1 & E1 & E2).
  rewrite (Hk a _ _ _ E2), (Hm _ _ _ E1). lia.
Qed.

Lemma shifts_when b (m : M unit) : shifts 0 m -> shifts 0 (when b m).
Proof. intros H. destruct b; [exact H | apply shifts_ret]. Qed.

Lemma shifts_iterate {S : Type} (body : Z -> S -> M S) :
  (forall i acc, shifts 0 (body i acc)) ->
  forall n i acc, shifts 0 (iterate n i body acc).
Proof.
  intros Hb. induction n as [|n IH]; intros i acc; cbn [iterate].
  - apply shifts_ret.
  - eapply shifts_bind; [apply Hb | intros a; apply IH | reflexivity].
Qed.

Lemma shifts_modify (f : globals -> globals) d :
  (forall g, name_depth (f g) = name_depth g + d) -> shifts d (modify f).
Proof. intros H g a g' E. injection E as _ <-. apply H. Qed.

Lemma shifts_incr : shifts 1 incr_name_depth.
Proof.
  intros g a g' H. unfold incr_name_depth in H. mred.
  injection H as _ <-. reflexivity.
Qed.

Lemma shifts_decr : shifts (-1) decr_name_depth.
Proof.
  intros g a g' H. unfold decr_name_depth in H. mred.
  injection H as _ <-. cbn. lia.
Qed.

Lemma shifts_ask q d : shifts 0 (ask q d).
Proof.
  intros g a g' H. destruct (ask_effect q d g) as (a' & g1 & E & K & _).
  rewrite E in H. injection H as _ <-. rewrite (k_name_depth _ _ K). lia.
Qed.

Lemma shifts_get_current_name : shifts 0 get_current_name.
Proof.
  intros g a g' H. apply get_current_name_ok in H. subst g'. lia.
Qed.

Lemma shifts_after {A B : Type} d (m : M A) (k : A -> M B) :
  shifts 0 m -> (forall a, shifts d (k a)) -> shifts d (bind m k).
Proof. intros Hm Hk. eapply shifts_bind; eauto. Qed.

Lemma shifts_after_incr {B : Type} d (k : unit -> M B) :
  (forall a, shifts (d - 1) (k a)) -> shifts d (bind incr_name_depth k).
Proof. intros Hk. eapply shifts_bind; [apply shifts_incr | apply Hk | lia]. Qed.

Lemma shifts_after_decr {B : Type} d (k : unit -> M B) :
  (forall a, shifts (d + 1) (k a)) -> shifts d (bind decr_name_depth k).
Proof. intros Hk. eapply shifts_bind; [apply shifts_decr | apply Hk | lia]. Qed.

Lemma shifts_eq {A : Type} d d' (m : M A) :
  shifts d' m -> d = d' -> shifts d m.
Proof. intros H ->. exact H. Qed.

Create HintDb shift.
#[local] Hint Resolve shifts_ret shifts_gets shifts_stop shifts_ask
  shifts_get_current_name : shift.

(** [shifts d m] by the structure of [m]. *)
Ltac shift_go :=
  repeat first
    [ solve [auto with shift]
    | apply shifts_after_incr; intro
    | apply shifts_after_decr; intro
    | apply shifts_after; [|intro]
    | apply shifts_when
    | apply shifts_iterate; intros
    | apply shifts_modify; intro; proj_red; lia
    | match goal with
      | |- shifts _ (if ?b then _ else _) => destruct b
      | |- shifts _ (match ?x with _ => _ end) => destruct x
      | |- shifts _ (ret _) => eapply shifts_eq; [apply shifts_ret | reflexivity]
      | |- shifts _ decr_name_depth =>
          eapply shifts_eq; [apply shifts_decr | reflexivity]
      end
    | progress cbv beta iota delta
        [index assign load store load_entry store_entry deref assign_one
         leave usage die printf get_Inode put_Inode get_slot put_slot bit
         setbit clrbit inode_in_use zone_in_use mark_inode unmark_inode
         mark_zone unmark_zone push_name strncpy_name] ].

Lemma shifts_read_block nr : shifts 0 (read_block nr).
Proof. unfold read_block. shift_go. Qed.

Lemma shifts_write_block nr buf : shifts 0 (write_block nr buf).
Proof. unfold write_block. shift_go. Qed.
#[local] Hint Resolve shifts_read_block shifts_write_block : shift.

Lemma shifts_check_zone_nr v nr c : shifts 0 (check_zone_nr_ v nr c).
Proof. unfold check_zone_nr_. shift_go. Qed.
#[local] Hint Resolve shifts_check_zone_nr : shift.

Lemma shifts_check_slot v ino k : shifts 0 (check_slot v ino k).
Proof. unfold check_slot. shift_go. Qed.

Lemma shifts_check_entry v blk i : shifts 0 (check_entry v blk i).
Proof. unfold check_entry. shift_go. Qed.
#[local] Hint Resolve shifts_check_slot shifts_check_entry : shift.

Lemma shifts_follow v ino r : shifts 0 (follow v ino r).
Proof. destruct r; cbn [follow]; shift_go. Qed.

Lemma shifts_get_inode v nr : shifts 0 (get_inode_ v nr).
Proof. unfold get_inode_. shift_go. Qed.

Lemma shifts_add_zone v nr c : shifts 0 (add_zone_ v nr c).
Proof. unfold add_zone_. shift_go. Qed.
#[local] Hint Resolve shifts_follow shifts_get_inode shifts_add_zone : shift.

Lemma shifts_add_zone_0 v nr c : shifts 0 (add_zone_0 v nr c).
Proof. unfold add_zone_0. shift_go. Qed.
#[local] Hint Resolve shifts_add_zone_0 : shift.

Lemma shifts_add_zone_entry v each i acc :
  (forall nr c, shifts 0 (each nr c)) ->
  shifts 0 (add_zone_entry v each i acc).
Proof. intros H. unfold add_zone_entry. shift_go. Qed.

Lemma shifts_add_zone_level v each nr c :
  (forall nr c, shifts 0 (each nr c)) ->
  shifts 0 (add_zone_level v each nr c).
Proof.
  intros H. unfold add_zone_level.
  pose proof (fun i acc => shifts_add_zone_entry v each i acc H).
  shift_go.
Qed.

Lemma shifts_add_zone_ind v nr c : shifts 0 (add_zone_ind_ v nr c).
Proof. apply shifts_add_zone_level. apply shifts_add_zone_0. Qed.

Lemma shifts_add_zone_dind v nr c : shifts 0 (add_zone_dind_ v nr c).
Proof. apply shifts_add_zone_level. apply shifts_add_zone_ind. Qed.

Lemma shifts_add_zone_tind v nr c : shifts 0 (add_zone_tind_ v nr c).
Proof. apply shifts_add_zone_level. apply shifts_add_zone_dind. Qed.
#[local] Hint Resolve shifts_add_zone_ind shifts_add_zone_dind
  shifts_add_zone_tind : shift.

Lemma shifts_on_slot v ino k f :
  (forall nr c, shifts 0 (f nr c)) -> shifts 0 (on_slot v ino k f).
Proof. intros H. unfold on_slot. shift_go. Qed.

Lemma shifts_check_zones v i : shifts 0 (check_zones_ v i).
Proof.
  unfold check_zones_.
  pose proof (fun k f H => shifts_on_slot v i k f H).
  shift_go.
Qed.
#[local] Hint Resolve shifts_check_zones : shift.

Lemma shifts_check_file v recurse dir offset :
  (forall ino, shifts 0 (recurse ino)) ->
  shifts 0 (check_file_ v recurse dir offset).
Proof. intros H. unfold check_file_. shift_go. Qed.

Lemma shifts_dir_loop body ino :
  (forall offset, shifts 0 (body offset)) ->
  forall fuel offset, shifts 0 (dir_loop fuel body ino offset).
Proof.
  intros H. induction fuel as [|fuel IH]; intros offset; cbn [dir_loop];
    shift_go.
Qed.

Lemma shifts_recursive_check v :
  forall fuel ino, shifts 0 (recursive_check_ v fuel ino).
Proof.
  induction fuel as [|fuel IH]; intros ino; cbn [recursive_check_].
  - shift_go.
  - pose proof (fun body ino H fuel offset =>
                  shifts_dir_loop body ino H fuel offset).
    pose proof (fun dir offset =>
                  shifts_check_file v (recursive_check_ v fuel) dir offset IH).
    shift_go.
Qed.

(** ** ask *)

Lemma ask_loop_skips junk : forall input d,
  undecided junk -> ask_loop (junk ++ input) d = ask_loop input d.
Proof.
  induction junk as [|c junk IH]; intros input d H; [reflexivity|].
  inversion H as [|? ? Hc Hj]; subst. cbn [app ask_loop].
  unfold decides in Hc. apply orb_false_iff in Hc. destruct Hc as [Hc H10].
  apply orb_false_iff in Hc. destruct Hc as [Hc H32].
  apply orb_false_iff in Hc. destruct Hc as [H89 H78].
  rewrite H89, H78, H32, H10. cbn [orb]. apply IH. exact Hj.
Qed.

Lemma ask_loop_decided c rest d :
  decides c = true -> ask_loop (c :: rest) d = (verdict c d, rest).
Proof.
  intros H. cbn [ask_loop]. unfold verdict, decides in *.
  destruct (toupper c =? 89); [reflexivity|].
  destruct (toupper c =? 78); [reflexivity|].
  cbn [orb] in H. rewrite H. reflexivity.
Qed.

Lemma ask_loop_end d : ask_loop [] d = (d, []).
Proof. reflexivity. Qed.

Lemma ask_interactively q d g :
  repair (opts g) = true -> automatic (opts g) = false ->
  ask q d g
  = Ok (fst (ask_loop (stdin g) d))
      (log (Asked q d (fst (ask_loop (stdin g) d)))
         (if fst (ask_loop (stdin g) d)
          then set_stdin (snd (ask_loop (stdin g) d)) g
          else set_errors_uncorrected true
                 (set_stdin (snd (ask_loop (stdin g) d)) g))).
Proof.
  intros Hr Ha. unfold ask. mred. rewrite Hr, Ha. cbn [negb].
  destruct (ask_loop (stdin g) d) as [[|] rest]; reflexivity.
Qed.

(** In interactive mode the first of y, Y, n, N, space and newline in the
    input decides, what comes before it is skipped and what follows is
    left; y is yes, n is no, space and newline the default; at the end of
    input the answer is the default.  An answer no raises
    [errors_uncorrected]. *)
Theorem ask_reads_first_answer q d g :
  repair (opts g) = true -> automatic (opts g) = false ->
  (forall junk c rest,
     undecided junk -> decides c = true -> stdin g = junk ++ c :: rest ->
     exists g', ask q d g = Ok (verdict c d) g' /\ stdin g' = rest
       /\ errors_uncorrected g'
          = errors_uncorrected g || negb (verdict c d))
  /\ (undecided (stdin g) ->
      exists g', ask q d g = Ok d g' /\ stdin g' = []
        /\ errors_uncorrected g' = errors_uncorrected g || negb d).
Proof.
  intros Hr Ha. rewrite (ask_interactively q d g Hr Ha). split.
  - intros junk c rest Hj Hc E. rewrite E, (ask_loop_skips junk _ d Hj).
    rewrite (ask_loop_decided c rest d Hc). cbn [fst snd].
    eexists. split; [reflexivity|].
    destruct (verdict c d); proj_red; split; try reflexivity.
    + rewrite orb_false_r. reflexivity.
    + rewrite orb_true_r. reflexivity.
  - intros Hj. rewrite <- (app_nil_r (stdin g)).
    rewrite (ask_loop_skips (stdin g) [] d Hj). cbn [ask_loop fst snd].
    eexists. split; [reflexivity|].
    destruct d; proj_red; split; try reflexivity.
    + rewrite orb_false_r. reflexivity.
    + rewrite orb_true_r. reflexivity.
Qed.

Lemma ask_reads_first_answer_witness :
  let g := set_stdin [120; 121; 110]
             (set_opts (with_repair initial_options false true)
                (initial (Fixture.world_of (Fixture.clean_v1 0)))) in
  exists g', ask "Clear" false g = Ok true g' /\ stdin g' = [110]
    /\ errors_uncorrected g' = false.
Proof.
  cbv zeta.
  refine (proj1 (ask_reads_first_answer "Clear" false
                   (set_stdin [120; 121; 110]
                      (set_opts (with_repair initial_options false true)
                         (initial (Fixture.world_of (Fixture.clean_v1 0)))))
                   eq_refl eq_refl)
            [120] 121 [110] _ eq_refl eq_refl).
  repeat constructor.
Defined.

(** ** check, as a whole *)


(** [main] returns 0, plus 3 if [changed], plus 4 if
    [errors_uncorrected]. *)
Lemma returned_status fuel argv w code g :
  run fuel argv w = Ok code g ->
  code = (if changed g then 3 else 0) + (if errors_uncorrected g then 4 else 0).
Proof.
  intros H. unfold run, main, main_from in H.
  destruct (version_request argv); [discriminate|].
  destruct (parse_args initial_options (tl argv)) as [o|] eqn:Ep;
    [|discriminate].
  pose proof (parse_args_force _ _ Ep) as Hf.
  apply bind_ok in H. destruct H as (? & g1 & _ & H).
  destruct (device_name o); [|discriminate].
  apply bind_ok in H. destruct H as (? & g2 & _ & H).
  destruct (w_device w); [|discriminate].
  apply bind_ok in H. destruct H as (? & g3 & _ & H).
  apply bind_ok in H. destruct H as (? & g4 & _ & H).
  apply bind_ok in H. destruct H as (sb & g5 & _ & H).
  rewrite Hf in H. cbn [negb] in H. rewrite andb_false_r in H.
  repeat (apply bind_ok in H; destruct H as (? & ? & ? & H)).
  unfold gets, ret in *.
  repeat match goal with
    | H : Ok _ _ = Ok _ _ |- _ => injection H as ? ?; subst
    end.
  reflexivity.
Qed.

(** ** Runs, whatever the mode *)



(** In any mode, a question answered no leaves [errors_uncorrected]
    raised for the rest of the run: when [main] returns, its status has the
    4 bit. *)
Theorem declined_question_shows fuel argv w q d :
  In (Asked q d false) (out (final (run fuel argv w))) ->
  errors_uncorrected (final (run fuel argv w)) = true
  /\ forall code g, run fuel argv w = Ok code g -> Z.testbit code 2 = true.
Proof.
  intros Hin. destruct (run_accounted fuel argv w) as [_ D].
  assert (He : errors_uncorrected (final (run fuel argv w)) = true)
    by (apply D; exists q, d; exact Hin).
  split; [exact He|]. intros code g E.
  rewrite (returned_status _ _ _ _ _ E). rewrite E in He. cbn [final] in He.
  rewrite He. destruct (changed g); reflexivity.
Qed.

Lemma declined_question_shows_witness :
  exists g,
    run 10 ["mfsck"; "-r"; "img"]%string
      (Sample.at_terminal Sample.bad_entry_v1 [110]) = Ok 4 g
    /\ errors_uncorrected g = true.
Proof.
  eexists. split; [vm_compute; reflexivity|].
  refine (proj1 (declined_question_shows 10 ["mfsck"; "-r"; "img"]%string
                   (Sample.at_terminal Sample.bad_entry_v1 [110])
                   " Remove" true _)).
  vm_compute. do 2 right. left. reflexivity.
Defined.

(** When [recursive_check] or [recursive_check2] returns, [name_depth] is
    what it was at the call: every entry pushed on the name stack has been
    popped, on each of the return paths of [check_file]. *)
Theorem name_depth_is_restored v fuel ino g g' :
  recursive_check_ v fuel ino g = Ok tt g' -> name_depth g' = name_depth g.
Proof.
  intros H. rewrite (shifts_recursive_check v fuel ino g tt g' H). lia.
Qed.

Lemma name_depth_is_restored_witness :
  name_depth (final (recursive_check 10 ROOT_INO
                       (Fixture.loaded (Fixture.chain 3))))
  = name_depth (Fixture.loaded (Fixture.chain 3)).
Proof.
  refine (name_depth_is_restored V1 10 ROOT_INO
            (Fixture.loaded (Fixture.chain 3)) _ _).
  vm_compute. reflexivity.
Defined.

(** ** get_current_name *)

Lemma copy_name_length : forall ct p c,
  copy_name ct p = Some c ->
  (List.length c <= ct)%nat /\ ~ In 0 c.
Proof.
  induction ct as [|ct IH]; intros p c H; cbn [copy_name] in H.
  - injection H as <-. split; [apply Nat.le_refl | intros []].
  - destruct p as [|x p]; [discriminate|].
    destruct (Z.eqb_spec x 0).
    + injection H as <-. split; [apply Nat.le_0_l | intros []].
    + destruct (copy_name ct p) as [c'|] eqn:E; [|discriminate].
      injection H as <-. destruct (IH p c' E) as [Hl Hn].
      split; [cbn; lia|]. intros [Hx|Hin]; [lia | exact (Hn Hin)].
Qed.

Lemma render_names_length names len : forall todo i s,
  render_names names len i todo = inr s ->
  (List.length s <= todo * (len + 1))%nat /\ ~ In 0 s
  /\ (todo <> O -> hd 0 s = 47).
Proof.
  induction todo as [|todo IH]; intros i s H; cbn [render_names] in H.
  - injection H as <-. split; [apply Nat.le_0_l|].
    split; [intros [] | intros N; contradiction].
  - destruct (zget names i) as [p|]; [|discriminate].
    destruct (copy_name len p) as [c|] eqn:Ec; [|discriminate].
    destruct (render_names names len (i + 1) todo) as [e|rest] eqn:Er;
      [discriminate|].
    injection H as <-. destruct (IH _ _ Er) as (Hl & Hn & _).
    destruct (copy_name_length _ _ _ Ec) as [Hc Hc0].
    split; [|split].
    + cbn [List.length]. rewrite length_app. nia.
    + intros [Hx|Hin]; [discriminate|].
      apply in_app_or in Hin. destruct Hin; auto.
    + intros _. reflexivity.
Qed.

(** With at most [MAX_DEPTH] names of at most [NAME_MAX] bytes on the
    stack, the text [get_current_name] builds starts with a slash, holds no
    NUL, and fits with its final NUL in the [MAX_DEPTH*(NAME_MAX+1)+1]
    bytes of [current_name]; the globals are left as they were. *)
Theorem current_name_fits g s g' :
  get_current_name g = Ok s g' ->
  name_depth g <= MAX_DEPTH -> namelen g <= NAME_MAX ->
  g' = g /\ hd 0 s = 47 /\ ~ In 0 s
  /\ Z.of_nat (List.length s) + 1 <= MAX_DEPTH * (NAME_MAX + 1) + 1.
Proof.
  intros H Hd Hn. split; [exact (get_current_name_ok _ _ _ H)|].
  revert H. unfold get_current_name. mred.
  destruct (Z.leb_spec (name_depth g) 0) as [Hle|Hlt]; intros H.
  - injection H as <- _. split; [reflexivity|].
    split; [intros [E|[]]; discriminate | vm_compute; discriminate].
  - destruct (render_names (name_list g) (Z.to_nat (namelen g)) 0
                (Z.to_nat (name_depth g))) as [[a i]|s'] eqn:E;
      [discriminate|].
    injection H as <- _.
    destruct (render_names_length _ _ _ _ _ E) as (Hl & H0 & Hh).
    split; [apply Hh; lia|]. split; [exact H0|].
    unfold MAX_DEPTH, NAME_MAX in *. nia.
Qed.

Lemma current_name_fits_witness :
  exists s,
    get_current_name
      (set_name_depth 2 (Fixture.loaded (Fixture.clean_v1 0)))
    = Ok s (set_name_depth 2 (Fixture.loaded (Fixture.clean_v1 0)))
    /\ hd 0 s = 47.
Proof.
  eexists. split; [vm_compute; reflexivity|].
  refine (proj1 (proj2 (current_name_fits
            (set_name_depth 2 (Fixture.loaded (Fixture.clean_v1 0)))
            _ _ _ _ _))).
  - vm_compute. reflexivity.
  - vm_compute. discriminate.
  - vm_compute. discriminate.
Defined.

(** ** map_block *)




(** ** read_block and write_block *)

Lemma map_u8_bytes b : Forall (fun x => 0 <= x < 256) b -> map u8 b = b.
Proof.
  induction 1 as [|x l Hx _ IH]; [reflexivity|].
  cbn [map]. rewrite IH. f_equal. unfold u8, wrap. apply Z.mod_small.
  exact Hx.
Qed.

(** A block written among the data zones of a volume of at most [2^22]
    zones, on a device that takes the seek and the write, is what
    [read_block] returns for that number afterwards; the other blocks of the
    device and the two flags are left as they were. *)
Theorem write_then_read_block g nr buf :
  0 < nr < 2 ^ 22 -> FIRSTZONE g <= nr < ZONES g ->
  dev_seek_ok (IN g) (BLOCK_SIZE * nr) = true ->
  dev_write_ok (IN g) (BLOCK_SIZE * nr) = true ->
  is_block buf ->
  exists g', write_block nr buf g = Ok tt g'
    /\ read_block nr g' = Ok buf g'
    /\ (forall m, m <> nr -> dev_block (IN g') m = dev_block (IN g) m)
    /\ changed g' = changed g
    /\ errors_uncorrected g' = errors_uncorrected g.
Proof.
  intros Hnr Hr Hs Hw [Hl Hb].
  assert (U : u32 nr = nr) by (apply u32_small; lia).
  assert (P : u32 (BLOCK_SIZE * nr) = BLOCK_SIZE * nr)
    by (apply u32_small; unfold BLOCK_SIZE; lia).
  assert (D : BLOCK_SIZE * nr / BLOCK_SIZE = nr)
    by (unfold BLOCK_SIZE; rewrite Z.mul_comm; apply Z.div_mul; lia).
  eexists. split.
  { unfold write_block. cbv zeta. mred. rewrite U, P, D.
    destruct (Z.eqb_spec nr 0); [lia|].
    destruct (Z.ltb_spec nr (FIRSTZONE g)); [lia|].
    rewrite Z.geb_leb. destruct (Z.leb_spec (ZONES g) nr); [lia|].
    cbn [orb]. mred. rewrite Hs. cbn [negb]. mred. rewrite Hw. mred.
    reflexivity. }
  split.
  { unfold read_block. cbv zeta. mred. rewrite U, P, D.
    destruct (Z.eqb_spec nr 0); [lia|]. mred. proj_red.
    cbn [dev_with_block dev_seek_ok dev_block]. rewrite Hs. cbn [negb].
    rewrite Z.eqb_refl, Hl, Z.eqb_refl, (map_u8_bytes buf Hb). reflexivity. }
  proj_red. cbn [dev_with_block dev_block].
  split; [|split; reflexivity].
  intros m Hm. destruct (Z.eqb_spec m nr); [contradiction | reflexivity].
Qed.

Lemma write_then_read_block_witness :
  exists g',
    write_block 5 Fixture.root_block (Fixture.loaded (Fixture.clean_v1 0))
    = Ok tt g'
    /\ read_block 5 g' = Ok Fixture.root_block g'.
Proof.
  destruct (write_then_read_block (Fixture.loaded (Fixture.clean_v1 0)) 5
              Fixture.root_block)
    as (g' & E1 & E2 & _).
  - lia.
  - vm_compute. split; [discriminate | reflexivity].
  - reflexivity.
  - reflexivity.
  - split; [reflexivity|]. unfold Fixture.root_block, Fixture.blk.
    vm_compute. repeat constructor; discriminate.
  - exists g'. split; assumption.
Defined.

(** ** The bitmaps *)

Lemma testbit_one k : 0 <= k -> Z.testbit 1 k = (k =? 0).
Proof.
  intros H. destruct (Z.eqb_spec k 0) as [->|N]; [reflexivity|].
  apply (Z.bits_above_log2 1 k); [lia|]. cbn. lia.
Qed.

Lemma testbit_mask i j :
  0 <= i -> 0 <= j -> Z.testbit (Z.shiftl 1 i) j = (j =? i).
Proof.
  intros Hi Hj. rewrite Z.shiftl_spec by exact Hj.
  destruct (Z.ltb_spec j i).
  - rewrite Z.testbit_neg_r by lia. symmetry. apply Z.eqb_neq. lia.
  - rewrite testbit_one by lia.
    destruct (Z.eqb_spec (j - i) 0), (Z.eqb_spec j i); try lia; reflexivity.
Qed.

Lemma same_byte_other_bit i j :
  i <> j -> i / 8 = j / 8 -> (j mod 8 =? i mod 8) = false.
Proof.
  intros N E. apply Z.eqb_neq. intros M.
  pose proof (Z.div_mod i 8 ltac:(lia)). pose proof (Z.div_mod j 8 ltac:(lia)).
  lia.
Qed.

(** A byte of a map rewritten so that bit [i] becomes [v] and the other
    bits of the byte stay. *)
Lemma bit_at_update buf buf' i b b' v :
  zget buf (i / 8) = Some b -> zset buf (i / 8) b' = Some buf' ->
  Z.testbit b' (i mod 8) = v ->
  (forall k, 0 <= k -> k <> i mod 8 -> Z.testbit b' k = Z.testbit b k) ->
  List.length buf' = List.length buf
  /\ bit_at buf' i = Some v
  /\ forall j, j <> i -> bit_at buf' j = bit_at buf j.
Proof.
  intros Eg Es Hv Ho. split; [exact (zset_length _ _ _ _ Es)|].
  unfold bit_at. split.
  - rewrite (zset_same _ _ _ _ Es). cbn [option_map]. rewrite Hv. reflexivity.
  - intros j N. destruct (Z.eq_dec (j / 8) (i / 8)) as [E|E].
    + rewrite E, (zset_same _ _ _ _ Es), Eg. cbn [option_map]. f_equal.
      apply Ho; [apply Z.mod_pos_bound; lia|].
      intros M. pose proof (same_byte_other_bit i j ltac:(lia) ltac:(lia)) as F.
      apply Z.eqb_neq in F. contradiction.
    + rewrite (zset_other _ _ _ _ _ Es E). reflexivity.
Qed.

Lemma setbit_spec a buf i g buf' g' :
  setbit a buf i g = Ok buf' g' ->
  g' = g /\ List.length buf' = List.length buf
  /\ bit_at buf' i = Some true
  /\ forall j, j <> i -> bit_at buf' j = bit_at buf j.
Proof.
  unfold setbit, index, assign. mred.
  destruct (zget buf (i / 8)) as [b|] eqn:Eg; [|discriminate].
  destruct (zset buf (i / 8) _) as [l|] eqn:Es; [|discriminate].
  intros H. injection H as <- <-. split; [reflexivity|].
  pose proof (Z.mod_pos_bound i 8 ltac:(lia)) as Hm.
  apply (bit_at_update buf l i b _ true Eg Es).
  - rewrite Z.lor_spec, testbit_mask by lia. rewrite Z.eqb_refl.
    apply orb_true_r.
  - intros k Hk N. rewrite Z.lor_spec, testbit_mask by lia.
    destruct (Z.eqb_spec k (i mod 8)); [contradiction | apply orb_false_r].
Qed.

Lemma clrbit_spec a buf i g buf' g' :
  clrbit a buf i g = Ok buf' g' ->
  g' = g /\ List.length buf' = List.length buf
  /\ bit_at buf' i = Some false
  /\ forall j, j <> i -> bit_at buf' j = bit_at buf j.
Proof.
  unfold clrbit, index, assign. mred.
  destruct (zget buf (i / 8)) as [b|] eqn:Eg; [|discriminate].
  destruct (zset buf (i / 8) _) as [l|] eqn:Es; [|discriminate].
  intros H. injection H as <- <-. split; [reflexivity|].
  pose proof (Z.mod_pos_bound i 8 ltac:(lia)) as Hm.
  apply (bit_at_update buf l i b _ false Eg Es).
  - rewrite Z.ldiff_spec, testbit_mask by lia. rewrite Z.eqb_refl.
    apply andb_false_r.
  - intros k Hk N. rewrite Z.ldiff_spec, testbit_mask by lia.
    destruct (Z.eqb_spec k (i mod 8)); [contradiction | apply andb_true_r].
Qed.

Lemma bit_spec a buf i g b g' :
  bit a buf i g = Ok b g' -> g' = g /\ bit_at buf i = Some b.
Proof.
  unfold bit, index, bit_at. mred.
  destruct (zget buf (i / 8)) as [x|]; [|discriminate].
  intros H. injection H as <- <-. split; reflexivity.
Qed.

Lemma inode_in_use_reads x g :
  inode_in_use x g
  = match inode_bit g x with
    | Some b => Ok b g
    | None => Stop (Out_of_bounds A_inode_map (x / 8)) g
    end.
Proof.
  unfold inode_in_use, inode_bit, bit_at, bit, index. mred.
  destruct (zget (inode_map g) (x / 8)); reflexivity.
Qed.

Lemma zone_in_use_reads x g :
  zone_in_use x g
  = match zone_bit g x with
    | Some b => Ok b g
    | None =>
        Stop (Out_of_bounds A_zone_map (ulong (x - FIRSTZONE g + 1) / 8)) g
    end.
Proof.
  unfold zone_in_use, zone_bit, bit_at, bit, index. mred.
  destruct (zget (zone_map g) (ulong (x - FIRSTZONE g + 1) / 8));
    reflexivity.
Qed.

Lemma mark_inode_spec x g g' :
  mark_inode x g = Ok tt g' ->
  exists m, g' = set_changed true (set_inode_map m g)
    /\ List.length m = List.length (inode_map g)
    /\ bit_at m x = Some true
    /\ forall j, j <> x -> bit_at m j = bit_at (inode_map g) j.
Proof.
  unfold mark_inode. intros H.
  apply bind_ok in H. destruct H as (m0 & g0 & E0 & H).
  injection E0 as <- <-.
  apply bind_ok in H. destruct H as (m & g1 & E1 & H).
  apply setbit_spec in E1. destruct E1 as (-> & Hl & Hb & Ho).
  mred. injection H as <-. exists m. auto.
Qed.

Lemma unmark_inode_spec x g g' :
  unmark_inode x g = Ok tt g' ->
  exists m, g' = set_changed true (set_inode_map m g)
    /\ List.length m = List.length (inode_map g)
    /\ bit_at m x = Some false
    /\ forall j, j <> x -> bit_at m j = bit_at (inode_map g) j.
Proof.
  unfold unmark_inode. intros H.
  apply bind_ok in H. destruct H as (m0 & g0 & E0 & H).
  injection E0 as <- <-.
  apply bind_ok in H. destruct H as (m & g1 & E1 & H).
  apply clrbit_spec in E1. destruct E1 as (-> & Hl & Hb & Ho).
  mred. injection H as <-. exists m. auto.
Qed.

Lemma mark_zone_spec x g g' :
  mark_zone x g = Ok tt g' ->
  exists m, g' = set_changed true (set_zone_map m g)
    /\ List.length m = List.length (zone_map g)
    /\ bit_at m (ulong (x - FIRSTZONE g + 1)) = Some true
    /\ forall j, j <> ulong (x - FIRSTZONE g + 1) ->
         bit_at m j = bit_at (zone_map g) j.
Proof.
  unfold mark_zone. intros H.
  apply bind_ok in H. destruct H as (m0 & g0 & E0 & H).
  injection E0 as <- <-.
  apply bind_ok in H. destruct H as (fz & g0 & E0 & H).
  injection E0 as <- <-.
  apply bind_ok in H. destruct H as (m & g1 & E1 & H).
  apply setbit_spec in E1. destruct E1 as (-> & Hl & Hb & Ho).
  mred. injection H as <-. exists m. auto.
Qed.

Lemma unmark_zone_spec x g g' :
  unmark_zone x g = Ok tt g' ->
  exists m, g' = set_changed true (set_zone_map m g)
    /\ List.length m = List.length (zone_map g)
    /\ bit_at m (ulong (x - FIRSTZONE g + 1)) = Some false
    /\ forall j, j <> ulong (x - FIRSTZONE g + 1) ->
         bit_at m j = bit_at (zone_map g) j.
Proof.
  unfold unmark_zone. intros H.
  apply bind_ok in H. destruct H as (m0 & g0 & E0 & H).
  injection E0 as <- <-.
  apply bind_ok in H. destruct H as (fz & g0 & E0 & H).
  injection E0 as <- <-.
  apply bind_ok in H. destruct H as (m & g1 & E1 & H).
  apply clrbit_spec in E1. destruct E1 as (-> & Hl & Hb & Ho).
  mred. injection H as <-. exists m. auto.
Qed.

Lemma ulong_small x : 0 <= x < 2 ^ 64 -> ulong x = x.
Proof. intros H. unfold ulong, wrap. apply Z.mod_small. exact H. Qed.

(** [mark_inode] and [unmark_inode]: when the macro has run,
    [inode_in_use] of that inode is what was asked for and [changed] is
    raised; the bits of the other inodes, the size of the map and the other
    tables are as they were. *)
Theorem inode_map_marks (set : bool) x g g' :
  (if set then mark_inode x else unmark_inode x) g = Ok tt g' ->
  inode_in_use x g' = Ok set g' /\ changed g' = true
  /\ (forall y, y <> x -> inode_bit g' y = inode_bit g y)
  /\ List.length (inode_map g') = List.length (inode_map g)
  /\ zone_map g' = zone_map g /\ Inode g' = Inode g
  /\ inode_count g' = inode_count g /\ zone_count g' = zone_count g
  /\ errors_uncorrected g' = errors_uncorrected g /\ out g' = out g.
Proof.
  intros H.
  assert (exists m, g' = set_changed true (set_inode_map m g)
            /\ List.length m = List.length (inode_map g)
            /\ bit_at m x = Some set
            /\ forall j, j <> x -> bit_at m j = bit_at (inode_map g) j)
    as (m & -> & Hl & Hb & Ho)
    by (destruct set; [apply mark_inode_spec | apply unmark_inode_spec];
        exact H).
  rewrite inode_in_use_reads. unfold inode_bit. proj_red. rewrite Hb.
  repeat split; auto.
Qed.

Lemma inode_map_marks_witness :
  let g := Fixture.loaded (Fixture.clean_v1 0) in
  inode_in_use 7 (final (mark_inode 7 g)) = Ok true (final (mark_inode 7 g))
  /\ inode_bit (final (mark_inode 7 g)) 1 = inode_bit g 1.
Proof.
  cbv zeta.
  destruct (inode_map_marks true 7 (Fixture.loaded (Fixture.clean_v1 0))
              (final (mark_inode 7 (Fixture.loaded (Fixture.clean_v1 0)))))
    as (E & _ & O & _).
  - vm_compute. reflexivity.
  - split; [exact E | apply O; discriminate].
Defined.

(** [mark_zone] and [unmark_zone]: when the macro has run on a zone from
    [FIRSTZONE] on, [zone_in_use] of that zone is what was asked for and
    [changed] is raised; the bits of the other zones from [FIRSTZONE] on,
    the size of the map and the other tables are as they were. *)
Theorem zone_map_marks (set : bool) x g g' :
  (if set then mark_zone x else unmark_zone x) g = Ok tt g' ->
  0 <= FIRSTZONE g <= x -> x < 2 ^ 32 ->
  zone_in_use x g' = Ok set g' /\ changed g' = true
  /\ (forall y, FIRSTZONE g <= y < 2 ^ 32 -> y <> x ->
        zone_bit g' y = zone_bit g y)
  /\ List.length (zone_map g') = List.length (zone_map g)
  /\ inode_map g' = inode_map g /\ Inode g' = Inode g
  /\ inode_count g' = inode_count g /\ zone_count g' = zone_count g
  /\ errors_uncorrected g' = errors_uncorrected g /\ out g' = out g.
Proof.
  intros H Hf Hx.
  assert (exists m, g' = set_changed true (set_zone_map m g)
            /\ List.length m = List.length (zone_map g)
            /\ bit_at m (ulong (x - FIRSTZONE g + 1)) = Some set
            /\ forall j, j <> ulong (x - FIRSTZONE g + 1) ->
                 bit_at m j = bit_at (zone_map g) j)
    as (m & -> & Hl & Hb & Ho)
    by (destruct set; [apply mark_zone_spec | apply unmark_zone_spec];
        exact H).
  rewrite zone_in_use_reads. unfold zone_bit, FIRSTZONE in *. proj_red.
  rewrite Hb. repeat split; auto.
  intros y Hy N. apply Ho. rewrite !ulong_small by lia. lia.
Qed.

Lemma zone_map_marks_witness :
  let g := Fixture.loaded (Fixture.clean_v1 0) in
  zone_in_use 9 (final (mark_zone 9 g)) = Ok true (final (mark_zone 9 g))
  /\ zone_bit (final (mark_zone 9 g)) 5 = zone_bit g 5.
Proof.
  cbv zeta.
  destruct (zone_map_marks true 9 (Fixture.loaded (Fixture.clean_v1 0))
              (final (mark_zone 9 (Fixture.loaded (Fixture.clean_v1 0)))))
    as (E & _ & O & _).
  - vm_compute. reflexivity.
  - vm_compute. split; discriminate.
  - reflexivity.
  - split; [exact E | apply O; [vm_compute; split; [discriminate | reflexivity] | discriminate]].
Defined.

(** ** The tables read_tables leaves *)









(** ** get_dirsize *)

Lemma get_dirsize_loop_find blk :
  get_dirsize_loop 7 blk 16 = find (dotdot_at blk) strides.
Proof.
  unfold strides, dotdot_at. cbn [get_dirsize_loop find].
  change (16 <? BLOCK_SIZE) with true. cbv iota.
  destruct (strcmp_eq (skipn (Z.to_nat (16 + 2)) blk) [46; 46]);
    [reflexivity|].
  change (Z.shiftl 16 1) with 32. change (32 <? BLOCK_SIZE) with true.
  cbv iota.
  destruct (strcmp_eq (skipn (Z.to_nat (32 + 2)) blk) [46; 46]);
    [reflexivity|].
  change (Z.shiftl 32 1) with 64. change (64 <? BLOCK_SIZE) with true.
  cbv iota.
  destruct (strcmp_eq (skipn (Z.to_nat (64 + 2)) blk) [46; 46]);
    [reflexivity|].
  change (Z.shiftl 64 1) with 128. change (128 <? BLOCK_SIZE) with true.
  cbv iota.
  destruct (strcmp_eq (skipn (Z.to_nat (128 + 2)) blk) [46; 46]);
    [reflexivity|].
  change (Z.shiftl 128 1) with 256. change (256 <? BLOCK_SIZE) with true.
  cbv iota.
  destruct (strcmp_eq (skipn (Z.to_nat (256 + 2)) blk) [46; 46]);
    [reflexivity|].
  change (Z.shiftl 256 1) with 512. change (512 <? BLOCK_SIZE) with true.
  cbv iota.
  destruct (strcmp_eq (skipn (Z.to_nat (512 + 2)) blk) [46; 46]);
    reflexivity.
Qed.

(** [get_dirsize] takes the first of the strides 16, 32, ..., 512 at which
    the first block of the root directory holds [".."] two bytes into its
    second entry, whatever the magic number said: [dirsize] becomes that
    stride and [namelen] two less (510 for a stride of 512); with no such
    stride both stay. *)
Theorem get_dirsize_takes_first_match g g' :
  get_dirsize g = Ok tt g' ->
  exists blk g1,
    root_dir_block g = Ok blk g1
    /\ match find (dotdot_at blk) strides with
       | Some s => dirsize g' = s /\ namelen g' = s - 2
       | None => dirsize g' = dirsize g1 /\ namelen g' = namelen g1
       end
    /\ version2 g' = version2 g1 /\ Super g' = Super g1.
Proof.
  unfold get_dirsize. intros H. apply bind_ok in H.
  destruct H as (blk & g1 & E & H). exists blk, g1. split; [exact E|].
  rewrite <- get_dirsize_loop_find. revert H. mred.
  destruct (get_dirsize_loop 7 blk 16) as [s|]; intros H; injection H as <-;
    proj_red; auto.
Qed.

Lemma get_dirsize_takes_first_match_witness :
  dirsize (final (get_dirsize (Fixture.loaded (Fixture.clean_v1 0)))) = 16
  /\ namelen (final (get_dirsize (Fixture.loaded (Fixture.clean_v1 0)))) = 14.
Proof.
  destruct (get_dirsize_takes_first_match
              (Fixture.loaded (Fixture.clean_v1 0))
              (final (get_dirsize (Fixture.loaded (Fixture.clean_v1 0)))))
    as (blk & g1 & E & H & _).
  - vm_compute. reflexivity.
  - assert (Eb : blk = Fixture.root_block).
    { assert (E' : root_dir_block (Fixture.loaded (Fixture.clean_v1 0))
                   = Ok Fixture.root_block
                       (Fixture.loaded (Fixture.clean_v1 0)))
        by (vm_compute; reflexivity).
      rewrite E' in E. injection E as <- _. reflexivity. }
    subst blk. exact H.
Defined.

(** ** Parts of the globals a function leaves alone *)

Section Preserves.
Context {X : Type} (f : globals -> X).

Lemma preserves_ret {A : Type} (a : A) : preserves f (ret a).
Proof. intro g. reflexivity. Qed.

Lemma preserves_gets {A : Type} (h : globals -> A) : preserves f (gets h).
Proof. intro g. reflexivity. Qed.

Lemma preserves_stop {A : Type} (w : stop) : preserves f (@stop_with A w).
Proof. intro g. reflexivity. Qed.

Lemma preserves_bind {A B : Type} (m : M A) (k : A -> M B) :
  preserves f m -> (forall a, preserves f (k a)) -> preserves f (bind m k).
Proof.
  intros Hm Hk g. unfold bind. specialize (Hm g).
  destruct (m g) as [a g1|w g1]; cbn [final] in *; [|exact Hm].
  rewrite Hk. exact Hm.
Qed.

Lemma preserves_when b (m : M unit) :
  preserves f m -> preserves f (when b m).
Proof. intros H. destruct b; [exact H | apply preserves_ret]. Qed.

Lemma preserves_iterate {S : Type} (body : Z -> S -> M S) :
  (forall i acc, preserves f (body i acc)) ->
  forall n i acc, preserves f (iterate n i body acc).
Proof.
  intros Hb. induction n as [|n IH]; intros i acc; cbn [iterate].
  - apply preserves_ret.
  - apply preserves_bind; [apply Hb | intros a; apply IH].
Qed.

Lemma preserves_modify (h : globals -> globals) :
  (forall g, f (h g) = f g) -> preserves f (modify h).
Proof. intros H g. apply H. Qed.

Lemma preserves_get_current_name : preserves f get_current_name.
Proof. intro g. rewrite get_current_name_globals. reflexivity. Qed.

End Preserves.

(** [preserves f (ask q d)] for a field [f] that [ask] keeps. *)
Ltac preserves_ask :=
  match goal with
  | |- preserves _ (ask ?q ?d) =>
      let g := fresh "g" in
      let K := fresh "K" in
      intro g; destruct (ask_effect q d g) as (? & ? & -> & K & _);
      cbn [final]; destruct K; cbv beta; unfold INODES, ZONES, FIRSTZONE;
      congruence
  end.

(** [preserves f m] by the structure of [m]. *)
Ltac preserves_go :=
  repeat first
    [ apply preserves_ret
    | apply preserves_gets
    | apply preserves_stop
    | apply preserves_get_current_name
    | preserves_ask
    | assumption
    | solve [auto]
    | apply preserves_bind; [|intro]
    | apply preserves_when
    | apply preserves_iterate; intros
    | apply preserves_modify; intro; unfold INODES, ZONES, FIRSTZONE;
      proj_red; reflexivity
    | match goal with
      | |- preserves _ (if ?b then _ else _) => destruct b
      | |- preserves _ (match ?x with _ => _ end) => destruct x
      end
    | progress cbv beta iota delta
        [index assign load store load_entry store_entry deref assign_one
         leave usage die printf get_Inode put_Inode get_slot put_slot bit
         setbit clrbit inode_in_use zone_in_use mark_inode unmark_inode
         mark_zone unmark_zone push_name strncpy_name incr_name_depth
         decr_name_depth] ].

Lemma incr_u8_saturates c :
  0 <= c <= 255 -> incr_u8 c = (Z.min 255 (c + 1), c =? 255).
Proof.
  intros H. unfold incr_u8, u8, wrap.
  destruct (Z.eqb_spec c 255) as [->|N]; [reflexivity|].
  rewrite (Z.mod_small (c + 1)) by lia.
  destruct (Z.eqb_spec (c + 1) 0); [lia|]. f_equal. lia.
Qed.

(** What [E : m g = Ok a g'] leaves of the part [f] of the globals. *)
Ltac frame_of E f :=
  match type of E with
  | ?m ?g = _ =>
      let P := fresh "P" in
      assert (P : preserves f m) by preserves_go;
      specialize (P g); rewrite E in P; cbn [final] in P
  end.

(** ** get_inode *)

(** [get_inode] and [get_inode2] return [NULL] for inode 0 and for a
    number above [INODES], leaving everything as it was.  For the others
    they return the inode and add one to its counter, which stays at 255
    once there: then "inode count too big" is printed and
    [errors_uncorrected] raised; the other counters are not touched. *)
Theorem get_inode_counts v nr g r g' :
  get_inode_ v nr g = Ok r g' ->
  (nr = 0 \/ INODES g < nr -> r = false /\ g' = g)
  /\ (1 <= nr <= INODES g ->
      r = true
      /\ (forall c, zget (inode_count g) nr = Some c -> 0 <= c <= 255 ->
            zget (inode_count g') nr = Some (Z.min 255 (c + 1))
            /\ (c = 255 -> errors_uncorrected g' = true
                           /\ In (Printed Inode_count_too_big) (out g')))
      /\ (forall j, j <> nr ->
            zget (inode_count g') j = zget (inode_count g) j)).
Proof.
  unfold get_inode_. intros H.
  apply bind_ok in H. destruct H as (inodes & g0 & E & H).
  injection E as <- <-. rewrite Z.gtb_ltb in H.
  destruct (Z.eqb_spec nr 0) as [Z0|N0]; cbn [orb] in H.
  { injection H as <- <-. split; [auto | lia]. }
  destruct (Z.ltb_spec (INODES g) nr) as [Hl|Hl].
  { injection H as <- <-. split; [auto | lia]. }
  split; [lia|]. intros _.
  apply bind_ok in H. destruct H as (x & g1 & E1 & H). frame_of E1 inode_count.
  apply bind_ok in H. destruct H as (ic & g2 & E2 & H).
  injection E2 as <- <-.
  apply bind_ok in H. destruct H as (c0 & g2 & E2 & H).
  frame_of E2 inode_count.
  apply bind_ok in H. destruct H as ([] & g3 & E3 & H).
  frame_of E3 inode_count.
  apply bind_ok in H. destruct H as (ic & g4 & E4 & H).
  injection E4 as <- <-.
  apply bind_ok in H. destruct H as (c & g4 & E4 & H).
  unfold index in E4. destruct (zget (inode_count g3) nr) as [c1|] eqn:Ec;
    [|discriminate].
  injection E4 as <- <-.
  assert (Eg : inode_count g3 = inode_count g) by congruence.
  destruct (incr_u8 c1) as [c' wrapped] eqn:Ei.
  apply bind_ok in H. destruct H as (ic' & g4 & E4 & H).
  unfold assign in E4.
  destruct (zset (inode_count g3) nr c') as [l|] eqn:Es; [|discriminate].
  injection E4 as <- <-.
  apply bind_ok in H. destruct H as ([] & g4 & E4 & H).
  injection E4 as <-.
  apply bind_ok in H. destruct H as ([] & g5 & E5 & H).
  injection H as <- <-. frame_of E5 inode_count. proj_red_in P2.
  split; [reflexivity|]. rewrite P2. rewrite Eg in Es, Ec. split.
  - intros c Hc Hr. rewrite Hc in Ec. injection Ec as <-.
    rewrite (incr_u8_saturates c Hr) in Ei. injection Ei as <- <-.
    split; [exact (zset_same _ _ _ _ Es)|].
    intros ->. cbn [Z.eqb Pos.eqb when] in E5. revert E5. mred.
    intros E5. injection E5 as <-. proj_red.
    split; [reflexivity|]. apply in_or_app. right. left. reflexivity.
  - intros j Hj. exact (zset_other _ _ _ _ _ Es Hj).
Qed.

Lemma get_inode_counts_witness :
  let g := Fixture.loaded (Fixture.clean_v1 0) in
  zget (inode_count (final (get_inode 1 g))) 1 = Some 1.
Proof.
  cbv zeta.
  refine (proj1 (proj1 (proj2 (proj2 (get_inode_counts V1 1
            (Fixture.loaded (Fixture.clean_v1 0)) true
            (final (get_inode 1 (Fixture.loaded (Fixture.clean_v1 0)))) _)
            _)) 0 _ _)).
  - vm_compute. reflexivity.
  - vm_compute. split; discriminate.
  - vm_compute. reflexivity.
  - lia.
Defined.

(** ** The ways a run ends *)

Lemma parse_flag_known o c :
  (exists o', parse_flag o c = Some o' /\ device_name o' = device_name o
              /\ known_flags (String c EmptyString) = true)
  \/ (parse_flag o c = None /\ known_flags (String c EmptyString) = false).
Proof.
  unfold parse_flag. cbn [known_flags].
  destruct (Ascii.eqb c "l"); [left; eexists; repeat split|].
  destruct (Ascii.eqb c "a"); [left; eexists; repeat split|].
  destruct (Ascii.eqb c "r"); [left; eexists; repeat split|].
  destruct (Ascii.eqb c "v"); [left; eexists; repeat split|].
  destruct (Ascii.eqb c "s"); [left; eexists; repeat split|].
  destruct (Ascii.eqb c "m"); [left; eexists; repeat split|].
  destruct (Ascii.eqb c "f"); [left; eexists; repeat split|].
  right. split; reflexivity.
Qed.

Lemma parse_flags_known : forall s o,
  match parse_flags o s with
  | Some o' => known_flags s = true /\ device_name o' = device_name o
  | None => known_flags s = false
  end.
Proof.
  induction s as [|c s IH]; intros o; cbn [parse_flags].
  - split; reflexivity.
  - destruct (parse_flag_known o c) as [(o1 & -> & Hd & Hk)|[-> Hk]].
    + specialize (IH o1). cbn [known_flags] in *.
      rewrite andb_true_r in Hk. rewrite Hk. cbn [andb].
      destruct (parse_flags o1 s); [|exact IH].
      destruct IH as [-> ->]. auto.
    + cbn [known_flags] in *. rewrite andb_true_r in Hk. rewrite Hk.
      reflexivity.
Qed.

Lemma parse_args_devices : forall args o,
  let n := List.length (filter names_device args) in
  match parse_args o args with
  | Some o' =>
      all_known args = true
      /\ match device_name o with
         | Some d => n = O /\ device_name o' = Some d
         | None => (n = O /\ device_name o' = None)
                   \/ (n = 1%nat /\ device_name o' <> None)
         end
  | None =>
      all_known args = false
      \/ match device_name o with
         | Some _ => (1 <= n)%nat
         | None => (2 <= n)%nat
         end
  end.
Proof.
  induction args as [|a args IH]; intros o; cbv zeta.
  - cbn. split; [reflexivity|]. destruct (device_name o); auto.
  - assert (Hdash : (exists flags, a = String "-" flags)
                    \/ (names_device a = true
                        /\ parse_args o (a :: args)
                           = match device_name o with
                             | Some _ => None
                             | None => parse_args (with_device_name o a) args
                             end
                        /\ all_known (a :: args) = all_known args)).
    { destruct a as [|c fl]; [right; repeat split|].
      destruct (Ascii.eqb_spec c "-") as [->|N]; [left; eauto|].
      right. cbn [names_device parse_args all_known forallb].
      destruct c as [[] [] [] [] [] [] [] []]; try (repeat split; fail).
      contradiction N; reflexivity. }
    destruct Hdash as [(flags & ->)|(Hn & Hp & Hk)].
    + cbn [parse_args filter names_device all_known forallb].
      pose proof (parse_flags_known flags o) as Hf.
      destruct (parse_flags o flags) as [o1|].
      * destruct Hf as [-> Hd]. cbn [andb]. specialize (IH o1).
        cbv zeta in IH. rewrite Hd in IH. exact IH.
      * rewrite Hf. left. reflexivity.
    + rewrite Hp, Hk. cbn [filter]. rewrite Hn. cbn [List.length].
      destruct (device_name o) as [d|] eqn:Ed; [right; lia|].
      specialize (IH (with_device_name o a)). cbv zeta in IH.
      cbn [device_name with_device_name] in IH.
      destruct (parse_args (with_device_name o a) args) as [o'|].
      * destruct IH as [-> [-> ->]]. split; [reflexivity|].
        right. split; [reflexivity | discriminate].
      * destruct IH as [->|IH]; [auto | right; lia].
Qed.

Lemma usage_error_parse args :
  usage_error args = true
  <-> match parse_args initial_options args with
      | Some o => device_name o = None
      | None => True
      end.
Proof.
  pose proof (parse_args_devices args initial_options) as H. cbv zeta in H.
  cbn [device_name initial_options] in H. unfold usage_error.
  destruct (parse_args initial_options args) as [o|].
  - destruct H as [-> [[Hn Hd]|[Hn Hd]]]; rewrite Hn; cbn; split; intros;
      try reflexivity; try assumption; try discriminate.
    contradiction.
  - split; [auto|]. intros _. destruct H as [-> | H]; [reflexivity|].
    apply orb_true_iff. right.
    destruct (List.length (filter names_device args)) as [|[|n]];
      try lia; reflexivity.
Qed.

Lemma stops_ret {A : Type} P (a : A) : stops_in P (ret a).
Proof. intros g w g' H. discriminate. Qed.

Lemma stops_gets {A : Type} P (f : globals -> A) : stops_in P (gets f).
Proof. intros g w g' H. discriminate. Qed.

Lemma stops_modify P (f : globals -> globals) : stops_in P (modify f).
Proof. intros g w g' H. discriminate. Qed.

Lemma stops_stop {A : Type} (P : stop -> Prop) (w : stop) :
  P w -> stops_in P (@stop_with A w).
Proof. intros H g w' g' E. injection E as <- _. exact H. Qed.

Lemma stops_bind {A B : Type} P (m : M A) (k : A -> M B) :
  stops_in P m -> (forall a, stops_in P (k a)) -> stops_in P (bind m k).
Proof.
  intros Hm Hk g w g' H. unfold bind in H.
  destruct (m g) as [a g1|w1 g1] eqn:E.
  - exact (Hk a g1 w g' H).
  - injection H as <- _. exact (Hm g w1 g1 E).
Qed.

Lemma stops_when P b (m : M unit) : stops_in P m -> stops_in P (when b m).
Proof. intros H. destruct b; [exact H | apply stops_ret]. Qed.

Lemma stops_iterate {S : Type} P (body : Z -> S -> M S) :
  (forall i acc, stops_in P (body i acc)) ->
  forall n i acc, stops_in P (iterate n i body acc).
Proof.
  intros Hb. induction n as [|n IH]; intros i acc; cbn [iterate].
  - apply stops_ret.
  - apply stops_bind; [apply Hb | intros a; apply IH].
Qed.

Lemma stops_ask P q d : stops_in P (ask q d).
Proof.
  intros g w g' H. destruct (ask_effect q d g) as (a & g1 & E & _).
  rewrite E in H. discriminate.
Qed.

Lemma stops_get_current_name : stops_in fault_or_die get_current_name.
Proof.
  intros g w g' H. apply get_current_name_stop in H.
  destruct H as [(i & [-> | ->]) _]; intros s E; discriminate.
Qed.

Create HintDb stops.
#[local] Hint Resolve stops_ret stops_gets stops_modify stops_ask
  stops_get_current_name : stops.

(** [stops_in fault_or_die m] by the structure of [m]. *)
Ltac stops_go :=
  repeat first
    [ solve [auto with stops]
    | apply stops_bind; [|intro]
    | apply stops_when
    | apply stops_iterate; intros
    | apply stops_stop; let s := fresh in let E := fresh in
        intros s E; first [discriminate | injection E as <-; reflexivity]
    | match goal with
      | |- stops_in _ (if ?b then _ else _) => destruct b
      | |- stops_in _ (match ?x with _ => _ end) => destruct x
      end
    | progress cbv beta iota delta
        [index assign load store load_entry store_entry deref assign_one
         leave die printf get_Inode put_Inode get_slot put_slot bit
         setbit clrbit inode_in_use zone_in_use mark_inode unmark_inode
         mark_zone unmark_zone push_name strncpy_name incr_name_depth
         decr_name_depth] ].

Lemma stops_read_block nr : stops_in fault_or_die (read_block nr).
Proof. unfold read_block. stops_go. Qed.

Lemma stops_write_block nr buf : stops_in fault_or_die (write_block nr buf).
Proof. unfold write_block. stops_go. Qed.
#[local] Hint Resolve stops_read_block stops_write_block : stops.

Lemma stops_check_zone_nr v nr c :
  stops_in fault_or_die (check_zone_nr_ v nr c).
Proof. unfold check_zone_nr_. stops_go. Qed.
#[local] Hint Resolve stops_check_zone_nr : stops.

Lemma stops_check_slot v ino k : stops_in fault_or_die (check_slot v ino k).
Proof. unfold check_slot. stops_go. Qed.

Lemma stops_check_entry v blk i : stops_in fault_or_die (check_entry v blk i).
Proof. unfold check_entry. stops_go. Qed.
#[local] Hint Resolve stops_check_slot stops_check_entry : stops.

Lemma stops_follow v ino r : stops_in fault_or_die (follow v ino r).
Proof. destruct r; cbn [follow]; stops_go. Qed.

Lemma stops_get_inode v nr : stops_in fault_or_die (get_inode_ v nr).
Proof. unfold get_inode_. stops_go. Qed.

Lemma stops_add_zone v nr c : stops_in fault_or_die (add_zone_ v nr c).
Proof. unfold add_zone_. stops_go. Qed.
#[local] Hint Resolve stops_follow stops_get_inode stops_add_zone : stops.

Lemma stops_add_zone_0 v nr c : stops_in fault_or_die (add_zone_0 v nr c).
Proof. unfold add_zone_0. stops_go. Qed.
#[local] Hint Resolve stops_add_zone_0 : stops.

Lemma stops_add_zone_entry v each i acc :
  (forall nr c, stops_in fault_or_die (each nr c)) ->
  stops_in fault_or_die (add_zone_entry v each i acc).
Proof. intros H. unfold add_zone_entry. stops_go. Qed.

Lemma stops_add_zone_level v each nr c :
  (forall nr c, stops_in fault_or_die (each nr c)) ->
  stops_in fault_or_die (add_zone_level v each nr c).
Proof.
  intros H. unfold add_zone_level.
  pose proof (fun i acc => stops_add_zone_entry v each i acc H).
  stops_go.
Qed.

Lemma stops_add_zone_ind v nr c :
  stops_in fault_or_die (add_zone_ind_ v nr c).
Proof. apply stops_add_zone_level. apply stops_add_zone_0. Qed.

Lemma stops_add_zone_dind v nr c :
  stops_in fault_or_die (add_zone_dind_ v nr c).
Proof. apply stops_add_zone_level. apply stops_add_zone_ind. Qed.

Lemma stops_add_zone_tind v nr c :
  stops_in fault_or_die (add_zone_tind_ v nr c).
Proof. apply stops_add_zone_level. apply stops_add_zone_dind. Qed.
#[local] Hint Resolve stops_add_zone_ind stops_add_zone_dind
  stops_add_zone_tind : stops.

Lemma stops_on_slot v ino k f :
  (forall nr c, stops_in fault_or_die (f nr c)) ->
  stops_in fault_or_die (on_slot v ino k f).
Proof. intros H. unfold on_slot. stops_go. Qed.

Lemma stops_check_zones v i : stops_in fault_or_die (check_zones_ v i).
Proof.
  unfold check_zones_.
  pose proof (fun k f H => stops_on_slot v i k f H).
  stops_go.
Qed.
#[local] Hint Resolve stops_check_zones : stops.

Lemma stops_check_file v recurse dir offset :
  (forall ino, stops_in fault_or_die (recurse ino)) ->
  stops_in fault_or_die (check_file_ v recurse dir offset).
Proof. intros H. unfold check_file_. stops_go. Qed.

Lemma stops_dir_loop body ino :
  (forall offset, stops_in fault_or_die (body offset)) ->
  forall fuel offset, stops_in fault_or_die (dir_loop fuel body ino offset).
Proof.
  intros H. induction fuel as [|fuel IH]; intros offset; cbn [dir_loop];
    stops_go.
Qed.

Lemma stops_recursive_check v :
  forall fuel ino, stops_in fault_or_die (recursive_check_ v fuel ino).
Proof.
  induction fuel as [|fuel IH]; intros ino; cbn [recursive_check_].
  - stops_go.
  - pose proof (fun body ino H fuel offset =>
                  stops_dir_loop body ino H fuel offset).
    pose proof (fun dir offset =>
                  stops_check_file v (recursive_check_ v fuel) dir offset IH).
    stops_go.
Qed.
#[local] Hint Resolve stops_recursive_check : stops.

Lemma stops_check v fuel : stops_in fault_or_die (check_ v fuel).
Proof.
  unfold check_, check_counts_, check_counts_inode, check_counts_zone,
    bad_zone.
  stops_go.
Qed.

Lemma stops_read_tables : stops_in fault_or_die read_tables.
Proof. unfold read_tables, get_dirsize, root_dir_block. stops_go. Qed.

Lemma stops_read_superblock : stops_in fault_or_die read_superblock.
Proof. unfold read_superblock, check_sizes. stops_go. Qed.

Lemma stops_write_tables : stops_in fault_or_die write_tables.
Proof. unfold write_tables, write_table, write_super_block. stops_go. Qed.
#[local] Hint Resolve stops_check stops_read_tables stops_read_superblock
  stops_write_tables : stops.

(** A run ends in one of four ways besides a fault: with -V or --version
    as its only argument it prints the version and exits with 0; with an
    unknown letter in a flag bundle, or with no or several device names, it
    prints the usage line and exits with 16 before it opens the device;
    otherwise it returns from [main], or exits through [die] with 8. *)
Theorem exits_of_a_run fuel argv w :
  (version_request argv = true ->
   run fuel argv w
   = Stop (Stop_leave 0) (log (Printed Version_banner) (initial w)))
  /\ (version_request argv = false -> usage_error (tl argv) = true ->
      exists g, run fuel argv w = Stop (Stop_leave 16) g
                /\ out g = [Printed Usage_banner] /\ IN g = no_device)
  /\ (version_request argv = false -> usage_error (tl argv) = false ->
      forall s g, run fuel argv w = Stop (Stop_leave s) g -> s = 8).
Proof.
  unfold run, main, main_from.
  pose proof (usage_error_parse (tl argv)) as HU.
  destruct (version_request argv).
  { split; [reflexivity|]. split; intros; discriminate. }
  split; [intros; discriminate|].
  destruct (parse_args initial_options (tl argv)) as [o|].
  2: { split.
       - intros _ _. eexists. split; [reflexivity|]. split; reflexivity.
       - intros _ E. rewrite (proj2 HU I) in E. discriminate. }
  unfold bind at 1. unfold modify at 1.
  destruct (device_name o) as [d|].
  2: { split.
       - intros _ _. eexists. split; [reflexivity|]. split; reflexivity.
       - intros _ E. rewrite (proj2 HU eq_refl) in E. discriminate. }
  split.
  - intros _ E. apply HU in E. discriminate.
  - intros _ _ s g H.
    match type of H with
    | ?m ?g0 = _ =>
        assert (S : stops_in fault_or_die m)
          by (unfold check_root, check_root2, check_root_, check, check2,
                report, write_super_block; stops_go)
    end.
    exact (S _ _ _ H s eq_refl).
Qed.

Lemma exits_of_a_run_witness :
  (exists g, run 10 ["mfsck"; "-x"; "img"]%string
               (Fixture.world_of (Fixture.clean_v1 0))
             = Stop (Stop_leave 16) g)
  /\ (exists g, run 10 ["mfsck"; "a"; "b"]%string
                  (Fixture.world_of (Fixture.clean_v1 0))
                = Stop (Stop_leave 16) g).
Proof.
  split.
  - destruct (proj1 (proj2 (exits_of_a_run 10 ["mfsck"; "-x"; "img"]%string
                              (Fixture.world_of (Fixture.clean_v1 0))))
                eq_refl eq_refl) as (g & E & _).
    exists g. exact E.
  - destruct (proj1 (proj2 (exits_of_a_run 10 ["mfsck"; "a"; "b"]%string
                              (Fixture.world_of (Fixture.clean_v1 0))))
                eq_refl eq_refl) as (g & E & _).
    exists g. exact E.
Defined.

(** ** write_super_block and write_tables on the device *)

Lemma write_super_block_ok g g' :
  write_super_block g = Ok tt g' ->
  g' = set_IN (dev_with_super (IN g)
                 (with_s_state (Super g) (new_state g)))
         (log (Write (W_super (with_s_state (Super g) (new_state g))))
            (set_Super (with_s_state (Super g) (new_state g)) g)).
Proof.
  unfold write_super_block, new_state. cbv zeta. mred. proj_red.
  destruct (dev_seek_ok (IN g) BLOCK_SIZE); cbn [negb]; [|discriminate].
  destruct (dev_write_ok (IN g) BLOCK_SIZE); [|discriminate].
  destruct (errors_uncorrected g); intros H; injection H as <-; reflexivity.
Qed.

Lemma write_tables_ok g g' :
  write_tables g = Ok tt g' ->
  g' = set_IN (dev_with_inodes
                 (dev_with_zone_map
                    (dev_with_inode_map
                       (dev_with_super (IN g)
                          (with_s_state (Super g) (new_state g)))
                       (inode_map g))
                    (zone_map g))
                 (Inode g))
         (log (Write (W_inodes (Inode g)))
            (log (Write (W_zone_map (zone_map g)))
               (log (Write (W_inode_map (inode_map g)))
                  (log (Write (W_super
                                 (with_s_state (Super g) (new_state g))))
                     (set_Super (with_s_state (Super g) (new_state g))
                        g))))).
Proof.
  unfold write_tables. intros H.
  apply bind_ok in H. destruct H as ([] & g1 & E1 & H).
  apply write_super_block_ok in E1. subst g1.
  revert H. unfold write_table. mred. proj_red.
  cbn [dev_with_super dev_write_ok].
  destruct (dev_write_ok (IN g) (2 * BLOCK_SIZE)); [|discriminate].
  mred. proj_red. cbn [dev_with_inode_map dev_with_super dev_write_ok].
  match goal with
  | |- context [if ?c then _ else _] => destruct c; [|discriminate]
  end.
  mred. proj_red.
  cbn [dev_with_zone_map dev_with_inode_map dev_with_super dev_write_ok].
  match goal with
  | |- context [if ?c then _ else _] => destruct c; [|discriminate]
  end.
  intros H. injection H as <-. reflexivity.
Qed.

Lemma write_tables_state g g' :
  write_tables g = Ok tt g' ->
  dev_super (IN g') = Some (Super g')
  /\ s_state (Super g') = new_state g
  /\ errors_uncorrected g' = errors_uncorrected g.
Proof.
  intros H. apply write_tables_ok in H. subst g'. proj_red.
  repeat split; reflexivity.
Qed.



(** When a run with -a or -r returns, the super block on the device is the
    one in memory; its state has VALID_FS set, and has ERROR_FS set exactly
    when the exit status has the 4 bit. *)
Theorem repair_run_marks_the_device fuel argv w code g :
  run fuel argv w = Ok code g -> wants_repair (tl argv) = true ->
  dev_super (IN g) = Some (Super g)
  /\ Z.testbit (s_state (Super g)) 0 = true
  /\ Z.testbit (s_state (Super g)) 1 = Z.testbit code 2.
Proof.
  intros H Hw. pose proof (returned_status _ _ _ _ _ H) as Hc.
  unfold run, main, main_from in H.
  destruct (version_request argv); [discriminate|].
  destruct (parse_args initial_options (tl argv)) as [o|] eqn:Ep;
    [|discriminate].
  pose proof (parse_args_force _ _ Ep) as Hf.
  pose proof (parse_args_repair _ _ Ep) as Hr. rewrite Hw in Hr.
  apply bind_ok in H. destruct H as (? & g1 & _ & H).
  destruct (device_name o); [|discriminate].
  apply bind_ok in H. destruct H as (? & g2 & _ & H).
  destruct (w_device w); [|discriminate].
  apply bind_ok in H. destruct H as (? & g3 & _ & H).
  apply bind_ok in H. destruct H as (? & g4 & _ & H).
  apply bind_ok in H. destruct H as (sb & g5 & _ & H).
  rewrite Hf in H. cbn [negb] in H. rewrite andb_false_r in H.
  do 4 (apply bind_ok in H; destruct H as (? & ? & _ & H)).
  apply bind_ok in H. destruct H as (? & gk & _ & H).
  apply bind_ok in H. destruct H as (chg & g6 & E6 & H).
  injection E6 as <- <-.
  apply bind_ok in H. destruct H as ([] & g7 & E7 & H).
  revert H. mred. intros H. injection H as _ <-.
  assert (F : dev_super (IN g7) = Some (Super g7)
              /\ exists g0, s_state (Super g7) = new_state g0
                   /\ errors_uncorrected g7 = errors_uncorrected g0).
  { destruct (changed gk).
    - apply bind_ok in E7. destruct E7 as ([] & g8 & E8 & E7).
      apply write_tables_state in E8.
      revert E7. mred. intros E7. injection E7 as <-. proj_red.
      destruct E8 as (A & B & C). split; [exact A|]. exists gk.
      rewrite B. split; [reflexivity | exact C].
    - rewrite Hr in E7. cbn [when] in E7.
      apply write_super_block_ok in E7. subst g7. proj_red.
      split; [reflexivity|]. exists gk. split; reflexivity. }
  destruct F as (A & g0 & B & C). split; [exact A|]. rewrite B.
  rewrite !new_state_bits by lia. cbn [Z.eqb]. split; [reflexivity|].
  rewrite Hc, C. destruct (changed g7), (errors_uncorrected g0); reflexivity.
Qed.

Lemma repair_run_marks_the_device_witness :
  let g := final (run 10 ["mfsck"; "-a"; "img"]%string
                    (Fixture.world_of Fixture.stray_zone_v1)) in
  dev_super (IN g) = Some (Super g)
  /\ Z.testbit (s_state (Super g)) 0 = true
  /\ Z.testbit (s_state (Super g)) 1 = false.
Proof.
  cbv zeta.
  refine (repair_run_marks_the_device 10 ["mfsck"; "-a"; "img"]%string
            (Fixture.world_of Fixture.stray_zone_v1) 3 _ _ _).
  - vm_compute. reflexivity.
  - reflexivity.
Defined.

(** ** The final report *)






(** On an image whose super block counts no zone the run gets through the
    check and stops in the report, on the division by [ZONES]. *)
Lemma report_divides_by_zero_zones :
  exists g,
    run 10 ["mfsck"; "img"]%string (Fixture.world_of Sample.no_zones_v1)
    = Stop Division_by_zero g
    /\ ZONES g = 0.
Proof. eexists. split; vm_compute; reflexivity. Qed.

(** ** check_counts in automatic mode *)

Lemma ask_auto q d g :
  repair (opts g) = true -> automatic (opts g) = true ->
  ask q d g
  = Ok d (log (Asked q d d)
            (if d then g else set_errors_uncorrected true g)).
Proof.
  intros Hr Ha. unfold ask. mred. rewrite Hr, Ha. cbn [negb].
  destruct d; reflexivity.
Qed.

Lemma iterate_inv {T : Type} (I : Z -> globals -> Prop)
  (body : Z -> T -> M T) :
  (forall i acc g acc' g', I i g -> body i acc g = Ok acc' g' ->
     I (i + 1) g') ->
  forall n i acc g acc' g',
    I i g -> iterate n i body acc g = Ok acc' g' -> I (i + Z.of_nat n) g'.
Proof.
  intros Hb. induction n as [|n IH]; intros i acc g acc' g' Hi H;
    cbn [iterate] in H.
  - injection H as _ <-. replace (i + Z.of_nat 0) with i by lia. exact Hi.
  - apply bind_ok in H. destruct H as (a & g1 & E & H).
    replace (i + Z.of_nat (S n)) with (i + 1 + Z.of_nat n) by lia.
    exact (IH _ _ _ _ _ (Hb _ _ _ _ _ Hi E) H).
Qed.

Lemma put_Inode_spec ino x g g' :
  put_Inode ino x g = Ok tt g' ->
  exists t, g' = set_Inode t g
    /\ zget t (ino - 1) = Some x
    /\ forall k, k <> ino - 1 -> zget t k = zget (Inode g) k.
Proof.
  unfold put_Inode, assign. mred.
  destruct (zset (Inode g) (ino - 1) x) as [t|] eqn:E; [|discriminate].
  intros H. injection H as <-. exists t. split; [reflexivity|].
  split; [exact (zset_same _ _ _ _ E)|].
  intros k Hk. exact (zset_other _ _ _ _ _ E Hk).
Qed.

Lemma get_Inode_spec ino g x g' :
  get_Inode ino g = Ok x g' -> g' = g /\ zget (Inode g) (ino - 1) = Some x.
Proof.
  unfold get_Inode, index. mred.
  destruct (zget (Inode g) (ino - 1)); [|discriminate].
  intros H. injection H as <- <-. auto.
Qed.

Lemma inode_in_use_spec i g b g' :
  inode_in_use i g = Ok b g' -> g' = g /\ inode_bit g i = Some b.
Proof.
  rewrite inode_in_use_reads. destruct (inode_bit g i); [|discriminate].
  intros H. injection H as <- <-. auto.
Qed.

Lemma zone_in_use_spec z g b g' :
  zone_in_use z g = Ok b g' -> g' = g /\ zone_bit g z = Some b.
Proof.
  rewrite zone_in_use_reads. destruct (zone_bit g z); [|discriminate].
  intros H. injection H as <- <-. auto.
Qed.

Lemma put_Inode_other ino x k :
  k <> ino - 1 -> preserves (fun g => zget (Inode g) k) (put_Inode ino x).
Proof.
  intros Hk g. unfold put_Inode, assign. mred.
  destruct (zset (Inode g) (ino - 1) x) as [t|] eqn:E; cbn [final];
    [|reflexivity].
  proj_red. exact (zset_other _ _ _ _ _ E Hk).
Qed.

(** The frames of a step that only asks, prints and rewrites one table. *)
Ltac frames_but_inodes E :=
  frame_of E opts; frame_of E inode_count; frame_of E Super;
  frame_of E version2; frame_of E zone_map; frame_of E zone_count;
  frame_of E IN.

Lemma check_counts_inode_auto v i g g' :
  repair (opts g) = true -> automatic (opts g) = true ->
  check_counts_inode v i g = Ok tt g' ->
  exists c, zget (inode_count g) i = Some c /\
  inode_settled g' i c
  /\ (forall j, j <> i -> inode_bit g' j = inode_bit g j)
  /\ (forall k, k <> i - 1 -> zget (Inode g') k = zget (Inode g) k)
  /\ opts g' = opts g /\ inode_count g' = inode_count g
  /\ Super g' = Super g /\ version2 g' = version2 g
  /\ zone_map g' = zone_map g /\ zone_count g' = zone_count g
  /\ IN g' = IN g.
Proof.
  intros Hr Ha H. unfold check_counts_inode in H.
  apply bind_ok in H. destruct H as (used & g1 & E1 & H).
  apply inode_in_use_spec in E1. destruct E1 as [-> Hu].
  apply bind_ok in H. destruct H as (uncleared & g2 & E2 & H).
  frame_of E2 (fun g : globals => g). subst g2. clear E2.
  apply bind_ok in H. destruct H as (o & g2 & E2 & H).
  injection E2 as <- <-.
  apply bind_ok in H. destruct H as ([] & g3 & E3 & H).
  assert (F3 : forall k, k <> i - 1 -> zget (Inode g3) k = zget (Inode g) k).
  { intros k Hk. pose proof (fun x => put_Inode_other i x k Hk) as PO.
    frame_of E3 (fun g => zget (Inode g) k). exact P. }
  frames_but_inodes E3. frame_of E3 inode_map. clear E3.
  apply bind_ok in H. destruct H as (ic & g4 & E4 & H).
  injection E4 as <- <-.
  apply bind_ok in H. destruct H as (c0 & g4 & E4 & H).
  unfold index in E4. rewrite P0 in E4.
  destruct (zget (inode_count g) i) as [c|] eqn:Hc; [|discriminate].
  injection E4 as <- <-. exists c. split; [reflexivity|].
  assert (Hr3 : repair (opts g3) = true) by congruence.
  assert (Ha3 : automatic (opts g3) = true) by congruence.
  assert (Hb3 : forall j, inode_bit g3 j = inode_bit g j)
    by (intros j; unfold inode_bit; rewrite P6; reflexivity).
  cut (inode_settled g' i c
       /\ (forall j, j <> i -> inode_bit g' j = inode_bit g3 j)
       /\ (forall k, k <> i - 1 -> zget (Inode g') k = zget (Inode g3) k)
       /\ opts g' = opts g3 /\ inode_count g' = inode_count g3
       /\ Super g' = Super g3 /\ version2 g' = version2 g3
       /\ zone_map g' = zone_map g3 /\ zone_count g' = zone_count g3
       /\ IN g' = IN g3).
  { intros (A1 & A2 & A3 & A4 & A5 & A6 & A7 & A8 & A9 & A10).
    split; [exact A1|].
    split; [intros j Hj; rewrite (A2 j Hj); apply Hb3|].
    split; [intros k Hk; rewrite (A3 k Hk); apply F3; exact Hk|].
    repeat split; congruence. }
  clear F3 P P0 P1 P2 P3 P4 P5 P6 Hb3 Hu Hc Hr Ha used uncleared.
  unfold inode_settled.
  destruct (Z.eqb_spec c 0) as [E0|Nc].
  - rewrite E0 in *. clear E0.
    apply bind_ok in H. destruct H as (u & g5 & E5 & H).
    apply inode_in_use_spec in E5. destruct E5 as [-> Hu].
    destruct u; cbn [negb] in H.
    + revert H. mred. rewrite ask_auto by (proj_red; assumption).
      cbn [when]. intros H. apply unmark_inode_spec in H.
      destruct H as (m & -> & Hl & Hb & Ho). unfold inode_bit. proj_red.
      split; [split; [exact Hb | intros N; contradiction]|].
      split; [exact Ho|]. repeat split; reflexivity.
    + injection H as <-.
      split; [split; [exact Hu | intros N; contradiction]|].
      repeat split; reflexivity.
  - apply bind_ok in H. destruct H as (u & g5 & E5 & H).
    apply inode_in_use_spec in E5. destruct E5 as [-> Hu].
    apply bind_ok in H. destruct H as ([] & g6 & E6 & H).
    assert (F6 : inode_bit g6 i = Some true
                 /\ (forall j, j <> i -> inode_bit g6 j = inode_bit g3 j)
                 /\ Inode g6 = Inode g3 /\ opts g6 = opts g3
                 /\ inode_count g6 = inode_count g3 /\ Super g6 = Super g3
                 /\ version2 g6 = version2 g3 /\ zone_map g6 = zone_map g3
                 /\ zone_count g6 = zone_count g3 /\ IN g6 = IN g3).
    { destruct u; cbn [negb when] in E6.
      - injection E6 as <-. repeat split; auto.
      - revert E6. mred. rewrite ask_auto by (proj_red; assumption).
        cbn [when]. intros E6. apply mark_inode_spec in E6.
        destruct E6 as (m & -> & Hl & Hb & Ho). unfold inode_bit. proj_red.
        split; [exact Hb|]. split; [exact Ho|]. repeat split; reflexivity. }
    destruct F6 as (B1 & B2 & B3 & B4 & B5 & B6 & B7 & B8 & B9 & B10).
    clear E6 Hu.
    apply bind_ok in H. destruct H as (x & g7 & E7 & H).
    apply get_Inode_spec in E7. destruct E7 as [-> Hx].
    assert (Hr6 : repair (opts g6) = true) by congruence.
    assert (Ha6 : automatic (opts g6) = true) by congruence.
    cut ((exists y, zget (Inode g') (i - 1) = Some y /\ i_nlinks y = c)
         /\ inode_map g' = inode_map g6
         /\ (forall k, k <> i - 1 -> zget (Inode g') k = zget (Inode g6) k)
         /\ opts g' = opts g6 /\ inode_count g' = inode_count g6
         /\ Super g' = Super g6 /\ version2 g' = version2 g6
         /\ zone_map g' = zone_map g6 /\ zone_count g' = zone_count g6
         /\ IN g' = IN g6).
    { intros (A1 & A2 & A3 & A4 & A5 & A6 & A7 & A8 & A9 & A10).
      assert (Hb : forall j, inode_bit g' j = inode_bit g6 j)
        by (intros j; unfold inode_bit; rewrite A2; reflexivity).
      split; [split; [rewrite Hb; exact B1 | intros _; exact A1]|].
      split; [intros j Hj; rewrite Hb; apply B2; exact Hj|].
      split; [intros k Hk; rewrite (A3 k Hk), B3; reflexivity|].
      repeat split; congruence. }
    destruct (Z.eqb_spec (i_nlinks x) c) as [En|Nn]; cbn [negb when] in H.
    + injection H as <-. split; [exists x; auto|]. repeat split; reflexivity.
    + revert H. mred. rewrite ask_auto by (proj_red; assumption).
      cbn [when]. mred. intros H.
      match type of H with
      | match put_Inode ?a ?b ?s with _ => _ end = _ =>
          destruct (put_Inode a b s) as [[] g8|] eqn:E8; [|discriminate]
      end.
      injection H as <-. apply put_Inode_spec in E8.
      destruct E8 as (t & -> & Ht & Hot). proj_red.
      split; [eexists; split; [exact Ht | reflexivity]|].
      split; [reflexivity|]. split; [exact Hot|]. repeat split; reflexivity.
Qed.

Lemma inode_loop_auto v g : forall n i s s',
  repair (opts s) = true -> automatic (opts s) = true ->
  inode_count s = inode_count g ->
  (forall j, 1 <= j < i ->
     exists c, zget (inode_count g) j = Some c /\ inode_settled s j c) ->
  iterate n i (fun i _ => check_counts_inode v i) tt s = Ok tt s' ->
  opts s' = opts s /\ inode_count s' = inode_count g
  /\ Super s' = Super s /\ version2 s' = version2 s
  /\ zone_map s' = zone_map s /\ zone_count s' = zone_count s
  /\ IN s' = IN s
  /\ (forall j, 1 <= j < i + Z.of_nat n ->
        exists c, zget (inode_count g) j = Some c /\ inode_settled s' j c)
  /\ (forall j, i + Z.of_nat n <= j ->
        inode_bit s' j = inode_bit s j
        /\ zget (Inode s') (j - 1) = zget (Inode s) (j - 1)).
Proof.
  induction n as [|n IH]; intros i s s' Hr Ha Hic Hd H; cbn [iterate] in H.
  - injection H as <-.
    do 7 (split; [first [reflexivity | assumption]|]).
    split; [intros j Hj; apply Hd; lia | intros j Hj; split; reflexivity].
  - apply bind_ok in H. destruct H as ([] & s1 & E & H).
    destruct (check_counts_inode_auto v i s s1 Hr Ha E)
      as (c & Hc & Hs & Hb & Ht & Ho & Hi & HS & Hv & Hz & Hzc & HI).
    destruct (IH (i + 1) s1 s') as (A1 & A2 & A3 & A4 & A5 & A6 & A7 & A8 & A9);
      try congruence.
    { intros j Hj. destruct (Z.eq_dec j i) as [->|N].
      - exists c. rewrite Hic in Hc. split; [exact Hc | exact Hs].
      - destruct (Hd j ltac:(lia)) as (c' & Hc' & D1 & D2).
        exists c'. split; [exact Hc'|]. split.
        + rewrite Hb by exact N. exact D1.
        + intros Nc. rewrite Ht by lia. exact (D2 Nc). }
    do 7 (split; [congruence|]). split.
    + intros j Hj. apply A8. lia.
    + intros j Hj. destruct (A9 j ltac:(lia)) as [B1 B2].
      rewrite B1, B2, Hb, Ht by lia. split; reflexivity.
Qed.

Lemma bad_zone_spec i g b g' :
  bad_zone i g = Ok b g' -> g' = g /\ b = bad_block (IN g) i.
Proof.
  unfold bad_zone, bad_block. mred.
  destruct (2 ^ 31 <=? BLOCK_SIZE * i); [discriminate|].
  destruct (dev_seek_ok (IN g) (BLOCK_SIZE * i)); cbn [negb]; [|discriminate].
  destruct (dev_block (IN g) i); intros H; injection H as <- <-; auto.
Qed.

Lemma check_counts_zone_auto v i g g' :
  repair (opts g) = true -> automatic (opts g) = true ->
  check_counts_zone v i g = Ok tt g' ->
  exists used c,
    zone_bit g i = Some used /\ zget (zone_count g) i = Some c
    /\ bit_at (zone_map g') (ulong (i - FIRSTZONE g + 1))
       = Some (if (c =? 0) && negb (bad_block (IN g) i) then false else used)
    /\ (forall k, k <> ulong (i - FIRSTZONE g + 1) ->
          bit_at (zone_map g') k = bit_at (zone_map g) k)
    /\ opts g' = opts g /\ zone_count g' = zone_count g
    /\ Super g' = Super g /\ version2 g' = version2 g
    /\ inode_map g' = inode_map g /\ Inode g' = Inode g
    /\ inode_count g' = inode_count g /\ IN g' = IN g.
Proof.
  intros Hr Ha H. unfold check_counts_zone in H.
  apply bind_ok in H. destruct H as (used & g1 & E1 & H).
  apply zone_in_use_spec in E1. destruct E1 as [-> Hu].
  apply bind_ok in H. destruct H as (zc & g1 & E1 & H).
  injection E1 as <- <-.
  apply bind_ok in H. destruct H as (c & g1 & E1 & H).
  unfold index in E1.
  destruct (zget (zone_count g) i) as [c0|] eqn:Hc; [|discriminate].
  injection E1 as <- <-. exists used, c0.
  split; [exact Hu|]. split; [reflexivity|].
  unfold zone_bit in Hu.
  destruct (Z.eqb_spec (Z.b2z used) c0) as [Eb|Nb].
  { injection H as <-.
    split; [|repeat split; reflexivity].
    destruct (Z.eqb_spec c0 0) as [Z0|]; [|exact Hu].
    destruct used; [cbn in Eb; lia|]. rewrite Hu.
    destruct (bad_block (IN g) i); reflexivity. }
  destruct (Z.eqb_spec c0 0) as [Z0|N0].
  - subst c0. destruct used; [|cbn in Nb; lia].
    apply bind_ok in H. destruct H as (bad & g1 & E1 & H).
    apply bad_zone_spec in E1. destruct E1 as [-> ->].
    cbn [andb]. destruct (bad_block (IN g) i); cbn [negb].
    + injection H as <-. split; [exact Hu|]. repeat split; reflexivity.
    + revert H. mred. rewrite ask_auto by (proj_red; assumption).
      cbn [when]. intros H. apply unmark_zone_spec in H.
      destruct H as (m & -> & Hl & Hb & Ho). unfold FIRSTZONE in *.
      proj_red.
      split; [exact Hb|]. split; [exact Ho|]. repeat split; reflexivity.
  - cbn [andb].
    assert (E : g' = log (Printed (Zone_in_use_counted i c0)) g
                \/ g' = log (Printed (Zone_not_in_use_counted i c0)) g)
      by (destruct used; revert H; mred; intros H; injection H as <-; auto).
    destruct E as [-> | ->]; proj_red;
      (split; [exact Hu|]); repeat split; reflexivity.
Qed.

Lemma zone_loop_auto v g : forall n i s s',
  repair (opts s) = true -> automatic (opts s) = true ->
  0 <= FIRSTZONE g <= i -> i + Z.of_nat n <= 2 ^ 63 ->
  zone_count s = zone_count g -> Super s = Super g -> IN s = IN g ->
  (forall z, FIRSTZONE g <= z < i -> zone_settled g s z) ->
  (forall z, i <= z < 2 ^ 63 -> zone_bit s z = zone_bit g z) ->
  iterate n i (fun i _ => check_counts_zone v i) tt s = Ok tt s' ->
  opts s' = opts s /\ zone_count s' = zone_count g
  /\ Super s' = Super g /\ version2 s' = version2 s
  /\ inode_map s' = inode_map s /\ Inode s' = Inode s
  /\ inode_count s' = inode_count s /\ IN s' = IN g
  /\ (forall z, FIRSTZONE g <= z < i + Z.of_nat n -> zone_settled g s' z).
Proof.
  induction n as [|n IH]; intros i s s' Hr Ha Hf Hn Hzc HS HI Hd Hu H;
    cbn [iterate] in H.
  - injection H as <-.
    do 8 (split; [first [reflexivity | assumption]|]).
    intros z Hz. apply Hd. lia.
  - apply bind_ok in H. destruct H as ([] & s1 & E & H).
    destruct (check_counts_zone_auto v i s s1 Hr Ha E)
      as (used & c & Hb & Hc & Hbit & Hoth & Ho & Hz1 & HS1 & Hv1 & Him
          & HIn & Hic & HI1).
    assert (EF : FIRSTZONE s = FIRSTZONE g)
      by (unfold FIRSTZONE; rewrite HS; reflexivity).
    assert (EF1 : FIRSTZONE s1 = FIRSTZONE g)
      by (unfold FIRSTZONE; rewrite HS1, HS; reflexivity).
    rewrite EF in Hbit, Hoth.
    assert (Hother : forall z, FIRSTZONE g <= z < 2 ^ 63 -> z <> i ->
                       zone_bit s1 z = zone_bit s z).
    { intros z Hz N. unfold zone_bit. rewrite EF, EF1. apply Hoth.
      rewrite !ulong_small by lia. lia. }
    destruct (IH (i + 1) s1 s') as (A1 & A2 & A3 & A4 & A5 & A6 & A7 & A8 & A9);
      try congruence; try lia.
    { intros z Hz. destruct (Z.eq_dec z i) as [->|N].
      - exists used, c. rewrite <- (Hu i) by lia.
        split; [exact Hb|]. split; [congruence|].
        unfold zone_bit at 1. rewrite EF1, <- HI. exact Hbit.
      - destruct (Hd z ltac:(lia)) as (u' & c' & D1 & D2 & D3).
        exists u', c'. split; [exact D1|]. split; [exact D2|].
        rewrite Hother by lia. exact D3. }
    { intros z Hz. rewrite Hother by lia. apply Hu. lia. }
    do 8 (split; [congruence|]).
    intros z Hz. apply A9. lia.
Qed.

(** What [check_counts] does in automatic mode, from [g] to [g']. *)
Lemma check_counts_auto v g g' :
  repair (opts g) = true -> automatic (opts g) = true ->
  0 <= FIRSTZONE g < 2 ^ 16 -> ZONES g < 2 ^ 32 ->
  check_counts_ v g = Ok tt g' ->
  opts g' = opts g /\ Super g' = Super g /\ version2 g' = version2 g
  /\ inode_count g' = inode_count g /\ zone_count g' = zone_count g
  /\ IN g' = IN g
  /\ (forall i, 1 <= i <= INODES g ->
        exists c, zget (inode_count g) i = Some c /\ inode_settled g' i c)
  /\ (forall z, FIRSTZONE g <= z < ZONES g -> zone_settled g g' z).
Proof.
  intros Hr Ha Hf Hz H. unfold check_counts_ in H.
  apply bind_ok in H. destruct H as (inodes & g0 & E & H).
  injection E as <- <-.
  apply bind_ok in H. destruct H as ([] & g1 & E1 & H).
  apply bind_ok in H. destruct H as (fz & g2 & E & H). injection E as <- <-.
  apply bind_ok in H. destruct H as (zones & g2 & E & H).
  injection E as <- <-.
  destruct (inode_loop_auto v g (Z.to_nat (INODES g)) 1 g g1 Hr Ha eq_refl)
    as (A1 & A2 & A3 & A4 & A5 & A6 & A7 & A8 & _);
    [intros j Hj; lia | exact E1 |].
  assert (EF : FIRSTZONE g1 = FIRSTZONE g)
    by (unfold FIRSTZONE; rewrite A3; reflexivity).
  assert (EZ : ZONES g1 = ZONES g)
    by (unfold ZONES; rewrite A3, A4; reflexivity).
  rewrite EF, EZ in H.
  destruct (zone_loop_auto v g1 (Z.to_nat (ZONES g - FIRSTZONE g))
              (FIRSTZONE g) g1 g')
    as (B1 & B2 & B3 & B4 & B5 & B6 & B7 & B8 & B9);
    try congruence; try reflexivity; try lia.
  split; [congruence|]. split; [congruence|]. split; [congruence|].
  split; [congruence|]. split; [congruence|]. split; [congruence|]. split.
  - intros i Hi. destruct (A8 i) as (c & Hc & D1 & D2); [lia|].
    exists c. split; [exact Hc|]. split.
    + unfold inode_bit in *. rewrite B5. exact D1.
    + rewrite B6. exact D2.
  - intros z Hz'. destruct (B9 z) as (u & c & D1 & D2 & D3); [lia|].
    exists u, c. unfold zone_bit in D1. rewrite EF, A5 in D1.
    rewrite A6 in D2. rewrite A7 in D3.
    split; [exact D1|]. split; [exact D2 | exact D3].
Qed.

(** ** Counted zones are marked, in automatic mode *)

Lemma marks_ret {A : Type} (a : A) : marks (ret a).
Proof. intros g a' g' H E. injection E as _ <-. exact H. Qed.

Lemma marks_gets {A : Type} (f : globals -> A) : marks (gets f).
Proof. intros g a' g' H E. injection E as _ <-. exact H. Qed.

Lemma marks_stop {A : Type} (w : stop) : marks (@stop_with A w).
Proof. intros g a' g' H E. discriminate. Qed.

Lemma marks_bind {A B : Type} (m : M A) (k : A -> M B) :
  marks m -> (forall a, marks (k a)) -> marks (bind m k).
Proof.
  intros Hm Hk g b g' H E. apply bind_ok in E.
  destruct E as (a & g1 & E1 & E2).
  exact (Hk a g1 b g' (Hm g a g1 H E1) E2).
Qed.

Lemma marks_when b (m : M unit) : marks m -> marks (when b m).
Proof. intros H. destruct b; [exact H | apply marks_ret]. Qed.

Lemma marks_iterate {T : Type} (body : Z -> T -> M T) :
  (forall i acc, marks (body i acc)) ->
  forall n i acc, marks (iterate n i body acc).
Proof.
  intros Hb. induction n as [|n IH]; intros i acc; cbn [iterate].
  - apply marks_ret.
  - apply marks_bind; [apply Hb | intros a; apply IH].
Qed.

Lemma marks_modify (f : globals -> globals) :
  (forall g, counted_marked g -> counted_marked (f g)) -> marks (modify f).
Proof.
  intros H g a g' Hg E. unfold modify in E. injection E as _ <-. apply H.
  exact Hg.
Qed.

Lemma marks_ask q d : marks (ask q d).
Proof.
  intros g a g' (Hr & Ha & Hm) E.
  destruct (ask_effect q d g) as (a' & g1 & E1 & K & _).
  rewrite E1 in E. injection E as _ <-.
  unfold counted_marked, zone_bit, FIRSTZONE in *.
  rewrite (k_opts _ _ K), (k_zone_count _ _ K), (k_zone_map _ _ K),
    (k_Super _ _ K).
  auto.
Qed.

Lemma marks_get_current_name : marks get_current_name.
Proof.
  intros g a g' H E. apply get_current_name_ok in E. subst g'. exact H.
Qed.

Lemma marks_mark_zone x : marks (mark_zone x).
Proof.
  intros g [] g' (Hr & Ha & Hm) E. apply mark_zone_spec in E.
  destruct E as (m & -> & Hl & Hb & Ho).
  unfold counted_marked, zone_bit, FIRSTZONE in *. proj_red.
  split; [exact Hr|]. split; [exact Ha|]. intros z c Hc Nc.
  destruct (Z.eq_dec (ulong (z - s_firstdatazone (Super g) + 1))
              (ulong (x - s_firstdatazone (Super g) + 1))) as [E|N].
  - rewrite E. exact Hb.
  - rewrite (Ho _ N). exact (Hm z c Hc Nc).
Qed.

Create HintDb marks.
#[local] Hint Resolve marks_ret marks_gets marks_stop marks_ask
  marks_get_current_name marks_mark_zone : marks.

(** [counted_marked] of a stack of updates that leave the switches, the
    super block, the zone map and the zone counters alone. *)
Ltac marked_stack :=
  let H := fresh in
  intros ? H; unfold counted_marked, zone_bit, FIRSTZONE in *; proj_red;
  exact H.

(** [marks m] by the structure of [m]. *)
Ltac marks_go :=
  repeat first
    [ solve [auto with marks]
    | apply marks_bind; [|intro]
    | apply marks_when
    | apply marks_iterate; intros
    | apply marks_modify; solve [marked_stack]
    | match goal with
      | |- marks (if ?b then _ else _) => destruct b
      | |- marks (match ?x with _ => _ end) => destruct x
      end
    | progress cbv beta iota delta
        [index assign load store load_entry store_entry deref assign_one
         leave die printf get_Inode put_Inode get_slot put_slot bit
         setbit clrbit inode_in_use zone_in_use mark_inode unmark_inode
         push_name strncpy_name incr_name_depth decr_name_depth] ].

Lemma marks_read_block nr : marks (read_block nr).
Proof. unfold read_block. marks_go. Qed.

Lemma marks_write_block nr buf : marks (write_block nr buf).
Proof. unfold write_block. marks_go. Qed.
#[local] Hint Resolve marks_read_block marks_write_block : marks.

Lemma marks_check_zone_nr v nr c : marks (check_zone_nr_ v nr c).
Proof. unfold check_zone_nr_. marks_go. Qed.
#[local] Hint Resolve marks_check_zone_nr : marks.

Lemma marks_check_slot v ino k : marks (check_slot v ino k).
Proof. unfold check_slot. marks_go. Qed.

Lemma marks_check_entry v blk i : marks (check_entry v blk i).
Proof. unfold check_entry. marks_go. Qed.
#[local] Hint Resolve marks_check_slot marks_check_entry : marks.

Lemma marks_follow v ino r : marks (follow v ino r).
Proof. destruct r; cbn [follow]; marks_go. Qed.

Lemma marks_get_inode v nr : marks (get_inode_ v nr).
Proof. unfold get_inode_. marks_go. Qed.
#[local] Hint Resolve marks_follow marks_get_inode : marks.

Lemma marks_add_zone v nr c : marks (add_zone_ v nr c).
Proof.
  intros g r g' Hg H. unfold add_zone_ in H.
  apply bind_ok in H. destruct H as ([[blk nr1] c1] & g1 & E1 & H).
  apply (marks_check_zone_nr v nr c g _ g1 Hg) in E1.
  destruct (blk =? 0); [injection H as _ <-; exact E1|].
  apply bind_ok in H. destruct H as (zc & g2 & E & H). injection E as <- <-.
  apply bind_ok in H. destruct H as (c0 & g2 & E & H).
  unfold index in E.
  destruct (zget (zone_count g1) blk) as [cA|]; [|discriminate].
  injection E as <- <-.
  apply bind_ok in H. destruct H as ([[blk2 nr2] c2] & g2 & E2 & H).
  assert (H2 : counted_marked g2).
  { revert E2.
    match goal with
    | |- ?m g1 = _ -> _ =>
        assert (Mk : marks m) by marks_go; exact (Mk g1 _ g2 E1)
    end. }
  clear E2 E1.
  destruct (blk2 =? 0); [injection H as _ <-; exact H2|].
  apply bind_ok in H. destruct H as (used & g3 & E3 & H).
  apply zone_in_use_spec in E3. destruct E3 as [-> Hu].
  apply bind_ok in H. destruct H as ([] & g4 & E4 & H).
  assert (H4 : counted_marked g4 /\ zone_bit g4 blk2 = Some true).
  { destruct used; cbn [negb] in E4.
    - injection E4 as <-. auto.
    - apply bind_ok in E4. destruct E4 as (name & g5 & E5 & E4).
      apply get_current_name_ok in E5. subst g5.
      destruct H2 as (Hr & Ha & Hm).
      revert E4. mred. rewrite ask_auto by (proj_red; assumption).
      cbn [when]. intros E4.
      assert (H5 : counted_marked
                     (log (Asked "Correct" true true)
                        (log (Printed (Block_not_in_use blk2 name)) g2)))
        by (unfold counted_marked, zone_bit, FIRSTZONE in *; proj_red; auto).
      split; [exact (marks_mark_zone blk2 _ _ _ H5 E4)|].
      apply mark_zone_spec in E4. destruct E4 as (m & -> & _ & Hb & _).
      unfold zone_bit, FIRSTZONE in *. proj_red. exact Hb. }
  destruct H4 as [(Hr & Ha & Hm) Hb]. clear E4.
  apply bind_ok in H. destruct H as (zc & g5 & E & H). injection E as <- <-.
  apply bind_ok in H. destruct H as (c5 & g5 & E & H).
  unfold index in E.
  destruct (zget (zone_count g4) blk2) as [cB|]; [|discriminate].
  injection E as <- <-.
  apply bind_ok in H. destruct H as (zc' & g5 & E & H).
  unfold assign in E.
  destruct (zset (zone_count g4) blk2 (fst (incr_u8 cB))) as [l|] eqn:Es;
    [|discriminate].
  injection E as <- <-. revert H. mred. intros H. injection H as _ <-.
  unfold counted_marked, zone_bit, FIRSTZONE in *. proj_red.
  split; [exact Hr|]. split; [exact Ha|]. intros z cz Hc Nc.
  destruct (Z.eq_dec z blk2) as [->|N]; [exact Hb|].
  rewrite (zset_other _ _ _ _ _ Es N) in Hc. exact (Hm z cz Hc Nc).
Qed.
#[local] Hint Resolve marks_add_zone : marks.

Lemma marks_add_zone_0 v nr c : marks (add_zone_0 v nr c).
Proof. unfold add_zone_0. marks_go. Qed.
#[local] Hint Resolve marks_add_zone_0 : marks.

Lemma marks_add_zone_entry v each i acc :
  (forall nr c, marks (each nr c)) -> marks (add_zone_entry v each i acc).
Proof. intros H. unfold add_zone_entry. marks_go. Qed.

Lemma marks_add_zone_level v each nr c :
  (forall nr c, marks (each nr c)) -> marks (add_zone_level v each nr c).
Proof.
  intros H. unfold add_zone_level.
  pose proof (fun i acc => marks_add_zone_entry v each i acc H).
  marks_go.
Qed.

Lemma marks_add_zone_ind v nr c : marks (add_zone_ind_ v nr c).
Proof. apply marks_add_zone_level. apply marks_add_zone_0. Qed.

Lemma marks_add_zone_dind v nr c : marks (add_zone_dind_ v nr c).
Proof. apply marks_add_zone_level. apply marks_add_zone_ind. Qed.

Lemma marks_add_zone_tind v nr c : marks (add_zone_tind_ v nr c).
Proof. apply marks_add_zone_level. apply marks_add_zone_dind. Qed.
#[local] Hint Resolve marks_add_zone_ind marks_add_zone_dind
  marks_add_zone_tind : marks.

Lemma marks_on_slot v ino k f :
  (forall nr c, marks (f nr c)) -> marks (on_slot v ino k f).
Proof. intros H. unfold on_slot. marks_go. Qed.

Lemma marks_check_zones v i : marks (check_zones_ v i).
Proof.
  unfold check_zones_.
  pose proof (fun k f H => marks_on_slot v i k f H).
  marks_go.
Qed.
#[local] Hint Resolve marks_check_zones : marks.

Lemma marks_check_file v recurse dir offset :
  (forall ino, marks (recurse ino)) ->
  marks (check_file_ v recurse dir offset).
Proof. intros H. unfold check_file_. marks_go. Qed.

Lemma marks_dir_loop body ino :
  (forall offset, marks (body offset)) ->
  forall fuel offset, marks (dir_loop fuel body ino offset).
Proof.
  intros H. induction fuel as [|fuel IH]; intros offset; cbn [dir_loop];
    marks_go.
Qed.

Lemma marks_recursive_check v :
  forall fuel ino, marks (recursive_check_ v fuel ino).
Proof.
  induction fuel as [|fuel IH]; intros ino; cbn [recursive_check_].
  - marks_go.
  - pose proof (fun body ino H fuel offset =>
                  marks_dir_loop body ino H fuel offset).
    pose proof (fun dir offset =>
                  marks_check_file v (recursive_check_ v fuel) dir offset IH).
    marks_go.
Qed.

(** ** check in automatic mode *)

Lemma check_auto v fuel g g' :
  repair (opts g) = true -> automatic (opts g) = true ->
  0 <= FIRSTZONE g < 2 ^ 16 -> ZONES g < 2 ^ 32 ->
  check_ v fuel g = Ok tt g' ->
  Super g' = Super g /\ version2 g' = version2 g
  /\ (forall i, 1 <= i <= INODES g ->
        exists c, zget (inode_count g') i = Some c
                  /\ inode_settled g' i c)
  /\ (forall z, FIRSTZONE g <= z < ZONES g ->
        exists c b, zget (zone_count g') z = Some c
          /\ zone_bit g' z = Some b
          /\ (c <> 0 -> b = true)
          /\ (b = true -> c <> 0 \/ bad_block (IN g') z = true)).
Proof.
  intros Hr Ha Hf Hz H. unfold check_ in H.
  apply bind_ok in H. destruct H as (inodes & g0 & E & H).
  injection E as <- <-.
  apply bind_ok in H. destruct H as (zones & g0 & E & H).
  injection E as <- <-.
  apply bind_ok in H. destruct H as ([] & g0 & E & H). injection E as <-.
  apply bind_ok in H. destruct H as ([] & g0 & E & H). injection E as <-.
  match type of H with
  | _ ?s = _ => set (g0 := s) in *
  end.
  assert (M0 : counted_marked g0).
  { unfold counted_marked, g0. proj_red.
    split; [exact Hr|]. split; [exact Ha|]. intros z c Hc Nc.
    apply zget_repeat in Hc. contradiction. }
  assert (S0 : Super g0 = Super g /\ version2 g0 = version2 g)
    by (split; reflexivity).
  clearbody g0. destruct S0 as [S0 V0].
  apply bind_ok in H. destruct H as ([] & g1 & E1 & H).
  pose proof (marks_check_zones v ROOT_INO g0 tt g1 M0 E1) as M1.
  pose proof (steadily_check_zones v ROOT_INO g0) as T1.
  rewrite E1 in T1. cbn [final] in T1.
  apply bind_ok in H. destruct H as ([] & g2 & E2 & H).
  pose proof (marks_recursive_check v fuel ROOT_INO g1 tt g2 M1 E2) as M2.
  pose proof (steadily_recursive_check v fuel ROOT_INO g1) as T2.
  rewrite E2 in T2. cbn [final] in T2.
  pose proof (steady_trans _ _ _ T1 T2) as T. clear T1 T2 E1 E2 M0 M1.
  assert (S2 : Super g2 = Super g) by (rewrite (st_Super _ _ T); exact S0).
  assert (V2' : version2 g2 = version2 g)
    by (rewrite (st_version2 _ _ T); exact V0).
  assert (EF : FIRSTZONE g2 = FIRSTZONE g)
    by (unfold FIRSTZONE; rewrite S2; reflexivity).
  assert (EZ : ZONES g2 = ZONES g)
    by (unfold ZONES; rewrite S2, V2'; reflexivity).
  assert (EI : INODES g2 = INODES g)
    by (unfold INODES; rewrite S2; reflexivity).
  destruct M2 as (Hr2 & Ha2 & Hm).
  destruct (check_counts_auto v g2 g' Hr2 Ha2) as
    (C1 & C2 & C3 & C4 & C5 & C6 & C7 & C8);
    [rewrite EF; exact Hf | rewrite EZ; exact Hz | exact H |].
  split; [congruence|]. split; [congruence|]. split.
  - intros i Hi. rewrite <- EI in Hi. destruct (C7 i Hi) as (c & Hc & D).
    exists c. rewrite C4. auto.
  - intros z Hz'. rewrite <- EF, <- EZ in Hz'.
    destruct (C8 z Hz') as (used & c & D1 & D2 & D3).
    exists c. eexists. rewrite C5. split; [exact D2|].
    split; [exact D3|]. rewrite C6. split.
    + intros Nc. destruct (Z.eqb_spec c 0); [contradiction|]. cbn [andb].
      pose proof (Hm z c D2 Nc) as Hb. rewrite Hb in D1.
      injection D1 as <-. reflexivity.
    + destruct (Z.eqb_spec c 0) as [->|N]; [|auto]. cbn [andb].
      destruct (bad_block (IN g2) z); cbn [negb]; [auto | discriminate].
Qed.

(** After [check] or [check2] has returned in automatic mode (-a), the
    zone map agrees with the zones the traversal counted: every zone of
    [FIRSTZONE, ZONES) that a file uses is marked, and a zone that is still
    marked is used by a file or has a block that cannot be read. *)
Theorem automatic_check_settles_the_zone_map v fuel g g' :
  repair (opts g) = true -> automatic (opts g) = true ->
  0 <= FIRSTZONE g < 2 ^ 16 -> ZONES g < 2 ^ 32 ->
  check_ v fuel g = Ok tt g' ->
  forall z, FIRSTZONE g <= z < ZONES g ->
    exists c b,
      zget (zone_count g') z = Some c /\ zone_in_use z g' = Ok b g'
      /\ (c <> 0 -> b = true)
      /\ (b = true -> c <> 0 \/ bad_block (IN g') z = true).
Proof.
  intros Hr Ha Hf Hz H z Hz'.
  destruct (check_auto v fuel g g' Hr Ha Hf Hz H) as (_ & _ & _ & Hzones).
  destruct (Hzones z Hz') as (c & b & Hc & Hb & H1 & H2).
  exists c, b. rewrite zone_in_use_reads, Hb. auto.
Qed.

Lemma automatic_check_settles_the_zone_map_witness :
  let g := set_opts (with_repair initial_options true true)
             (Fixture.loaded Fixture.stray_zone_v1) in
  exists c b,
    zget (zone_count (final (check 10 g))) 6 = Some c
    /\ zone_in_use 6 (final (check 10 g)) = Ok b (final (check 10 g))
    /\ (c <> 0 -> b = true)
    /\ (b = true -> c <> 0 \/ bad_block (IN (final (check 10 g))) 6 = true).
Proof.
  cbv zeta.
  refine (automatic_check_settles_the_zone_map V1 10
            (set_opts (with_repair initial_options true true)
               (Fixture.loaded Fixture.stray_zone_v1))
            _ eq_refl eq_refl _ _ _ 6 _).
  - vm_compute. split; [discriminate | reflexivity].
  - vm_compute. reflexivity.
  - vm_compute. reflexivity.
  - vm_compute. split; [discriminate | reflexivity].
Defined.

(** After [check] or [check2] has returned in automatic mode (-a), the
    inode map and the link counts agree with the counters of the
    traversal: an inode from 1 to [INODES] is marked in use exactly when it
    was counted, and if it was, its [i_nlinks] is the count. *)
Theorem automatic_check_settles_the_inodes v fuel g g' :
  repair (opts g) = true -> automatic (opts g) = true ->
  0 <= FIRSTZONE g < 2 ^ 16 -> ZONES g < 2 ^ 32 ->
  check_ v fuel g = Ok tt g' ->
  forall i, 1 <= i <= INODES g ->
    exists c,
      zget (inode_count g') i = Some c
      /\ inode_in_use i g' = Ok (negb (c =? 0)) g'
      /\ (c <> 0 -> exists x, get_Inode i g' = Ok x g' /\ i_nlinks x = c).
Proof.
  intros Hr Ha Hf Hz H i Hi.
  destruct (check_auto v fuel g g' Hr Ha Hf Hz H) as (_ & _ & Hinodes & _).
  destruct (Hinodes i Hi) as (c & Hc & Hb & Hn).
  exists c. rewrite inode_in_use_reads, Hb. split; [exact Hc|].
  split; [reflexivity|]. intros Nc. destruct (Hn Nc) as (x & Hx & Hl).
  exists x. unfold get_Inode, index. mred. rewrite Hx. auto.
Qed.

Lemma automatic_check_settles_the_inodes_witness :
  let g := set_opts (with_repair initial_options true true)
             (Fixture.loaded Fixture.stray_zone_v1) in
  exists c,
    zget (inode_count (final (check 10 g))) 1 = Some c
    /\ inode_in_use 1 (final (check 10 g))
       = Ok (negb (c =? 0)) (final (check 10 g))
    /\ (c <> 0 -> exists x, get_Inode 1 (final (check 10 g))
                            = Ok x (final (check 10 g)) /\ i_nlinks x = c).
Proof.
  cbv zeta.
  refine (automatic_check_settles_the_inodes V1 10
            (set_opts (with_repair initial_options true true)
               (Fixture.loaded Fixture.stray_zone_v1))
            _ eq_refl eq_refl _ _ _ 1 _).
  - vm_compute. split; [discriminate | reflexivity].
  - vm_compute. reflexivity.
  - vm_compute. reflexivity.
  - vm_compute. split; discriminate.
Defined.
